(** * SPSCQueue: a single-producer single-consumer ring buffer

  Shallow embedding of [src/lib/SPSCQueue.h] and of the program that uses
  it, [src/main/spscqueue.cpp].

  The file has four layers.
  - [SizeT]: the arithmetic of [size_t] and [std::ptrdiff_t] on an LP64
    target (64-bit, wrap-around written out on [Z]).
  - The member functions of [SPSCQueue<T, Allocator>], written in a small
    state monad [Op] that threads the object and logs every access to the
    two atomics and every construction or destruction of an element.
  - [step]: the same member functions cut at their shared-memory accesses,
    one transition per access, so that a producer thread and a consumer
    thread can be interleaved.  Atomics are sequentially consistent in this
    model; the weaker acquire/release orders the source asks for are kept
    as annotations on the logged accesses only.
  - [turn]: the two threads of the program, [producer()] and [consumer()],
    one turn per transition of the queue or statement of their own. *)

From Stdlib Require Import ZArith List Lia Bool.
From stdpp Require Import base option list gmap.

Local Open Scope Z_scope.

(** ** Machine integers *)

Module SizeT.

Definition bits : Z := 64.
Definition modulus : Z := Eval cbv in 2 ^ bits.
Definition SIZE_MAX : Z := Eval cbv in modulus - 1.
Definition PTRDIFF_MAX : Z := Eval cbv in 2 ^ (bits - 1) - 1.

(** The value of a [size_t] expression whose mathematical value is [z]. *)
Definition wrap (z : Z) : Z := z mod modulus.

(** Conversion of a [size_t] to [std::ptrdiff_t] (two's complement). *)
Definition to_ptrdiff (u : Z) : Z :=
  if u <=? PTRDIFF_MAX then u else u - modulus.

(** Conversion of a [std::ptrdiff_t] to [size_t]. *)
Definition of_ptrdiff (d : Z) : Z := wrap d.

End SizeT.

Import SizeT.

(** ** The object *)

(** [std::memory_order] arguments that occur in the source. *)
Inductive memory_order :=
| memory_order_relaxed
| memory_order_acquire
| memory_order_release.

(** The two [std::atomic<size_t>] members. *)
Inductive Atomic := WriteIndex | ReadIndex.

(** What the constructor needs to know about the [Allocator] parameter:
  whether it has a member [allocate_at_least], and the [count] that member
  reports for a request of [n] objects.  Allocation itself is taken to
  succeed. *)
Record Allocator := {
  has_allocate_at_least : bool;
  allocate_at_least_count : Z -> Z
}.

(** An allocator without [allocate_at_least], as [std::allocator] before C++23. *)
Definition plain_allocator : Allocator :=
  {| has_allocate_at_least := false; allocate_at_least_count := fun n => n |}.

(** [allocate_at_least] never grants less than was asked, and what it grants
  is a [size_t]. *)
Definition allocator_ok (A : Allocator) : Prop :=
  has_allocate_at_least A = true ->
  forall n, 0 <= n <= SIZE_MAX -> n <= allocate_at_least_count A n <= SIZE_MAX.

(** An allocator with [allocate_at_least] that grants three objects more
    than asked, as far as [size_t] allows: what an allocator that rounds
    requests up to its size classes does. *)
Definition generous_allocator : Allocator :=
  {| has_allocate_at_least := true;
     allocate_at_least_count := fun n => Z.min SIZE_MAX (n + 3) |}.

(** [sizeof(int)] on the targets considered. *)
Definition sizeof_int : positive := 4.

Section Queue.

(** The element type: its values and [sizeof(T)]. *)
Context {T : Type} (sizeof_T : positive).

(** The fallback of the source, which is also what
    [std::hardware_destructive_interference_size] is on x86-64. *)
Definition _cacheLineSize : Z := 64.

(** [(_cacheLineSize - 1) / sizeof(T) + 1] *)
Definition _padding : Z := (_cacheLineSize - 1) / Z.pos sizeof_T + 1.

(** The members.  [_slots] is the raw storage: a slot index is bound exactly
    when an object is alive in that slot. *)
Record SPSCQueue := mkSPSCQueue {
  _capacity : Z;
  _slots : gmap Z T;
  _writeIndex : Z;
  _readIndex : Z;
  _writeIndexCache : Z;
  _readIndexCache : Z
}.

Definition with_slots (s : gmap Z T) (q : SPSCQueue) : SPSCQueue :=
  mkSPSCQueue (_capacity q) s (_writeIndex q) (_readIndex q)
              (_writeIndexCache q) (_readIndexCache q).
Definition with_writeIndex (i : Z) (q : SPSCQueue) : SPSCQueue :=
  mkSPSCQueue (_capacity q) (_slots q) i (_readIndex q)
              (_writeIndexCache q) (_readIndexCache q).
Definition with_readIndex (i : Z) (q : SPSCQueue) : SPSCQueue :=
  mkSPSCQueue (_capacity q) (_slots q) (_writeIndex q) i
              (_writeIndexCache q) (_readIndexCache q).
Definition with_writeIndexCache (i : Z) (q : SPSCQueue) : SPSCQueue :=
  mkSPSCQueue (_capacity q) (_slots q) (_writeIndex q) (_readIndex q)
              i (_readIndexCache q).
Definition with_readIndexCache (i : Z) (q : SPSCQueue) : SPSCQueue :=
  mkSPSCQueue (_capacity q) (_slots q) (_writeIndex q) (_readIndex q)
              (_writeIndexCache q) i.

(** ** Effects *)

(** The accesses a member function makes, in program order.  [Destroy]
    records what the destroyed slot held; [None] is a destructor call on raw
    storage. *)
Inductive Event :=
| Load (a : Atomic) (o : memory_order) (v : Z)
| Store (a : Atomic) (o : memory_order) (v : Z)
| Construct (slot : Z) (v : T)
| Destroy (slot : Z) (held : option T).

Definition Op (A : Type) : Type := SPSCQueue -> A * SPSCQueue * list Event.

Definition ret {A} (a : A) : Op A := fun q => (a, q, []).

Definition bind {A B} (m : Op A) (k : A -> Op B) : Op B :=
  fun q =>
    let '(a, q1, t1) := m q in
    let '(b, q2, t2) := k a q1 in
    (b, q2, t1 ++ t2).

Definition value {A} (r : A * SPSCQueue * list Event) : A := fst (fst r).
Definition after {A} (r : A * SPSCQueue * list Event) : SPSCQueue := snd (fst r).
Definition accesses {A} (r : A * SPSCQueue * list Event) : list Event := snd r.

Notation "'let*' x ':=' m 'in' k" := (bind m (fun x => k))
  (at level 10, x name, m at level 100, k at level 200).
Notation "m ';;;' k" := (bind m (fun _ => k))
  (at level 100, k at level 200, right associativity).

Definition atomic_value (a : Atomic) (q : SPSCQueue) : Z :=
  match a with WriteIndex => _writeIndex q | ReadIndex => _readIndex q end.

Definition atomic_write (a : Atomic) (v : Z) (q : SPSCQueue) : SPSCQueue :=
  match a with WriteIndex => with_writeIndex v q | ReadIndex => with_readIndex v q end.

(** [a.load(o)] *)
Definition load (a : Atomic) (o : memory_order) : Op Z :=
  fun q => (atomic_value a q, q, [Load a o (atomic_value a q)]).

(** [a.store(v, o)] *)
Definition store (a : Atomic) (v : Z) (o : memory_order) : Op unit :=
  fun q => (tt, atomic_write a v q, [Store a o v]).

(** Reading and writing a plain member. *)
Definition read {A} (f : SPSCQueue -> A) : Op A := fun q => (f q, q, []).
Definition write (f : SPSCQueue -> SPSCQueue) : Op unit := fun q => (tt, f q, []).

(** [new (&_slots[i]) T(v)]: whatever the slot held is overwritten. *)
Definition placement_new (i : Z) (v : T) : Op unit :=
  fun q => (tt, with_slots (<[i := v]> (_slots q)) q, [Construct i v]).

(** [_slots[i].~T()] *)
Definition destroy_at (i : Z) : Op unit :=
  fun q => (tt, with_slots (delete i (_slots q)) q, [Destroy i (_slots q !! i)]).

(** ** Construction *)

(** [SPSCQueue(const size_t capacity)], for an allocator [A]. *)
Definition SPSCQueue_new (A : Allocator) (capacity : Z) : SPSCQueue :=
  let _capacity := capacity in
  let _capacity := if _capacity <? 1 then 1 else _capacity in
  let _capacity := wrap (_capacity + 1) in
  let _capacity :=
    if _capacity >? wrap (SIZE_MAX - wrap (2 * _padding))
    then wrap (SIZE_MAX - wrap (2 * _padding))
    else _capacity in
  let _capacity :=
    if has_allocate_at_least A
    then wrap (allocate_at_least_count A (wrap (_capacity + wrap (2 * _padding)))
               - wrap (2 * _padding))
    else _capacity in
  mkSPSCQueue _capacity ∅ 0 0 0 0.

(** [_capacity] when the constructor turns to the allocator, after the guard
    of lines 69-72: the request, at least 1, with the slack slot, cut by
    the guard. *)
Definition capacity_asked (capacity : Z) : Z :=
  let _capacity := capacity in
  let _capacity := if _capacity <? 1 then 1 else _capacity in
  let _capacity := wrap (_capacity + 1) in
  if _capacity >? wrap (SIZE_MAX - wrap (2 * _padding))
  then wrap (SIZE_MAX - wrap (2 * _padding))
  else _capacity.

(** The number of slots the constructor asks the allocator for: the
    argument [_capacity + 2 * _padding] of [allocate_at_least], line 77, and
    of [allocate], lines 83 and 86. *)
Definition slots_asked (capacity : Z) : Z :=
  wrap (capacity_asked capacity + wrap (2 * _padding)).

(** The number of slots of the storage behind [_slots], by the value
    [_capacity] ends with: the ring and the two runs of padding.  Without
    [allocate_at_least] this is the number asked for; with it, it is the
    count the allocator reported (line 79), which may be more. *)
Definition slots_allocated (q : SPSCQueue) : Z :=
  wrap (_capacity q + wrap (2 * _padding)).

(** ** Producer side *)

(** The body shared by [emplace] and [try_emplace] once room is known:
    construct in the slot, then publish the advanced index. *)
Definition construct_and_publish (writeIndex nextWriteIndex : Z) (v : T) : Op unit :=
  placement_new (wrap (writeIndex + _padding)) v ;;;
  store WriteIndex nextWriteIndex memory_order_release.

(** [while (nextWriteIndex == _readIndexCache) _readIndexCache = _readIndex.load(acquire);]
    with a bound on the number of iterations; [false] when the bound is hit
    with the loop still running. *)
Fixpoint emplace_wait (fuel : nat) (nextWriteIndex : Z) : Op bool :=
  match fuel with
  | O => ret false
  | S fuel' =>
      let* cache := read _readIndexCache in
      if nextWriteIndex =? cache then
        let* r := load ReadIndex memory_order_acquire in
        write (with_readIndexCache r) ;;;
        emplace_wait fuel' nextWriteIndex
      else ret true
  end.

(** [emplace(v)]; [None] when the wait loop did not exit within [fuel] tests. *)
Definition emplace (fuel : nat) (v : T) : Op (option unit) :=
  let* writeIndex := load WriteIndex memory_order_relaxed in
  let nextWriteIndex := wrap (writeIndex + 1) in
  let* capacity := read _capacity in
  let nextWriteIndex := if nextWriteIndex =? capacity then 0 else nextWriteIndex in
  let* exited := emplace_wait fuel nextWriteIndex in
  if exited : bool then
    construct_and_publish writeIndex nextWriteIndex v ;;;
    ret (Some tt)
  else ret None.

(** [try_emplace(v)] *)
Definition try_emplace (v : T) : Op bool :=
  let* writeIndex := load WriteIndex memory_order_relaxed in
  let nextWriteIndex := wrap (writeIndex + 1) in
  let* capacity := read _capacity in
  let nextWriteIndex := if nextWriteIndex =? capacity then 0 else nextWriteIndex in
  let* cache := read _readIndexCache in
  if nextWriteIndex =? cache then
    let* r := load ReadIndex memory_order_acquire in
    write (with_readIndexCache r) ;;;
    let* cache := read _readIndexCache in
    if nextWriteIndex =? cache then ret false
    else
      construct_and_publish writeIndex nextWriteIndex v ;;;
      ret true
  else
    construct_and_publish writeIndex nextWriteIndex v ;;;
    ret true.

(** [push(v)] and [try_push(v)] forward to the above. *)
Definition push (fuel : nat) (v : T) : Op (option unit) := emplace fuel v.
Definition try_push (v : T) : Op bool := try_emplace v.

(** ** Consumer side *)

(** [front()]: the index of the slot pointed to, [None] for [nullptr]. *)
Definition front : Op (option Z) :=
  let* readIndex := load ReadIndex memory_order_relaxed in
  let* cache := read _writeIndexCache in
  if readIndex =? cache then
    let* w := load WriteIndex memory_order_acquire in
    write (with_writeIndexCache w) ;;;
    let* cache := read _writeIndexCache in
    if cache =? readIndex then ret None
    else ret (Some (wrap (readIndex + _padding)))
  else ret (Some (wrap (readIndex + _padding))).

(** [pop()].  The [assert] of the source is compiled out under [NDEBUG];
    what its message asks of the caller, to call [pop] only after [front]
    returned a pointer, is when [consumer_step] below enables [call_pop]. *)
Definition pop : Op unit :=
  let* readIndex := load ReadIndex memory_order_relaxed in
  destroy_at (wrap (readIndex + _padding)) ;;;
  let nextReadIndex := wrap (readIndex + 1) in
  let* capacity := read _capacity in
  let nextReadIndex := if nextReadIndex =? capacity then 0 else nextReadIndex in
  store ReadIndex nextReadIndex memory_order_release.

(** ** Observers *)

(** [size()] *)
Definition size (q : SPSCQueue) : Z :=
  let diff := to_ptrdiff (wrap (_writeIndex q - _readIndex q)) in
  let diff := if diff <? 0
              then to_ptrdiff (wrap (of_ptrdiff diff + _capacity q))
              else diff in
  of_ptrdiff diff.

(** [empty()] *)
Definition empty (q : SPSCQueue) : bool := _writeIndex q =? _readIndex q.

(** [capacity()] *)
Definition capacity (q : SPSCQueue) : Z := wrap (_capacity q - 1).

(** ** Destruction *)

(** [~SPSCQueue()]: [while (front()) pop();] with a bound on the number of
    loop tests; [None] when the bound is hit with the loop still running. *)
Fixpoint SPSCQueue_delete (fuel : nat) : Op (option unit) :=
  match fuel with
  | O => ret None
  | S fuel' =>
      let* p := front in
      match p with
      | None => ret (Some tt)
      | Some _ => pop ;;; SPSCQueue_delete fuel'
      end
  end.

(** ** Two threads *)

(** Where the producer thread stands.  The arguments are the locals of the
    member function it is in. *)
Inductive Producer :=
| PIdle
| PEmplaceWait (writeIndex nextWriteIndex : Z) (v : T)
    (* emplace: at the test of the while loop *)
| PTryTest (writeIndex nextWriteIndex : Z) (v : T)
    (* try_emplace: at the outer if *)
| PConstruct (writeIndex nextWriteIndex : Z) (v : T)
    (* try_emplace: the refresh found room, before the placement new *)
| PPublish (nextWriteIndex : Z) (v : T) (try : bool)
    (* either: element constructed, before the release store *).

(** Where the consumer thread stands. *)
Inductive Consumer :=
| CIdle
| CReload (readIndex : Z)
    (* front: the cache said empty, before the acquire load *)
| CHold (p : Z)
    (* front has returned &_slots[p] and pop has not been called since *)
| CDestroy (readIndex : Z)
    (* pop: before the destructor call *)
| CStore (nextReadIndex : Z)
    (* pop: element destroyed, before the release store *).

Record Config := mkConfig {
  object : SPSCQueue;
  producer : Producer;
  consumer : Consumer
}.

(** What the scheduler and the two callers may do next. *)
Inductive Action :=
| call_emplace (v : T)
| call_try_emplace (v : T)
| run_producer
| call_front
| call_pop
| run_consumer.

(** What a transition hands back to the caller: nothing while the member
    function is still running, its result when it returns.  [RetFront]
    also records what the caller sees through the returned pointer. *)
Inductive Return :=
| Running
| RetEmplace (v : T)
| RetTryEmplace (v : T) (ok : bool)
| RetFront (p : option Z) (seen : option T)
| RetPop.

(** [writeIndex + 1], reset to 0 at [_capacity]: lines 110-114, 130-134, 186-190. *)
Definition next_index (i : Z) : Op Z :=
  let next := wrap (i + 1) in
  let* capacity := read _capacity in
  ret (if next =? capacity then 0 else next).

Definition deref (p : Z) : Op (option T) := read (fun q => _slots q !! p).

(** One transition of the producer thread. *)
Definition producer_step (a : Action) (pc : Producer) : option (Op (Producer * Return)) :=
  match pc, a with
  | PIdle, call_emplace v => Some (
      let* writeIndex := load WriteIndex memory_order_relaxed in
      let* nextWriteIndex := next_index writeIndex in
      ret (PEmplaceWait writeIndex nextWriteIndex v, Running))
  | PIdle, call_try_emplace v => Some (
      let* writeIndex := load WriteIndex memory_order_relaxed in
      let* nextWriteIndex := next_index writeIndex in
      ret (PTryTest writeIndex nextWriteIndex v, Running))
  | PEmplaceWait writeIndex nextWriteIndex v, run_producer => Some (
      let* cache := read _readIndexCache in
      if nextWriteIndex =? cache then
        let* r := load ReadIndex memory_order_acquire in
        write (with_readIndexCache r) ;;;
        ret (PEmplaceWait writeIndex nextWriteIndex v, Running)
      else
        placement_new (wrap (writeIndex + _padding)) v ;;;
        ret (PPublish nextWriteIndex v false, Running))
  | PTryTest writeIndex nextWriteIndex v, run_producer => Some (
      let* cache := read _readIndexCache in
      if nextWriteIndex =? cache then
        let* r := load ReadIndex memory_order_acquire in
        write (with_readIndexCache r) ;;;
        let* cache := read _readIndexCache in
        if nextWriteIndex =? cache then ret (PIdle, RetTryEmplace v false)
        else ret (PConstruct writeIndex nextWriteIndex v, Running)
      else
        placement_new (wrap (writeIndex + _padding)) v ;;;
        ret (PPublish nextWriteIndex v true, Running))
  | PConstruct writeIndex nextWriteIndex v, run_producer => Some (
      placement_new (wrap (writeIndex + _padding)) v ;;;
      ret (PPublish nextWriteIndex v true, Running))
  | PPublish nextWriteIndex v try, run_producer => Some (
      store WriteIndex nextWriteIndex memory_order_release ;;;
      ret (PIdle, if try then RetTryEmplace v true else RetEmplace v))
  | _, _ => None
  end.

(** [front()] up to its first access to the producer's index. *)
Definition front_begin : Op (Consumer * Return) :=
  let* readIndex := load ReadIndex memory_order_relaxed in
  let* cache := read _writeIndexCache in
  if readIndex =? cache then ret (CReload readIndex, Running)
  else
    let p := wrap (readIndex + _padding) in
    let* seen := deref p in
    ret (CHold p, RetFront (Some p) seen).

(** One transition of the consumer thread.  [pop] may be called only while
    the pointer of a [front] is held. *)
Definition consumer_step (a : Action) (pc : Consumer) : option (Op (Consumer * Return)) :=
  match pc, a with
  | CIdle, call_front => Some front_begin
  | CHold _, call_front => Some front_begin
  | CReload readIndex, run_consumer => Some (
      let* w := load WriteIndex memory_order_acquire in
      write (with_writeIndexCache w) ;;;
      let* cache := read _writeIndexCache in
      if cache =? readIndex then ret (CIdle, RetFront None None)
      else
        let p := wrap (readIndex + _padding) in
        let* seen := deref p in
        ret (CHold p, RetFront (Some p) seen))
  | CHold _, call_pop => Some (
      let* readIndex := load ReadIndex memory_order_relaxed in
      ret (CDestroy readIndex, Running))
  | CDestroy readIndex, run_consumer => Some (
      destroy_at (wrap (readIndex + _padding)) ;;;
      let* nextReadIndex := next_index readIndex in
      ret (CStore nextReadIndex, Running))
  | CStore nextReadIndex, run_consumer => Some (
      store ReadIndex nextReadIndex memory_order_release ;;;
      ret (CIdle, RetPop))
  | _, _ => None
  end.

(** One transition of the system; [None] when the action is not enabled. *)
Definition step (a : Action) (c : Config) : option (Config * Return) :=
  match a with
  | call_emplace _ | call_try_emplace _ | run_producer =>
      match producer_step a (producer c) with
      | Some m =>
          let '(pc, r, q, _) := m (object c) in
          Some (mkConfig q pc (consumer c), r)
      | None => None
      end
  | call_front | call_pop | run_consumer =>
      match consumer_step a (consumer c) with
      | Some m =>
          let '(pc, r, q, _) := m (object c) in
          Some (mkConfig q (producer c) pc, r)
      | None => None
      end
  end.

(** Running a schedule: the configuration reached and what was returned on
    the way, oldest first; [None] when some action was not enabled. *)
Fixpoint exec (schedule : list Action) (c : Config) : option (Config * list Return) :=
  match schedule with
  | [] => Some (c, [])
  | a :: schedule' =>
      match step a c with
      | Some (c', r) =>
          match exec schedule' c' with
          | Some (c'', rs) => Some (c'', r :: rs)
          | None => None
          end
      | None => None
      end
  end.

(** The configuration right after construction. *)
Definition start (A : Allocator) (capacity : Z) : Config :=
  mkConfig (SPSCQueue_new A capacity) PIdle CIdle.

(** [c] is reached from a freshly constructed queue by some schedule, with
    returns [rs].  The request [SIZE_MAX] is left out: there the increment
    for the slack slot wraps [_capacity] to 0, and the storage requested is
    smaller than the ring. *)
Definition reaches (A : Allocator) (capacity : Z) (schedule : list Action)
    (c : Config) (rs : list Return) : Prop :=
  allocator_ok A /\ 0 <= capacity < SIZE_MAX /\
  exec schedule (start A capacity) = Some (c, rs).

(** ** What the callers saw *)

(** The values whose insertion has returned, oldest first. *)
Definition inserted (rs : list Return) : list T :=
  flat_map (fun r => match r with
                     | RetEmplace v | RetTryEmplace v true => [v]
                     | _ => []
                     end) rs.

(** The number of [pop] calls that have returned. *)
Definition pops (rs : list Return) : nat :=
  length (List.filter (fun r => match r with RetPop => true | _ => false end) rs).

(** Inserted and not yet removed, oldest first. *)
Definition pending (rs : list Return) : list T := drop (pops rs) (inserted rs).

(** The consumer's view: what the latest [front] showed, and what [front]
    showed right before each [pop] that has returned. *)
Definition observe (st : option T * list (option T)) (r : Return)
    : option T * list (option T) :=
  match r with
  | RetFront _ seen => (seen, snd st)
  | RetPop => (None, snd st ++ [fst st])
  | _ => st
  end.

Definition last_front (rs : list Return) : option T :=
  fst (fold_left observe rs (None, [])).

Definition observed (rs : list Return) : list (option T) :=
  snd (fold_left observe rs (None, [])).

(** * Specification vocabulary *)

(** ** Positions in the ring *)

(** The number of increments that lead from index [a] to index [b]. *)
Definition dist (cap a b : Z) : Z := if a <=? b then b - a else b - a + cap.

(** The index after [i]. *)
Definition succ (cap i : Z) : Z := if i + 1 =? cap then 0 else i + 1.

(** What slot [k] holds when the elements [xs] sit in consecutive slots of
    the ring from index [base] on, and nothing else is alive. *)
Definition ring_at (cap base : Z) (xs : list T) (k : Z) : option T :=
  if (_padding <=? k) && (k <? _padding + cap)
  then xs !! Z.to_nat (dist cap base (k - _padding))
  else None.

(** ** The invariant of the two-thread system *)

(** The bounds on the members: the allocation fits [size_t], each index is
    inside the ring, and going round from the producer's cached read index
    one meets the read index, the consumer's cached write index and the
    write index, in this order, before coming back. *)
Record well_formed (q : SPSCQueue) : Prop := {
  wf_capacity : 2 <= _capacity q /\ _capacity q + 2 * _padding <= SIZE_MAX;
  wf_writeIndex : 0 <= _writeIndex q < _capacity q;
  wf_readIndex : 0 <= _readIndex q < _capacity q;
  wf_writeIndexCache : 0 <= _writeIndexCache q < _capacity q;
  wf_readIndexCache : 0 <= _readIndexCache q < _capacity q;
  wf_order :
    dist (_capacity q) (_readIndexCache q) (_readIndex q)
    + dist (_capacity q) (_readIndex q) (_writeIndexCache q)
    + dist (_capacity q) (_writeIndexCache q) (_writeIndex q)
    <= _capacity q - 1
}.

(** Elements constructed by a running insertion that has not published them. *)
Definition unpublished (pc : Producer) : list T :=
  match pc with PPublish _ v _ => [v] | _ => [] end.

(** Elements destroyed by a running [pop] that has not published the slot. *)
Definition destroying (pc : Consumer) : nat :=
  match pc with CStore _ => 1%nat | _ => 0%nat end.

(** The index of the oldest element that is alive. *)
Definition ring_base (q : SPSCQueue) (pc : Consumer) : Z :=
  match pc with CStore n => n | _ => _readIndex q end.

Definition producer_ok (q : SPSCQueue) (pc : Producer) : Prop :=
  match pc with
  | PIdle => True
  | PEmplaceWait w n _ | PTryTest w n _ =>
      w = _writeIndex q /\ n = succ (_capacity q) w
  | PConstruct w n _ =>
      w = _writeIndex q /\ n = succ (_capacity q) w /\ n <> _readIndexCache q
  | PPublish n _ _ =>
      n = succ (_capacity q) (_writeIndex q) /\ n <> _readIndexCache q
  end.

Definition consumer_ok (q : SPSCQueue) (pc : Consumer) (shown oldest : option T) : Prop :=
  match pc with
  | CIdle => True
  | CReload r => r = _readIndex q
  | CHold p =>
      p = _readIndex q + _padding /\ _readIndex q <> _writeIndexCache q /\ shown = oldest
  | CDestroy r =>
      r = _readIndex q /\ _readIndex q <> _writeIndexCache q /\ shown = oldest
  | CStore n =>
      n = succ (_capacity q) (_readIndex q) /\ _readIndex q <> _writeIndexCache q
      /\ shown = oldest
  end.

(** The invariant, over what the callers have seen so far: [ins] the values
    inserted, [np] the number of pops, [shown] what the latest [front]
    showed, [obs] what [front] showed before each pop. *)
Definition Inv' (q : SPSCQueue) (pp : Producer) (cp : Consumer)
    (ins : list T) (np : nat) (shown : option T) (obs : list (option T)) : Prop :=
  well_formed q /\
  Z.of_nat (length ins) - Z.of_nat np = dist (_capacity q) (_readIndex q) (_writeIndex q) /\
  producer_ok q pp /\
  consumer_ok q cp shown (ins !! np) /\
  (forall k, _slots q !! k =
             ring_at (_capacity q) (ring_base q cp)
                     (drop (np + destroying cp) ins ++ unpublished pp) k) /\
  obs = Some <$> take np ins.

Definition Inv (c : Config) (rs : list Return) : Prop :=
  Inv' (object c) (producer c) (consumer c)
       (inserted rs) (pops rs) (last_front rs) (observed rs).

(** ** Reading an access log *)

(** A load of the read index, as the producer makes to refresh its cache. *)
Definition is_refresh (e : Event) : bool :=
  match e with Load ReadIndex _ _ => true | _ => false end.

Definition is_load (e : Event) : bool :=
  match e with Load _ _ _ => true | _ => false end.

(** The destructor calls in a log: slot and what it held. *)
Definition destroyed (log : list Event) : list (Z * option T) :=
  flat_map (fun e => match e with Destroy i held => [(i, held)] | _ => [] end) log.

(** ** Threads at rest *)

(** The consumer is between calls: [front] may be called. *)
Definition between_calls (pc : Consumer) : bool :=
  match pc with CIdle | CHold _ => true | _ => false end.

(** No member function is running. *)
Definition quiescent (c : Config) : bool :=
  match producer c with PIdle => between_calls (consumer c) | _ => false end.

(** Where [front] leaves the consumer. *)
Definition holding (p : option Z) : Consumer :=
  match p with Some p => CHold p | None => CIdle end.

(** ** Sequences of calls *)

(** [front(); pop();] [n] times, then one more [front()]. *)
Fixpoint drain (n : nat) : Op (option unit) :=
  match n with
  | O => let* _ := front in ret (Some tt)
  | S n' => let* _ := front in pop ;;; drain n'
  end.

(** [try_emplace] on each value in turn; the results in order. *)
Fixpoint try_emplace_all (vs : list T) : Op (list bool) :=
  match vs with
  | [] => ret []
  | v :: vs' =>
      let* ok := try_emplace v in
      let* oks := try_emplace_all vs' in
      ret (ok :: oks)
  end.

(** A queue from which nothing was removed yet. *)
Definition untouched (q : SPSCQueue) : Prop :=
  _readIndex q = 0 /\ _readIndexCache q = 0
  /\ 0 <= _writeIndex q < _capacity q /\ _capacity q <= SIZE_MAX.

(** ** Sample runs *)

(** What a schedule leads to from a fresh queue built by [A] for [capacity];
    the fresh queue itself when some action of the schedule is not enabled. *)
Definition outcome (A : Allocator) (capacity : Z) (schedule : list Action)
    : Config * list Return :=
  match exec schedule (start A capacity) with
  | Some o => o
  | None => (start A capacity, [])
  end.

(** A producer that emplaces [a], [b] and [c] and a consumer that removes
    them.  On a queue of capacity 2 the third [emplace] finds the queue full
    and waits, and the write index wraps. *)
Definition demo_schedule (a b c : T) : list Action :=
  [call_emplace a; run_producer; run_producer;
   call_front; run_consumer;
   call_emplace b; run_producer;
   call_pop; run_consumer;
   run_producer;
   call_emplace c; run_producer; run_producer;
   run_consumer;
   run_producer; run_producer; run_producer;
   call_front; run_consumer; call_pop; run_consumer; run_consumer;
   call_front; call_pop; run_consumer; run_consumer].

(** Two elements emplaced, then a [front] whose pointer is held. *)
Definition demo_schedule_held (a b : T) : list Action :=
  [call_emplace a; run_producer; run_producer;
   call_emplace b; run_producer; run_producer;
   call_front; run_consumer].

(** What the caller reads through the pointer [front] returned. *)
Definition peek (p : option Z) : Op (option T) :=
  match p with Some i => deref i | None => ret None end.

(** One caller in both roles: three insertions, a fourth that is tried and
    refused, a look at the front, a removal, the fourth insertion tried
    again, then three rounds of look and remove, and [empty()]. *)
Definition scenario (a b c d : T)
    : Op (list bool * bool * option T * bool * list (option T) * bool) :=
  let* oks := try_emplace_all [a; b; c] in
  let* refused := try_emplace d in
  let* p := front in
  let* first := peek p in
  pop ;;;
  let* ok := try_emplace d in
  let* p := front in
  let* x := peek p in
  pop ;;;
  let* p := front in
  let* y := peek p in
  pop ;;;
  let* p := front in
  let* z := peek p in
  pop ;;;
  let* e := read empty in
  ret (oks, refused, first, ok, [x; y; z], e).

(** A queue of capacity 3 after three insertions. *)
Definition demo_full (a b c : T) : SPSCQueue :=
  after (try_emplace_all [a; b; c] (SPSCQueue_new plain_allocator 3)).

(** * More of the code *)

(** The condition of the [assert] in [pop()], line 184. *)
Definition pop_assertion (q : SPSCQueue) : bool :=
  negb (_writeIndex q =? _readIndex q).

(** The consumer may call [pop], or is in it before the destructor call. *)
Definition popping (pc : Consumer) : bool :=
  match pc with CHold _ | CDestroy _ => true | _ => false end.

(** ** One caller in both roles *)

(** What a caller may ask of the queue, keeping the contract of [pop]:
    the removal is a [front] followed, when it returned a pointer, by a look
    through the pointer and a [pop]. *)
Inductive Use :=
| use_try_push (v : T)
| use_front
| use_front_pop
| use_size
| use_empty.

Inductive Answer :=
| answer_bool (b : bool)
| answer_element (x : option T)
| answer_size (n : Z).

Definition use (u : Use) : Op Answer :=
  match u with
  | use_try_push v => let* ok := try_push v in ret (answer_bool ok)
  | use_front =>
      let* p := front in
      let* x := peek p in
      ret (answer_element x)
  | use_front_pop =>
      let* p := front in
      match p with
      | Some _ =>
          let* x := peek p in
          pop ;;;
          ret (answer_element x)
      | None => ret (answer_element None)
      end
  | use_size => let* n := read size in ret (answer_size n)
  | use_empty => let* e := read empty in ret (answer_bool e)
  end.

Fixpoint uses (us : list Use) : Op (list Answer) :=
  match us with
  | [] => ret []
  | u :: us' =>
      let* a := use u in
      let* answers := uses us' in
      ret (a :: answers)
  end.

(** The same on a list of at most [C] elements, oldest first. *)
Definition fifo_use (C : Z) (u : Use) (l : list T) : Answer * list T :=
  match u with
  | use_try_push v =>
      if Z.of_nat (length l) <? C then (answer_bool true, l ++ [v])
      else (answer_bool false, l)
  | use_front => (answer_element (head l), l)
  | use_front_pop => (answer_element (head l), tail l)
  | use_size => (answer_size (Z.of_nat (length l)), l)
  | use_empty => (answer_bool (match l with [] => true | _ => false end), l)
  end.

Fixpoint fifo_uses (C : Z) (us : list Use) (l : list T) : list Answer :=
  match us with
  | [] => []
  | u :: us' =>
      let '(a, l') := fifo_use C u l in
      a :: fifo_uses C us' l'
  end.

(** ** More sample runs *)

(** Going on from [c] by a schedule; [c] itself when some action is not
    enabled. *)
Definition resume (schedule : list Action) (c : Config) : Config * list Return :=
  match exec schedule c with
  | Some o => o
  | None => (c, [])
  end.

(** Two elements emplaced and a pointer held, then a third [emplace] is
    called: on a queue of capacity 2 it stands at its loop. *)
Definition demo_schedule_waiting (a b c : T) : list Action :=
  demo_schedule_held a b ++ [call_emplace c].

(** One element emplaced; the consumer has not looked yet. *)
Definition demo_schedule_unseen (a : T) : list Action :=
  [call_emplace a; run_producer; run_producer].

(** Two elements emplaced and a pointer held, then [try_emplace] is called:
    on a queue of capacity 2 its next step is the refusal. *)
Definition demo_schedule_trying (a b c : T) : list Action :=
  demo_schedule_held a b ++ [call_try_emplace c].

(** Two elements emplaced and a pointer held, then [pop] up to its
    destructor call: the read index is not stored yet. *)
Definition demo_schedule_destroyed (a b : T) : list Action :=
  demo_schedule_held a b ++ [call_pop; run_consumer].

(** Two elements emplaced and the first removed, then a [front] whose
    pointer is held: on a queue of capacity 2 the write index stands at the
    last slot of the ring, with room for one element. *)
Definition demo_schedule_wrapping (a b : T) : list Action :=
  demo_schedule_held a b ++ [call_pop; run_consumer; run_consumer; call_front].

(** [front] called on the fresh queue: its next step returns null. *)
Definition demo_schedule_looking : list Action := [call_front].

(** ** Who touches what *)

(** The shared accesses of the producer's member functions: its own index
    is loaded relaxed and stored with release, the consumer's index is
    loaded with acquire, and elements are constructed. *)
Definition producer_access (e : Event) : bool :=
  match e with
  | Load WriteIndex memory_order_relaxed _
  | Load ReadIndex memory_order_acquire _
  | Store WriteIndex memory_order_release _
  | Construct _ _ => true
  | _ => false
  end.

(** The same for the consumer's member functions. *)
Definition consumer_access (e : Event) : bool :=
  match e with
  | Load ReadIndex memory_order_relaxed _
  | Load WriteIndex memory_order_acquire _
  | Store ReadIndex memory_order_release _
  | Destroy _ _ => true
  | _ => false
  end.

(** ** Positions in the ring, continued *)

(** The index before [i]. *)
Definition prev (cap i : Z) : Z := if i =? 0 then cap - 1 else i - 1.

(** * The program of [src/main/spscqueue.cpp]

    A global [SPSCQueue<int> q{10}], a thread running [producer()] and a
    thread running [consumer()].  A turn of a thread is one transition of
    the queue inside the member function it has called, or one statement of
    its own. *)

Section MainProgram.

(** The conversion that [q.push(i)] performs to construct the element from
    the [int] it is given; in the program [T] is [int] and this is the
    identity. *)
Variable T_of_int : Z -> T.

(** Where [producer()] stands. *)
Inductive ProducerAt :=
| at_push            (* line 12, before the call *)
| in_push            (* inside [q.push(i)] *)
| at_push_line       (* line 13 *)
| producer_returned.

(** Where [consumer()] stands; [i] is its local pointer. *)
Inductive ConsumerAt :=
| at_front              (* line 21, before the call *)
| in_front              (* inside [q.front()] *)
| at_pop (i : Z)        (* line 24, before the call *)
| in_pop (i : Z)        (* inside [q.pop()] *)
| at_pop_line (i : Z)   (* line 25 *).

(** The state of the program.  What each thread has written to [std::cout]
    is kept by thread: [push_lines] are the numbers after "Push ",
    [pop_lines] what [*i] met for each "Pop " line, [None] when no element
    is alive in the slot [i] points to. *)
Record ProgramState := mkProgramState {
  queue : Config;
  producer_i : Z;
  producer_at : ProducerAt;
  consumer_at : ConsumerAt;
  push_lines : list Z;
  pop_lines : list (option T)
}.

Inductive Thread := pthread | cthread.

(** The test [i < 10] of the [for] loop. *)
Definition loop_test (i : Z) : ProducerAt :=
  if i <? 10 then at_push else producer_returned.

(** One turn of [producer()], lines 8-15. *)
Definition producer_turn (s : ProgramState) : option ProgramState :=
  match producer_at s with
  | at_push =>
      match step (call_emplace (T_of_int (producer_i s))) (queue s) with
      | Some (c, _) =>
          Some (mkProgramState c (producer_i s) in_push (consumer_at s)
                          (push_lines s) (pop_lines s))
      | None => None
      end
  | in_push =>
      match step run_producer (queue s) with
      | Some (c, r) =>
          Some (mkProgramState c (producer_i s)
                          (match r with RetEmplace _ => at_push_line | _ => in_push end)
                          (consumer_at s) (push_lines s) (pop_lines s))
      | None => None
      end
  | at_push_line =>
      Some (mkProgramState (queue s) (producer_i s + 1) (loop_test (producer_i s + 1))
                      (consumer_at s) (push_lines s ++ [producer_i s]) (pop_lines s))
  | producer_returned => None
  end.

(** Where [consumer()] goes when [q.front()] has handed back [r]: the test
    [if (i)] of line 22. *)
Definition after_front (r : Return) : ConsumerAt :=
  match r with
  | RetFront (Some i) _ => at_pop i
  | RetFront None _ => at_front
  | _ => in_front
  end.

(** One turn of [consumer()], lines 17-28. *)
Definition consumer_turn (s : ProgramState) : option ProgramState :=
  match consumer_at s with
  | at_front =>
      match step call_front (queue s) with
      | Some (c, r) =>
          Some (mkProgramState c (producer_i s) (producer_at s) (after_front r)
                          (push_lines s) (pop_lines s))
      | None => None
      end
  | in_front =>
      match step run_consumer (queue s) with
      | Some (c, r) =>
          Some (mkProgramState c (producer_i s) (producer_at s) (after_front r)
                          (push_lines s) (pop_lines s))
      | None => None
      end
  | at_pop i =>
      match step call_pop (queue s) with
      | Some (c, _) =>
          Some (mkProgramState c (producer_i s) (producer_at s) (in_pop i)
                          (push_lines s) (pop_lines s))
      | None => None
      end
  | in_pop i =>
      match step run_consumer (queue s) with
      | Some (c, r) =>
          Some (mkProgramState c (producer_i s) (producer_at s)
                          (match r with RetPop => at_pop_line i | _ => in_pop i end)
                          (push_lines s) (pop_lines s))
      | None => None
      end
  | at_pop_line i =>
      Some (mkProgramState (queue s) (producer_i s) (producer_at s) at_front
                      (push_lines s)
                      (pop_lines s ++ [value (deref i (object (queue s)))]))
  end.

Definition turn (t : Thread) (s : ProgramState) : option ProgramState :=
  match t with
  | pthread => producer_turn s
  | cthread => consumer_turn s
  end.

(** The threads take turns in the order [turns]; [None] when a thread that
    has returned is given a turn. *)
Fixpoint run_program (turns : list Thread) (s : ProgramState) : option ProgramState :=
  match turns with
  | [] => Some s
  | t :: turns' =>
      match turn t s with
      | Some s' => run_program turns' s'
      | None => None
      end
  end.

(** [main()] when the two threads start: [q{10}] constructed by an
    allocator [A], [i = 0] in [producer()]. *)
Definition program_start (A : Allocator) : ProgramState :=
  mkProgramState (start A 10) 0 (loop_test 0) at_front [] [].

(** ** Vocabulary for the program *)

Definition is_pthread (t : Thread) : bool :=
  match t with pthread => true | cthread => false end.

(** The number of turns [producer()] had. *)
Definition producer_turns (turns : list Thread) : Z :=
  Z.of_nat (length (List.filter is_pthread turns)).

(** The calls of [q.push] that have returned. *)
Definition pushes_done (s : ProgramState) : Z :=
  match producer_at s with
  | at_push_line => producer_i s + 1
  | _ => producer_i s
  end.

(** How far [producer()] is into the current round of its loop, in turns. *)
Definition producer_progress (s : ProgramState) : Z :=
  match producer_at s with
  | at_push | producer_returned => 0
  | in_push => match producer (queue s) with PPublish _ _ _ => 2 | _ => 1 end
  | at_push_line => 3
  end.

(** [producer()] and the queue agree on where the producer thread is. *)
Definition producer_link (s : ProgramState) : Prop :=
  match producer_at s with
  | at_push | at_push_line => producer (queue s) = PIdle /\ producer_i s < 10
  | in_push =>
      producer_i s < 10
      /\ (producer (queue s)
          = PEmplaceWait (producer_i s) (producer_i s + 1) (T_of_int (producer_i s))
          \/ producer (queue s)
             = PPublish (producer_i s + 1) (T_of_int (producer_i s)) false)
  | producer_returned => producer (queue s) = PIdle /\ producer_i s = 10
  end.

(** The same for [consumer()], with the number [np] of [pop] calls that
    have returned. *)
Definition consumer_link (s : ProgramState) (np : nat) : Prop :=
  match consumer_at s with
  | at_front => consumer (queue s) = CIdle
  | in_front => exists r, consumer (queue s) = CReload r
  | at_pop i => consumer (queue s) = CHold i
  | in_pop i =>
      i = Z.of_nat np + _padding
      /\ exists r, consumer (queue s) = CDestroy r \/ consumer (queue s) = CStore r
  | at_pop_line i =>
      consumer (queue s) = CIdle /\ (1 <= np)%nat /\ i = Z.of_nat np - 1 + _padding
  end.

(** The "Pop " lines written when [np] calls of [pop] have returned. *)
Definition pop_lines_due (s : ProgramState) (np : nat) : nat :=
  match consumer_at s with
  | at_pop_line _ => (np - 1)%nat
  | _ => np
  end.

(** The invariant of the program after the turns [turns], over a run
    [schedule] of the queue with returns [rs]. *)
Definition program_inv (A : Allocator) (turns : list Thread) (s : ProgramState)
    (schedule : list Action) (rs : list Return) : Prop :=
  reaches A 10 schedule (queue s) rs
  /\ inserted rs = T_of_int <$> seqZ 0 (pushes_done s)
  /\ 0 <= producer_i s <= 10
  /\ producer_link s
  /\ consumer_link s (pops rs)
  /\ _readIndexCache (object (queue s)) = 0
  /\ push_lines s = seqZ 0 (producer_i s)
  /\ producer_turns turns = 4 * producer_i s + producer_progress s
  /\ pop_lines s = replicate (pop_lines_due s (pops rs)) None.

(** The state after the turns [turns]; the start when a returned thread is
    given a turn. *)
Definition program_after (A : Allocator) (turns : list Thread) : ProgramState :=
  match run_program turns (program_start A) with
  | Some s => s
  | None => program_start A
  end.

End MainProgram.

(** * Proofs *)

(** ** Facts about machine integers *)

Lemma wrap_range z : 0 <= wrap z <= SIZE_MAX.
Proof.
  unfold wrap, SIZE_MAX.
  pose proof (Z.mod_pos_bound z modulus ltac:(reflexivity)). unfold modulus in *. lia.
Qed.

Lemma wrap_small z : 0 <= z <= SIZE_MAX -> wrap z = z.
Proof. unfold wrap, SIZE_MAX, modulus. intros H. apply Z.mod_small. lia. Qed.

Lemma wrap_above z : SIZE_MAX < z <= SIZE_MAX + modulus -> wrap z = z - modulus.
Proof.
  unfold wrap, SIZE_MAX, modulus. intros H.
  symmetry. apply (Z.mod_unique_pos _ _ 1); lia.
Qed.

Lemma wrap_below z : - modulus <= z < 0 -> wrap z = z + modulus.
Proof.
  unfold wrap, modulus. intros H.
  symmetry. apply (Z.mod_unique_pos _ _ (-1)); lia.
Qed.

(** ** Ring arithmetic *)

Lemma padding_range : 1 <= _padding <= 64.
Proof.
  unfold _padding, _cacheLineSize.
  assert (0 <= (64 - 1) / Z.pos sizeof_T) by (apply Z.div_pos; lia).
  assert ((64 - 1) / Z.pos sizeof_T <= 63).
  { apply Z.div_le_upper_bound; lia. }
  lia.
Qed.

Ltac ring_arith :=
  unfold dist, succ in *;
  repeat match goal with
         | |- context [?a <=? ?b] => destruct (Z.leb_spec a b)
         | |- context [?a =? ?b] => destruct (Z.eqb_spec a b)
         | H : context [?a <=? ?b] |- _ => destruct (Z.leb_spec a b)
         | H : context [?a =? ?b] |- _ => destruct (Z.eqb_spec a b)
         end;
  try lia.

Lemma dist_mod cap a b :
  0 <= a < cap -> 0 <= b < cap -> dist cap a b = (b - a) mod cap.
Proof.
  intros Ha Hb. unfold dist. destruct (Z.leb_spec a b).
  - symmetry. apply Z.mod_small. lia.
  - apply (Z.mod_unique_pos _ _ (-1)); lia.
Qed.

Lemma succ_mod cap i : 0 <= i < cap -> succ cap i = (i + 1) mod cap.
Proof.
  intros Hi. unfold succ. destruct (Z.eqb_spec (i + 1) cap) as [->|].
  - symmetry. apply Z_mod_same_full.
  - symmetry. apply Z.mod_small. lia.
Qed.

Lemma ring_at_nil cap base k : ring_at cap base [] k = None.
Proof. unfold ring_at. destruct (_ && _); reflexivity. Qed.

(** Constructing one more element right after the last one. *)
Lemma ring_at_snoc cap base w (xs : list T) v (slots : gmap Z T) :
  0 <= base < cap -> 0 <= w < cap ->
  Z.of_nat (length xs) = dist cap base w ->
  (forall k, slots !! k = ring_at cap base xs k) ->
  forall k, <[w + _padding := v]> slots !! k = ring_at cap base (xs ++ [v]) k.
Proof.
  intros Hb Hw Hlen Hs k. pose proof padding_range as Hp.
  rewrite lookup_insert. case_decide as Hk.
  - subst k. unfold ring_at.
    replace (w + _padding - _padding) with w by lia.
    destruct (Z.leb_spec _padding (w + _padding)); [|lia].
    destruct (Z.ltb_spec (w + _padding) (_padding + cap)); [|lia]. simpl.
    rewrite <- Hlen, Nat2Z.id.
    rewrite lookup_app_r by lia. rewrite Nat.sub_diag. reflexivity.
  - rewrite Hs. unfold ring_at.
    destruct (Z.leb_spec _padding k); [|reflexivity].
    destruct (Z.ltb_spec k (_padding + cap)); [|reflexivity]. simpl.
    assert (dist cap base (k - _padding) <> dist cap base w) by ring_arith.
    assert (0 <= dist cap base (k - _padding)) by ring_arith.
    destruct (Z.lt_ge_cases (dist cap base (k - _padding)) (Z.of_nat (length xs))).
    + rewrite lookup_app_l by lia. reflexivity.
    + rewrite !lookup_ge_None_2; [reflexivity | rewrite length_app; simpl; lia | lia].
Qed.

(** Destroying the first element. *)
Lemma ring_at_tail cap r x (xs : list T) (slots : gmap Z T) :
  0 <= r < cap ->
  Z.of_nat (length xs) <= cap - 2 ->
  (forall k, slots !! k = ring_at cap r (x :: xs) k) ->
  forall k, delete (r + _padding) slots !! k = ring_at cap (succ cap r) xs k.
Proof.
  intros Hr Hlen Hs k. pose proof padding_range as Hp.
  rewrite lookup_delete. case_decide as Hk.
  - subst k. unfold ring_at.
    replace (r + _padding - _padding) with r by lia.
    destruct (Z.leb_spec _padding (r + _padding)); [|lia].
    destruct (Z.ltb_spec (r + _padding) (_padding + cap)); [|lia]. simpl.
    symmetry. apply lookup_ge_None_2.
    assert (dist cap (succ cap r) r = cap - 1) by ring_arith. lia.
  - rewrite Hs. unfold ring_at.
    destruct (Z.leb_spec _padding k); [|reflexivity].
    destruct (Z.ltb_spec k (_padding + cap)); [|reflexivity]. simpl.
    assert (dist cap r (k - _padding) = dist cap (succ cap r) (k - _padding) + 1
            /\ 0 <= dist cap (succ cap r) (k - _padding)) as [-> ?] by ring_arith.
    rewrite Z2Nat.inj_add by lia. rewrite Nat.add_comm. reflexivity.
Qed.

(** The first element is at the base. *)
Lemma ring_at_head cap base (xs : list T) :
  0 <= base < cap -> ring_at cap base xs (base + _padding) = head xs.
Proof.
  intros Hb. pose proof padding_range as Hp. unfold ring_at.
  replace (base + _padding - _padding) with base by lia.
  destruct (Z.leb_spec _padding (base + _padding)); [|lia].
  destruct (Z.ltb_spec (base + _padding) (_padding + cap)); [|lia]. simpl.
  replace (dist cap base base) with 0 by ring_arith.
  destruct xs; reflexivity.
Qed.

(** *** The history after one more return *)

Lemma inserted_snoc rs r :
  inserted (rs ++ [r]) =
  inserted rs ++ match r with
                 | RetEmplace v | RetTryEmplace v true => [v]
                 | _ => []
                 end.
Proof. unfold inserted. rewrite flat_map_app. simpl. rewrite app_nil_r. reflexivity. Qed.

Lemma pops_snoc rs r :
  pops (rs ++ [r]) = (pops rs + match r with RetPop => 1 | _ => 0 end)%nat.
Proof.
  unfold pops. rewrite List.filter_app, length_app. destruct r; reflexivity.
Qed.

Lemma last_front_snoc rs r :
  last_front (rs ++ [r]) = match r with
                           | RetFront _ seen => seen
                           | RetPop => None
                           | _ => last_front rs
                           end.
Proof. unfold last_front. rewrite fold_left_app. destruct r; reflexivity. Qed.

Lemma observed_snoc rs r :
  observed (rs ++ [r]) = match r with
                         | RetPop => observed rs ++ [last_front rs]
                         | _ => observed rs
                         end.
Proof. unfold observed, last_front. rewrite fold_left_app. destruct r; reflexivity. Qed.

Ltac run_op H :=
  cbv [bind load store read write ret placement_new destroy_at next_index deref
       front_begin atomic_value atomic_write] in H;
  simpl in H.

Ltac wf_facts H :=
  let Hcap := fresh "Hcap" in
  let Hfit := fresh "Hfit" in
  destruct H as [[Hcap Hfit] ? ? ? ? ?];
  pose proof padding_range.

Lemma head_drop_app (l u : list T) n :
  (n < length l)%nat -> head (drop n l ++ u) = l !! n.
Proof.
  intros Hn. destruct (lookup_lt_is_Some_2 l n Hn) as [x Hx].
  rewrite (drop_S _ _ _ Hx). simpl. congruence.
Qed.

(** The placement new of an insertion that found room. *)
Lemma construct_inv q pc cp ins np shown obs v try :
  unpublished pc = [] ->
  Inv' q pc cp ins np shown obs ->
  succ (_capacity q) (_writeIndex q) <> _readIndexCache q ->
  Inv' (with_slots (<[wrap (_writeIndex q + _padding) := v]> (_slots q)) q)
       (PPublish (succ (_capacity q) (_writeIndex q)) v try) cp
       ins np shown obs.
Proof.
  intros Hu (Hwf & Hlen & Hp & Hc & Hs & Hobs) Hroom. simpl in *.
  rewrite Hu, app_nil_r in Hs.
  refine (conj _ (conj Hlen (conj _ (conj _ (conj _ Hobs))))); simpl.
  - destruct Hwf. constructor; assumption.
  - split; [reflexivity | assumption].
  - destruct cp; exact Hc.
  - wf_facts Hwf. rewrite wrap_small by lia.
    assert (ring_base (with_slots (<[_writeIndex q + _padding:=v]> (_slots q)) q) cp
            = ring_base q cp) as -> by (destruct cp; reflexivity).
    apply ring_at_snoc; try assumption.
    + destruct cp; simpl in *; ring_arith.
    + rewrite length_drop. destruct cp; simpl in *; ring_arith.
Qed.

Lemma producer_step_inv a pc m q cp ins np shown obs pc' r q' log :
  Inv' q pc cp ins np shown obs ->
  producer_step a pc = Some m ->
  m q = (pc', r, q', log) ->
  Inv' q' pc' cp
       (ins ++ match r with RetEmplace v | RetTryEmplace v true => [v] | _ => [] end)
       np shown obs.
Proof.
  intros HI Hstep Hm.
  destruct pc, a; simpl in Hstep; try discriminate; injection Hstep as <-; run_op Hm.
  - (* emplace is called *)
    injection Hm as <- <- <- <-. rewrite app_nil_r.
    destruct HI as (Hwf & Hlen & Hp & Hc & Hs & Hobs).
    refine (conj Hwf (conj Hlen (conj _ (conj Hc (conj Hs Hobs))))); simpl.
    wf_facts Hwf. rewrite wrap_small by lia. split; reflexivity.
  - (* try_emplace is called *)
    injection Hm as <- <- <- <-. rewrite app_nil_r.
    destruct HI as (Hwf & Hlen & Hp & Hc & Hs & Hobs).
    refine (conj Hwf (conj Hlen (conj _ (conj Hc (conj Hs Hobs))))); simpl.
    wf_facts Hwf. rewrite wrap_small by lia. split; reflexivity.
  - (* emplace, one test of the loop *)
    destruct (Z.eqb_spec nextWriteIndex (_readIndexCache q)) as [Hfull|Hroom].
    + injection Hm as <- <- <- <-. rewrite app_nil_r.
      destruct HI as (Hwf & Hlen & Hp & Hc & Hs & Hobs). simpl in *.
      refine (conj _ (conj Hlen (conj Hp (conj _ (conj _ Hobs))))); simpl.
      * wf_facts Hwf. constructor; simpl; ring_arith.
      * destruct cp; exact Hc.
      * intros k. rewrite Hs. destruct cp; reflexivity.
    + injection Hm as <- <- <- <-. rewrite app_nil_r.
      pose proof HI as (_ & _ & (-> & ->) & _).
      apply construct_inv with (pc := PEmplaceWait (_writeIndex q)
        (succ (_capacity q) (_writeIndex q)) v); [reflexivity | exact HI | exact Hroom].
  - (* try_emplace, outer test *)
    destruct (Z.eqb_spec nextWriteIndex (_readIndexCache q)) as [Hfull|Hroom].
    + destruct HI as (Hwf & Hlen & Hp & Hc & Hs & Hobs). simpl in *.
      destruct (Z.eqb_spec nextWriteIndex (_readIndex q)) as [Hfull'|Hroom'];
        injection Hm as <- <- <- <-; rewrite app_nil_r;
        refine (conj _ (conj Hlen (conj _ (conj _ (conj _ Hobs))))); simpl;
        try (wf_facts Hwf; constructor; simpl; ring_arith);
        try (destruct cp; exact Hc);
        try (intros k; rewrite Hs; destruct cp; reflexivity).
    + injection Hm as <- <- <- <-. rewrite app_nil_r.
      pose proof HI as (_ & _ & (-> & ->) & _).
      apply construct_inv with (pc := PTryTest (_writeIndex q)
        (succ (_capacity q) (_writeIndex q)) v); [reflexivity | exact HI | exact Hroom].
  - (* try_emplace, placement new after the refresh *)
    injection Hm as <- <- <- <-. rewrite app_nil_r.
    pose proof HI as (_ & _ & (-> & -> & Hroom) & _).
    apply construct_inv with (pc := PConstruct (_writeIndex q)
      (succ (_capacity q) (_writeIndex q)) v); [reflexivity | exact HI | exact Hroom].
  - (* the release store *)
    injection Hm as <- <- <- <-.
    assert ((ins ++ match (if try then RetTryEmplace v true else RetEmplace v) with
                    | RetEmplace v0 | RetTryEmplace v0 true => [v0]
                    | _ => []
                    end) = ins ++ [v]) as -> by (destruct try; reflexivity).
    destruct HI as (Hwf & Hlen & (-> & Hroom) & Hc & Hs & Hobs). simpl in *.
    wf_facts Hwf.
    assert (Hnp : (np + destroying cp <= length ins)%nat).
    { destruct cp; simpl in *; ring_arith. }
    refine (conj _ (conj _ (conj I (conj _ (conj _ _))))); simpl.
    + constructor; simpl; ring_arith.
    + rewrite length_app. simpl. ring_arith.
    + destruct cp; simpl in *; try exact Hc;
        (rewrite lookup_app_l; [exact Hc | ring_arith]).
    + intros k. rewrite Hs, app_nil_r, drop_app_le by exact Hnp.
      destruct cp; reflexivity.
    + rewrite take_app_le by lia. exact Hobs.
Qed.

(** The consumer refreshes its cache of the write index. *)
Lemma reload_inv q pp r ins np shown obs :
  Inv' q pp (CReload r) ins np shown obs ->
  Inv' (with_writeIndexCache (_writeIndex q) q) pp (CReload r) ins np shown obs.
Proof.
  intros (Hwf & Hlen & Hp & Hc & Hs & Hobs).
  refine (conj _ (conj Hlen (conj _ (conj Hc (conj Hs Hobs))))).
  - wf_facts Hwf. constructor; simpl; ring_arith.
  - destruct pp; exact Hp.
Qed.

(** A [front] that returns a pointer: the cached or reloaded write index
    differs from the read index. *)
Lemma front_hit_inv q pp cp ins np shown obs :
  match cp with CIdle | CHold _ | CReload _ => True | _ => False end ->
  Inv' q pp cp ins np shown obs ->
  _readIndex q <> _writeIndexCache q ->
  Inv' q pp (CHold (wrap (_readIndex q + _padding))) ins np
       (_slots q !! wrap (_readIndex q + _padding)) obs.
Proof.
  intros Hcp (Hwf & Hlen & Hp & Hc & Hs & Hobs) Hne.
  pose proof Hwf as Hwf'. wf_facts Hwf'.
  rewrite wrap_small by lia.
  assert (Hb : ring_base q cp = _readIndex q /\ destroying cp = 0%nat)
    by (destruct cp; try contradiction; split; reflexivity).
  destruct Hb as [Hb Hd]. rewrite Hb, Hd in Hs.
  refine (conj Hwf (conj Hlen (conj Hp (conj _ (conj _ Hobs))))); simpl.
  - repeat split; try assumption.
    rewrite Hs, ring_at_head by assumption.
    rewrite Nat.add_0_r. apply head_drop_app. ring_arith.
  - exact Hs.
Qed.

Lemma consumer_step_inv a pc m q pp ins np shown obs pc' r q' log :
  Inv' q pp pc ins np shown obs ->
  consumer_step a pc = Some m ->
  m q = (pc', r, q', log) ->
  Inv' q' pp pc' ins
       (np + match r with RetPop => 1 | _ => 0 end)
       (match r with RetFront _ seen => seen | RetPop => None | _ => shown end)
       (match r with RetPop => obs ++ [shown] | _ => obs end).
Proof.
  intros HI Hstep Hm.
  destruct pc, a; simpl in Hstep; try discriminate; injection Hstep as <-; run_op Hm.
  - (* front is called, no pointer held *)
    destruct (Z.eqb_spec (_readIndex q) (_writeIndexCache q)) as [Heq|Hne];
      injection Hm as <- <- <- <-; rewrite Nat.add_0_r.
    + destruct HI as (Hwf & Hlen & Hp & Hc & Hs & Hobs).
      refine (conj Hwf (conj Hlen (conj Hp (conj _ (conj Hs Hobs))))); reflexivity.
    + apply (front_hit_inv q pp CIdle ins np shown obs I HI Hne).
  - (* front, the acquire load *)
    apply reload_inv in HI.
    destruct (Z.eqb_spec (_writeIndex q) readIndex) as [Heq|Hne];
      injection Hm as <- <- <- <-; rewrite Nat.add_0_r.
    + destruct HI as (Hwf & Hlen & Hp & Hc & Hs & Hobs).
      refine (conj Hwf (conj Hlen (conj Hp (conj I (conj Hs Hobs))))).
    + pose proof HI as (_ & _ & _ & -> & _).
      apply (front_hit_inv _ pp (CReload _) ins np shown obs I HI).
      simpl in *. congruence.
  - (* front is called again while a pointer is held *)
    destruct (Z.eqb_spec (_readIndex q) (_writeIndexCache q)) as [Heq|Hne];
      injection Hm as <- <- <- <-; rewrite Nat.add_0_r.
    + destruct HI as (_ & _ & _ & (_ & Hne & _) & _). contradiction.
    + apply (front_hit_inv q pp (CHold p) ins np shown obs I HI Hne).
  - (* pop is called *)
    injection Hm as <- <- <- <-. rewrite Nat.add_0_r.
    destruct HI as (Hwf & Hlen & Hp & (_ & Hne & Hshown) & Hs & Hobs).
    refine (conj Hwf (conj Hlen (conj Hp (conj _ (conj Hs Hobs))))).
    repeat split; assumption.
  - (* pop, the destructor call *)
    injection Hm as <- <- <- <-. rewrite Nat.add_0_r.
    destruct HI as (Hwf & Hlen & Hp & (-> & Hne & Hshown) & Hs & Hobs).
    pose proof Hwf as Hwf'. wf_facts Hwf'. simpl in *.
    rewrite !wrap_small by lia.
    refine (conj _ (conj Hlen (conj _ (conj _ (conj _ Hobs))))); simpl.
    + destruct Hwf. constructor; simpl; assumption.
    + destruct pp; exact Hp.
    + repeat split; assumption.
    + assert (Hlt : (np < length ins)%nat) by ring_arith.
      destruct (lookup_lt_is_Some_2 ins np Hlt) as [x Hx].
      rewrite Nat.add_0_r, (drop_S _ _ _ Hx) in Hs. simpl in Hs.
      change (if _readIndex q + 1 =? _capacity q then 0 else _readIndex q + 1)
        with (succ (_capacity q) (_readIndex q)).
      rewrite Nat.add_1_r.
      apply ring_at_tail with (x := x); try assumption.
      rewrite length_app, length_drop.
      destruct pp; simpl in *; ring_arith.
  - (* pop, the release store *)
    injection Hm as <- <- <- <-.
    destruct HI as (Hwf & Hlen & Hp & (-> & Hne & Hshown) & Hs & Hobs).
    pose proof Hwf as Hwf'. wf_facts Hwf'. simpl in *.
    assert (Hlt : (np < length ins)%nat) by ring_arith.
    destruct (lookup_lt_is_Some_2 ins np Hlt) as [x Hx].
    refine (conj _ (conj _ (conj _ (conj I (conj _ _))))); simpl.
    + constructor; simpl; ring_arith.
    + ring_arith.
    + destruct pp; exact Hp.
    + intros k. rewrite Hs, Nat.add_0_r. reflexivity.
    + rewrite Nat.add_1_r, (take_S_r _ _ _ Hx), fmap_app, Hobs, Hshown, Hx.
      reflexivity.
Qed.

(** Which returns each thread can produce. *)
Lemma producer_step_return a pc m q pc' r q' log :
  producer_step a pc = Some m ->
  m q = (pc', r, q', log) ->
  match r with RetFront _ _ | RetPop => False | _ => True end.
Proof.
  intros Hstep Hm.
  destruct pc, a; simpl in Hstep; try discriminate; injection Hstep as <-; run_op Hm;
    repeat match type of Hm with
           | context [?a =? ?b] => destruct (a =? b)
           end;
    injection Hm as <- <- <- <-; try exact I.
  destruct try; exact I.
Qed.

Lemma consumer_step_return a pc m q pc' r q' log :
  consumer_step a pc = Some m ->
  m q = (pc', r, q', log) ->
  match r with RetEmplace _ | RetTryEmplace _ _ => False | _ => True end.
Proof.
  intros Hstep Hm.
  destruct pc, a; simpl in Hstep; try discriminate; injection Hstep as <-; run_op Hm;
    repeat match type of Hm with
           | context [?a =? ?b] => destruct (a =? b)
           end;
    injection Hm as <- <- <- <-; exact I.
Qed.

(** A transition makes one access to the memory the threads share. *)
Lemma producer_step_one_access a pc m q pc' r q' log :
  producer_step a pc = Some m ->
  m q = (pc', r, q', log) ->
  length log = 1%nat.
Proof.
  intros Hstep Hm.
  destruct pc, a; simpl in Hstep; try discriminate; injection Hstep as <-; run_op Hm;
    repeat match type of Hm with
           | context [?a =? ?b] => destruct (a =? b)
           end;
    injection Hm as <- <- <- <-; reflexivity.
Qed.

Lemma consumer_step_one_access a pc m q pc' r q' log :
  consumer_step a pc = Some m ->
  m q = (pc', r, q', log) ->
  length log = 1%nat.
Proof.
  intros Hstep Hm.
  destruct pc, a; simpl in Hstep; try discriminate; injection Hstep as <-; run_op Hm;
    repeat match type of Hm with
           | context [?a =? ?b] => destruct (a =? b)
           end;
    injection Hm as <- <- <- <-; reflexivity.
Qed.

(** Every transition keeps the invariant. *)
Lemma step_inv a c c' r rs :
  Inv c rs -> step a c = Some (c', r) -> Inv c' (rs ++ [r]).
Proof.
  unfold Inv. intros HI Hstep.
  rewrite inserted_snoc, pops_snoc, last_front_snoc, observed_snoc.
  destruct c as [q pp cp]. simpl in HI.
  destruct a; unfold step in Hstep; simpl in Hstep.
  1-3: destruct (producer_step _ pp) as [m|] eqn:Hm; [|discriminate];
       destruct (m q) as [[[pc' r'] q'] log] eqn:Hq;
       injection Hstep as <- <-;
       pose proof (producer_step_inv _ _ _ _ _ _ _ _ _ _ _ _ _ HI Hm Hq) as HI'.
  4-6: destruct (consumer_step _ cp) as [m|] eqn:Hm; [|discriminate];
       destruct (m q) as [[[pc' r'] q'] log] eqn:Hq;
       injection Hstep as <- <-;
       pose proof (consumer_step_inv _ _ _ _ _ _ _ _ _ _ _ _ _ HI Hm Hq) as HI'.
  1-3: pose proof (producer_step_return _ _ _ _ _ _ _ _ Hm Hq) as Hr;
       destruct r' as [| | |? ?|]; try contradiction;
       simpl in *; rewrite ?Nat.add_0_r; exact HI'.
  all: pose proof (consumer_step_return _ _ _ _ _ _ _ _ Hm Hq) as Hr;
       destruct r' as [|?|? ?| |]; try contradiction;
       simpl in *; rewrite ?app_nil_r; exact HI'.
Qed.

Lemma exec_snoc schedule a c :
  exec (schedule ++ [a]) c =
  match exec schedule c with
  | Some (c', rs) =>
      match step a c' with
      | Some (c'', r) => Some (c'', rs ++ [r])
      | None => None
      end
  | None => None
  end.
Proof.
  revert c. induction schedule as [|b schedule IH]; intros c; simpl.
  - destruct (step a c) as [[c' r]|]; reflexivity.
  - destruct (step b c) as [[c1 r1]|]; [|reflexivity].
    rewrite IH. destruct (exec schedule c1) as [[c2 rs]|]; [|reflexivity].
    destruct (step a c2) as [[c3 r]|]; reflexivity.
Qed.

Lemma exec_app s1 s2 c :
  exec (s1 ++ s2) c =
  match exec s1 c with
  | Some (c', rs1) =>
      match exec s2 c' with
      | Some (c'', rs2) => Some (c'', rs1 ++ rs2)
      | None => None
      end
  | None => None
  end.
Proof.
  revert c. induction s1 as [|b s1 IH]; intros c; simpl.
  - destruct (exec s2 c) as [[c' rs]|]; reflexivity.
  - destruct (step b c) as [[c1 r1]|]; [|reflexivity].
    rewrite IH. destruct (exec s1 c1) as [[c2 rs]|]; [|reflexivity].
    destruct (exec s2 c2) as [[c3 rs2]|]; reflexivity.
Qed.

(** *** The constructor establishes the invariant *)

Lemma SPSCQueue_new_capacity A capacity :
  allocator_ok A -> 0 <= capacity < SIZE_MAX ->
  2 <= _capacity (SPSCQueue_new A capacity)
  /\ _capacity (SPSCQueue_new A capacity) + 2 * _padding <= SIZE_MAX.
Proof.
  intros HA Hc. pose proof padding_range as Hp.
  unfold SPSCQueue_new. simpl.
  assert (HS : SIZE_MAX = 18446744073709551615) by reflexivity.
  rewrite (wrap_small (2 * _padding)) by lia.
  rewrite (wrap_small (SIZE_MAX - 2 * _padding)) by lia.
  set (c1 := if capacity <? 1 then 1 else capacity).
  assert (1 <= c1 < SIZE_MAX) by (subst c1; destruct (Z.ltb_spec capacity 1); lia).
  rewrite (wrap_small (c1 + 1)) by lia.
  set (c2 := if c1 + 1 >? SIZE_MAX - 2 * _padding then SIZE_MAX - 2 * _padding else c1 + 1).
  assert (2 <= c2 <= SIZE_MAX - 2 * _padding).
  { subst c2. rewrite Z.gtb_ltb. destruct (Z.ltb_spec (SIZE_MAX - 2 * _padding) (c1 + 1)); lia. }
  destruct (has_allocate_at_least A) eqn:Hal; [|lia].
  rewrite (wrap_small (c2 + 2 * _padding)) by lia.
  pose proof (HA Hal (c2 + 2 * _padding) ltac:(lia)).
  rewrite wrap_small by lia. lia.
Qed.

Lemma start_inv A capacity :
  allocator_ok A -> 0 <= capacity < SIZE_MAX -> Inv (start A capacity) [].
Proof.
  intros HA Hc. destruct (SPSCQueue_new_capacity A capacity HA Hc) as [H2 Hfit].
  unfold Inv, Inv', start.
  set (q := SPSCQueue_new A capacity) in *.
  assert (Hq : _writeIndex q = 0 /\ _readIndex q = 0 /\ _writeIndexCache q = 0
               /\ _readIndexCache q = 0 /\ _slots q = ∅) by (repeat split; reflexivity).
  clearbody q. destruct Hq as (HW & HR & Hwc & Hrc & Hsl). simpl.
  refine (conj _ (conj _ (conj I (conj I (conj _ eq_refl))))).
  - constructor; rewrite ?HW, ?HR, ?Hwc, ?Hrc; ring_arith.
  - rewrite HW, HR. change (pops []) with 0%nat. ring_arith.
  - intros k. rewrite Hsl, ring_at_nil. apply lookup_empty.
Qed.

(** The invariant holds in every configuration that can be reached. *)
Lemma reaches_inv A capacity schedule c rs :
  reaches A capacity schedule c rs -> Inv c rs.
Proof.
  intros (HA & Hc & Hexec). revert c rs Hexec.
  induction schedule as [|a schedule IH] using rev_ind; intros c rs Hexec.
  - injection Hexec as <- <-. apply start_inv; assumption.
  - rewrite exec_snoc in Hexec.
    destruct (exec schedule (start A capacity)) as [[c1 rs1]|]; [|discriminate].
    destruct (step a c1) as [[c2 r]|] eqn:Hstep; [|discriminate].
    injection Hexec as <- <-.
    eapply step_inv; [apply IH; reflexivity | exact Hstep].
Qed.

(** ** Storage *)

(** ** Order of delivery *)

(** X7. The pointer of [front] stays good.  In every reachable
    configuration in which the pointer of a [front] is held, whatever the
    producer has done since, the slot pointed to holds the element that
    [front] showed, which is the oldest element pending. *)
Lemma held_pointer_stable A capacity schedule c rs p :
  reaches A capacity schedule c rs ->
  consumer c = CHold p ->
  _slots (object c) !! p = last_front rs /\ last_front rs = head (pending rs)
  /\ is_Some (head (pending rs)).
Proof.
  intros Hreach Hcp. apply reaches_inv in Hreach.
  destruct Hreach as (Hwf & Hlen & _ & Hc & Hs & _).
  rewrite Hcp in Hc, Hs. simpl in Hc, Hs. destruct Hc as (-> & Hne & Hshown).
  pose proof Hwf as Hwf'. wf_facts Hwf'.
  assert (Hlt : (pops rs < length (inserted rs))%nat) by ring_arith.
  assert (Hhead : head (pending rs) = inserted rs !! pops rs).
  { unfold pending. rewrite <- (app_nil_r (drop _ _)). apply head_drop_app. exact Hlt. }
  rewrite Hs, ring_at_head, Nat.add_0_r by assumption.
  rewrite head_drop_app by exact Hlt.
  rewrite Hhead, Hshown. repeat split.
  apply lookup_lt_is_Some_2. exact Hlt.
Qed.

(** C1. FIFO order.  In every configuration that an interleaving of producer
    and consumer transitions can reach, the values that [front] showed before
    each [pop] are the values whose insertion returned first, in the order of
    insertion; once as many pops as insertions have returned, the two
    sequences are equal. *)
Theorem fifo_order A capacity schedule c rs :
  reaches A capacity schedule c rs ->
  (pops rs <= length (inserted rs))%nat
  /\ observed rs = Some <$> take (pops rs) (inserted rs)
  /\ (pops rs = length (inserted rs) -> observed rs = Some <$> inserted rs).
Proof.
  intros Hreach. apply reaches_inv in Hreach.
  destruct Hreach as (Hwf & Hlen & _ & _ & _ & Hobs).
  wf_facts Hwf.
  assert (Hle : (pops rs <= length (inserted rs))%nat) by ring_arith.
  repeat split; [exact Hle | exact Hobs |].
  intros Heq. rewrite Hobs, Heq, firstn_all. reflexivity.
Qed.

(** ** Cursors *)

(** No transition writes [_capacity]. *)
Lemma step_capacity a c c' r :
  step a c = Some (c', r) -> _capacity (object c') = _capacity (object c).
Proof.
  intros Hstep. destruct c as [q pp cp]. unfold step in Hstep.
  destruct a, pp, cp; simpl in Hstep; try discriminate;
    run_op Hstep;
    repeat match type of Hstep with
           | context [?a =? ?b] => destruct (a =? b)
           end;
    injection Hstep as <- <-; reflexivity.
Qed.

Lemma exec_capacity schedule c c' rs :
  exec schedule c = Some (c', rs) -> _capacity (object c') = _capacity (object c).
Proof.
  revert c c' rs. induction schedule as [|a schedule IH]; intros c c' rs Hexec; simpl in Hexec.
  - injection Hexec as <- <-. reflexivity.
  - destruct (step a c) as [[c1 r]|] eqn:Hstep; [|discriminate].
    destruct (exec schedule c1) as [[c2 rs2]|] eqn:Hrest; [|discriminate].
    injection Hexec as <- <-.
    rewrite (IH _ _ _ Hrest). exact (step_capacity _ _ _ _ Hstep).
Qed.

(** ** Observers *)

Lemma wrap_cases z :
  - modulus <= z < 2 * modulus ->
  (0 <= z < modulus /\ wrap z = z)
  \/ (modulus <= z /\ wrap z = z - modulus)
  \/ (z < 0 /\ wrap z = z + modulus).
Proof.
  intros Hz. assert (HM : modulus = 18446744073709551616) by reflexivity.
  destruct (Z.neg_nonneg_cases z) as [Hneg|Hpos].
  - right. right. split; [lia|]. apply wrap_below. lia.
  - destruct (Z.lt_ge_cases z modulus).
    + left. split; [lia|]. apply wrap_small. unfold SIZE_MAX. lia.
    + right. left. split; [lia|]. apply wrap_above. unfold SIZE_MAX. lia.
Qed.

(** [size()] computed from any two indices inside the ring, be they read at
    the same moment or not. *)
Lemma size_in_range q :
  1 <= _capacity q <= SIZE_MAX ->
  0 <= _writeIndex q < _capacity q ->
  0 <= _readIndex q < _capacity q ->
  0 <= size q <= capacity q.
Proof.
  intros Hcap HW HR.
  assert (HM : modulus = 18446744073709551616) by reflexivity.
  assert (HS : SIZE_MAX = 18446744073709551615) by reflexivity.
  assert (HP : PTRDIFF_MAX = 9223372036854775807) by reflexivity.
  unfold size, capacity, to_ptrdiff, of_ptrdiff.
  rewrite (wrap_small (_capacity q - 1)) by lia.
  destruct (wrap_cases (_writeIndex q - _readIndex q) ltac:(lia)) as [[? ->]|[[? ->]|[? ->]]];
    [| lia |].
  - destruct (Z.leb_spec (_writeIndex q - _readIndex q) PTRDIFF_MAX).
    + destruct (Z.ltb_spec (_writeIndex q - _readIndex q) 0); [lia|].
      rewrite wrap_small by lia. lia.
    + destruct (Z.ltb_spec (_writeIndex q - _readIndex q - modulus) 0); [|lia].
      rewrite (wrap_below (_writeIndex q - _readIndex q - modulus)) by lia.
      rewrite (wrap_above (_ + _capacity q)) by lia.
      destruct (Z.leb_spec (_writeIndex q - _readIndex q - modulus + modulus
                            + _capacity q - modulus) PTRDIFF_MAX).
      * rewrite wrap_small by lia. lia.
      * rewrite wrap_below by lia. lia.
  - destruct (Z.leb_spec (_writeIndex q - _readIndex q + modulus) PTRDIFF_MAX).
    + destruct (Z.ltb_spec (_writeIndex q - _readIndex q + modulus) 0); [lia|].
      rewrite wrap_small by lia. lia.
    + destruct (Z.ltb_spec (_writeIndex q - _readIndex q + modulus - modulus) 0); [|lia].
      rewrite (wrap_below (_writeIndex q - _readIndex q + modulus - modulus)) by lia.
      rewrite (wrap_above (_ + _capacity q)) by lia.
      destruct (Z.leb_spec (_writeIndex q - _readIndex q + modulus - modulus + modulus
                            + _capacity q - modulus) PTRDIFF_MAX).
      * rewrite wrap_small by lia. lia.
      * rewrite wrap_below by lia. lia.
Qed.

(** When the ring is no longer than [PTRDIFF_MAX + 1], [size()] is the
    number of increments from the read index to the write index. *)
Lemma size_dist q :
  1 <= _capacity q <= PTRDIFF_MAX + 1 ->
  0 <= _writeIndex q < _capacity q ->
  0 <= _readIndex q < _capacity q ->
  size q = (_writeIndex q - _readIndex q) mod _capacity q.
Proof.
  intros Hcap HW HR.
  assert (HM : modulus = 18446744073709551616) by reflexivity.
  assert (HS : SIZE_MAX = 18446744073709551615) by reflexivity.
  assert (HP : PTRDIFF_MAX = 9223372036854775807) by reflexivity.
  rewrite <- dist_mod by assumption.
  unfold size, to_ptrdiff, of_ptrdiff, dist.
  destruct (Z.leb_spec (_readIndex q) (_writeIndex q)).
  - rewrite (wrap_small (_writeIndex q - _readIndex q)) by lia.
    destruct (Z.leb_spec (_writeIndex q - _readIndex q) PTRDIFF_MAX); [|lia].
    destruct (Z.ltb_spec (_writeIndex q - _readIndex q) 0); [lia|].
    apply wrap_small. lia.
  - rewrite (wrap_below (_writeIndex q - _readIndex q)) by lia.
    destruct (Z.leb_spec (_writeIndex q - _readIndex q + modulus) PTRDIFF_MAX); [lia|].
    destruct (Z.ltb_spec (_writeIndex q - _readIndex q + modulus - modulus) 0); [|lia].
    rewrite (wrap_below (_writeIndex q - _readIndex q + modulus - modulus)) by lia.
    rewrite (wrap_above (_ + _capacity q)) by lia.
    destruct (Z.leb_spec (_writeIndex q - _readIndex q + modulus - modulus + modulus
                          + _capacity q - modulus) PTRDIFF_MAX); [|lia].
    rewrite wrap_small by lia. lia.
Qed.

(** C7. size() bound.  In every reachable configuration [size()], the
    difference of the two indices converted to [std::ptrdiff_t] and increased
    by [_capacity] when negative, lies between 0 and [capacity()]. *)
Theorem size_bound A capacity0 schedule c rs :
  reaches A capacity0 schedule c rs ->
  0 <= size (object c) <= capacity (object c).
Proof.
  intros Hreach. apply reaches_inv in Hreach.
  destruct Hreach as (Hwf & _). wf_facts Hwf.
  apply size_in_range; try assumption. lia.
Qed.

(** X10. A torn snapshot.  When the two loads of [size()] are separated by
    steps of the other threads, the write index read in a reachable
    configuration and the read index in any later one, the result still
    lies between 0 and [capacity()]. *)
Lemma size_bound_stale A capacity0 schedule c rs schedule' c' rs' :
  reaches A capacity0 schedule c rs ->
  exec schedule' c = Some (c', rs') ->
  0 <= size (with_readIndex (_readIndex (object c')) (object c)) <= capacity (object c).
Proof.
  intros Hreach Hexec.
  pose proof (reaches_inv _ _ _ _ _ Hreach) as (Hwf & _).
  assert (Hreach' : reaches A capacity0 (schedule ++ schedule') c' (rs ++ rs')).
  { destruct Hreach as (HA & Hc & He). split; [exact HA|]. split; [exact Hc|].
    rewrite exec_app, He, Hexec. reflexivity. }
  pose proof (reaches_inv _ _ _ _ _ Hreach') as (Hwf' & _).
  pose proof (exec_capacity _ _ _ _ Hexec) as Hcap.
  destruct Hwf as [[? ?] ? ? ? ? ?]. destruct Hwf' as [[? ?] ? ? ? ? ?].
  pose proof padding_range.
  change (capacity (object c))
    with (capacity (with_readIndex (_readIndex (object c')) (object c))).
  apply size_in_range; simpl; lia.
Qed.

(** ** Capacity *)

(** What the constructor leaves in [_capacity] for a request below [SIZE_MAX]. *)
Lemma SPSCQueue_new_capacity_value A capacity0 :
  allocator_ok A -> 0 <= capacity0 < SIZE_MAX ->
  _capacity (SPSCQueue_new A capacity0) =
  let clamped := Z.min (Z.max capacity0 1 + 1) (SIZE_MAX - 2 * _padding) in
  if has_allocate_at_least A
  then allocate_at_least_count A (clamped + 2 * _padding) - 2 * _padding
  else clamped.
Proof.
  intros HA Hc. pose proof padding_range as Hp.
  unfold SPSCQueue_new. cbn [_capacity].
  assert (HS : SIZE_MAX = 18446744073709551615) by reflexivity.
  rewrite (wrap_small (2 * _padding)) by lia.
  rewrite (wrap_small (SIZE_MAX - 2 * _padding)) by lia.
  assert ((if capacity0 <? 1 then 1 else capacity0) = Z.max capacity0 1) as ->
    by (destruct (Z.ltb_spec capacity0 1); lia).
  rewrite (wrap_small (Z.max capacity0 1 + 1)) by lia.
  assert ((if Z.max capacity0 1 + 1 >? SIZE_MAX - 2 * _padding
           then SIZE_MAX - 2 * _padding else Z.max capacity0 1 + 1)
          = Z.min (Z.max capacity0 1 + 1) (SIZE_MAX - 2 * _padding)) as ->.
  { rewrite Z.gtb_ltb.
    destruct (Z.ltb_spec (SIZE_MAX - 2 * _padding) (Z.max capacity0 1 + 1)); lia. }
  cbv zeta.
  destruct (has_allocate_at_least A) eqn:Hal; [|reflexivity].
  set (clamped := Z.min (Z.max capacity0 1 + 1) (SIZE_MAX - 2 * _padding)).
  assert (2 <= clamped <= SIZE_MAX - 2 * _padding) by (subst clamped; lia).
  rewrite (wrap_small (clamped + 2 * _padding)) by lia.
  pose proof (HA Hal (clamped + 2 * _padding) ltac:(lia)).
  apply wrap_small. lia.
Qed.

(** C5, as amended.  For a request below [SIZE_MAX], [capacity()] is the
    request coerced to at least 1 and clamped to at most
    [SIZE_MAX - 2 * _padding - 1] when the allocator has no
    [allocate_at_least], and the granted count less [2 * _padding + 1] when
    it has; so it is the coerced request when that is at most
    [SIZE_MAX - 2 * _padding - 1] and the allocator grants what is asked.
    No transition changes it. *)
Theorem capacity_reported A capacity0 schedule c rs :
  reaches A capacity0 schedule c rs ->
  capacity (object c) = capacity (SPSCQueue_new A capacity0)
  /\ capacity (SPSCQueue_new A capacity0) =
     (if has_allocate_at_least A
      then allocate_at_least_count A
             (Z.min (Z.max capacity0 1 + 1) (SIZE_MAX - 2 * _padding) + 2 * _padding)
           - 2 * _padding - 1
      else Z.min (Z.max capacity0 1) (SIZE_MAX - 2 * _padding - 1))
  /\ (has_allocate_at_least A = false ->
      Z.max capacity0 1 <= SIZE_MAX - 2 * _padding - 1 ->
      capacity (SPSCQueue_new A capacity0) = Z.max capacity0 1).
Proof.
  intros (HA & Hc & Hexec).
  pose proof (SPSCQueue_new_capacity A capacity0 HA Hc) as [H2 Hfit].
  pose proof (SPSCQueue_new_capacity_value A capacity0 HA Hc) as Hval.
  pose proof padding_range as Hp.
  assert (Hcap : capacity (SPSCQueue_new A capacity0)
                 = _capacity (SPSCQueue_new A capacity0) - 1).
  { unfold capacity. apply wrap_small. lia. }
  split; [|split].
  - unfold capacity. rewrite (exec_capacity _ _ _ _ Hexec). reflexivity.
  - rewrite Hcap, Hval. cbv zeta. destruct (has_allocate_at_least A); lia.
  - intros Hal Hle. rewrite Hcap, Hval, Hal. cbv zeta. lia.
Qed.

(** ** Overflow at construction *)

(** C6. The request [SIZE_MAX]: the increment for the slack slot wraps to 0
    before the guard against overflow is reached, the guard does not fire,
    storage for the padding alone is requested, and [capacity()] reports
    [SIZE_MAX]. *)
Theorem constructor_wraps_at_SIZE_MAX :
  _capacity (SPSCQueue_new plain_allocator SIZE_MAX) = 0
  /\ slots_allocated (SPSCQueue_new plain_allocator SIZE_MAX) = 2 * _padding
  /\ capacity (SPSCQueue_new plain_allocator SIZE_MAX) = SIZE_MAX
  /\ slots_asked SIZE_MAX = 2 * _padding.
Proof.
  pose proof padding_range as Hp.
  assert (HS : SIZE_MAX = 18446744073709551615) by reflexivity.
  assert (H0 : _capacity (SPSCQueue_new plain_allocator SIZE_MAX) = 0).
  { unfold SPSCQueue_new. cbn [_capacity has_allocate_at_least plain_allocator].
    change (SIZE_MAX <? 1) with false. cbv iota.
    change (wrap (SIZE_MAX + 1)) with 0.
    pose proof (wrap_range (SIZE_MAX - wrap (2 * _padding))) as Hr.
    rewrite Z.gtb_ltb.
    destruct (Z.ltb_spec (wrap (SIZE_MAX - wrap (2 * _padding))) 0); [lia|reflexivity]. }
  unfold slots_asked.
  change (capacity_asked SIZE_MAX)
    with (_capacity (SPSCQueue_new plain_allocator SIZE_MAX)).
  unfold slots_allocated, capacity. rewrite H0.
  rewrite (wrap_small (2 * _padding)) by lia.
  rewrite (wrap_small (0 + 2 * _padding)) by lia.
  repeat split; lia.
Qed.

(** ** The non-blocking insertion *)

(** C3. Non-blocking insert.  [try_emplace] loads the read index at most
    once.  It returns false exactly when the index after the write index
    equals the cached read index and, that cache refreshed, still equals it;
    it has then made two loads and nothing else.  Otherwise it constructs
    the element in the slot of the write index, stores the advanced write
    index, and returns true. *)
Theorem try_emplace_nonblocking v q :
  let r := try_emplace v q in
  let W := _writeIndex q in
  let next := if wrap (W + 1) =? _capacity q then 0 else wrap (W + 1) in
  (length (List.filter is_refresh (accesses r)) <= 1)%nat
  /\ (value r = false <-> next = _readIndexCache q /\ next = _readIndex q)
  /\ (value r = false ->
      accesses r = [Load WriteIndex memory_order_relaxed W;
                    Load ReadIndex memory_order_acquire (_readIndex q)])
  /\ (value r = true ->
      (exists before,
         accesses r = before ++ [Construct (wrap (W + _padding)) v;
                                 Store WriteIndex memory_order_release next])
      /\ _slots (after r) = <[wrap (W + _padding) := v]> (_slots q)
      /\ _writeIndex (after r) = next).
Proof.
  unfold try_emplace, construct_and_publish.
  cbv [bind load store read write ret placement_new atomic_value atomic_write
       value after accesses]. simpl.
  set (next := if wrap (_writeIndex q + 1) =? _capacity q then 0
               else wrap (_writeIndex q + 1)).
  destruct (Z.eqb_spec next (_readIndexCache q)) as [Hc|Hc]; simpl.
  - destruct (Z.eqb_spec next (_readIndex q)) as [Hr|Hr]; simpl.
    + repeat split; try lia; try discriminate; try assumption.
    + repeat split; try lia; try discriminate; try tauto.
      eexists [_; _]. reflexivity.
  - repeat split; try lia; try discriminate; try tauto.
    eexists [_]. reflexivity.
Qed.

(** C10. Failure atomicity.  When [try_emplace] returns false the object is
    as before except for the producer's cache of the read index, which holds
    the read index: the slots, both indices, the consumer's cache and
    [_capacity] are unchanged, so [size()], [empty()], [capacity()] and the
    result of [front()] are what they were, and the call made loads only. *)
Theorem try_emplace_failure_atomic v q :
  value (try_emplace v q) = false ->
  let q' := after (try_emplace v q) in
  q' = with_readIndexCache (_readIndex q) q
  /\ _slots q' = _slots q
  /\ _writeIndex q' = _writeIndex q
  /\ _readIndex q' = _readIndex q
  /\ size q' = size q
  /\ empty q' = empty q
  /\ capacity q' = capacity q
  /\ value (front q') = value (front q)
  /\ _slots (after (front q')) = _slots (after (front q))
  /\ forallb is_load (accesses (try_emplace v q)) = true.
Proof.
  unfold try_emplace, construct_and_publish.
  cbv [bind load store read write ret placement_new atomic_value atomic_write
       value after accesses]. simpl.
  destruct (_ =? _readIndexCache q); simpl; [|discriminate].
  destruct (_ =? _readIndex q); simpl; [|discriminate].
  intros _. repeat split.
  all: unfold front; cbv [bind load read write ret atomic_value]; simpl;
    destruct (_readIndex q =? _writeIndexCache q); simpl; [|reflexivity];
    destruct (_writeIndex q =? _readIndex q); reflexivity.
Qed.

(** ** Member functions as runs of the two-thread system *)

Lemma reaches_app A capacity0 s1 s2 c rs c' rs' :
  reaches A capacity0 s1 c rs ->
  exec s2 c = Some (c', rs') ->
  reaches A capacity0 (s1 ++ s2) c' (rs ++ rs').
Proof.
  intros (HA & Hc & Hexec) Hexec'.
  split; [exact HA|]. split; [exact Hc|].
  rewrite exec_app, Hexec, Hexec'. reflexivity.
Qed.

Lemma inserted_app rs1 rs2 : inserted (rs1 ++ rs2) = inserted rs1 ++ inserted rs2.
Proof. unfold inserted. apply flat_map_app. Qed.

Lemma pops_app rs1 rs2 : pops (rs1 ++ rs2) = (pops rs1 + pops rs2)%nat.
Proof. unfold pops. rewrite List.filter_app, length_app. reflexivity. Qed.

Ltac run_goal :=
  repeat (cbv [step exec producer_step consumer_step front_begin next_index
               try_emplace front pop construct_and_publish
               bind load store read write ret placement_new destroy_at deref
               atomic_value atomic_write value after holding];
          simpl;
          repeat match goal with
                 | H : (_ =? _) = _ |- _ => rewrite H
                 end).

(** [front()] run to its return by the consumer alone. *)
Lemma front_exec c :
  between_calls (consumer c) = true ->
  exists schedule rs,
    exec schedule c =
      Some (mkConfig (after (front (object c))) (producer c)
                     (holding (value (front (object c)))), rs)
    /\ inserted rs = [] /\ pops rs = 0%nat.
Proof.
  destruct c as [q pp cp]. simpl. intros Hcp.
  destruct (_readIndex q =? _writeIndexCache q) eqn:Hcache.
  - exists [call_front; run_consumer].
    destruct (_writeIndex q =? _readIndex q) eqn:Hempty.
    + exists [Running; RetFront None None]. split; [|split; reflexivity].
      destruct cp; try discriminate; run_goal; reflexivity.
    + eexists [Running; RetFront (Some _) _]. split; [|split; reflexivity].
      destruct cp; try discriminate; run_goal; reflexivity.
  - exists [call_front]. eexists [RetFront (Some _) _]. split; [|split; reflexivity].
    destruct cp; try discriminate; run_goal; reflexivity.
Qed.

(** [pop()] run to its return by the consumer alone. *)
Lemma pop_exec q pp p :
  exec [call_pop; run_consumer; run_consumer] (mkConfig q pp (CHold p)) =
  Some (mkConfig (after (pop q)) pp CIdle, [Running; Running; RetPop]).
Proof. reflexivity. Qed.

(** [try_emplace(v)] run to its return by the producer alone. *)
Lemma try_emplace_exec v c :
  producer c = PIdle ->
  exists schedule rs,
    exec schedule c =
      Some (mkConfig (after (try_emplace v (object c))) PIdle (consumer c), rs)
    /\ inserted rs = (if value (try_emplace v (object c)) then [v] else [])
    /\ pops rs = 0%nat.
Proof.
  destruct c as [q pp cp]. simpl. intros ->.
  destruct ((if wrap (_writeIndex q + 1) =? _capacity q then 0
             else wrap (_writeIndex q + 1)) =? _readIndexCache q) eqn:Hcache.
  - destruct ((if wrap (_writeIndex q + 1) =? _capacity q then 0
               else wrap (_writeIndex q + 1)) =? _readIndex q) eqn:Hfull.
    + exists [call_try_emplace v; run_producer], [Running; RetTryEmplace v false].
      run_goal. repeat split.
    + exists [call_try_emplace v; run_producer; run_producer; run_producer],
             [Running; Running; Running; RetTryEmplace v true].
      run_goal. repeat split.
  - exists [call_try_emplace v; run_producer; run_producer],
           [Running; Running; RetTryEmplace v true].
    run_goal. repeat split.
Qed.

(** ** The producer's view of the queue *)

(** When [try_emplace] gives up. *)
Lemma try_emplace_false_iff v q :
  let next := if wrap (_writeIndex q + 1) =? _capacity q then 0
              else wrap (_writeIndex q + 1) in
  value (try_emplace v q) = false <-> next = _readIndexCache q /\ next = _readIndex q.
Proof.
  unfold try_emplace, construct_and_publish.
  cbv [bind load store read write ret placement_new atomic_value atomic_write
       value after accesses]. simpl.
  set (next := if wrap (_writeIndex q + 1) =? _capacity q then 0
               else wrap (_writeIndex q + 1)).
  destruct (Z.eqb_spec next (_readIndexCache q)) as [Hc|Hc]; simpl;
    [destruct (Z.eqb_spec next (_readIndex q)) as [Hr|Hr]; simpl|];
    split; try discriminate; try tauto.
Qed.

(** [try_emplace] finds room exactly when fewer than [capacity()] elements
    are inserted and not yet removed. *)
Lemma try_emplace_iff_room A capacity0 schedule c rs v :
  reaches A capacity0 schedule c rs ->
  producer c = PIdle ->
  value (try_emplace v (object c)) = true
  <-> Z.of_nat (length (pending rs)) < capacity (object c).
Proof.
  intros Hreach Hpp. apply reaches_inv in Hreach.
  destruct Hreach as (Hwf & Hlen & _ & Hc & _).
  wf_facts Hwf.
  assert (Hpend : Z.of_nat (length (pending rs))
                  = dist (_capacity (object c)) (_readIndex (object c))
                         (_writeIndex (object c))).
  { unfold pending. rewrite length_drop. ring_arith. }
  rewrite Hpend. unfold capacity. rewrite (wrap_small (_ - 1)) by lia.
  pose proof (try_emplace_false_iff v (object c)) as Hfalse.
  cbv zeta in Hfalse. rewrite (wrap_small (_ + 1)) in Hfalse by lia.
  destruct (value (try_emplace v (object c))).
  - split; [intros _ | reflexivity].
    destruct (Z.lt_ge_cases
                (dist (_capacity (object c)) (_readIndex (object c)) (_writeIndex (object c)))
                (_capacity (object c) - 1)) as [Hlt|Hge]; [exact Hlt | exfalso].
    assert (Hfull : (if _writeIndex (object c) + 1 =? _capacity (object c) then 0
                     else _writeIndex (object c) + 1) = _readIndexCache (object c)
                    /\ (if _writeIndex (object c) + 1 =? _capacity (object c) then 0
                        else _writeIndex (object c) + 1) = _readIndex (object c))
      by ring_arith.
    apply Hfalse in Hfull. discriminate.
  - split; [discriminate | intros Hlt; exfalso].
    destruct (proj1 Hfalse eq_refl) as [_ Hfull]. ring_arith.
Qed.

(** *** The waiting insertion, run by the producer alone *)

Lemma emplace_wait_room fuel next q :
  next <> _readIndexCache q ->
  emplace_wait (S fuel) next q = (true, q, []).
Proof.
  intros Hne. cbn [emplace_wait]. unfold bind, read. simpl.
  rewrite (proj2 (Z.eqb_neq _ _) Hne). reflexivity.
Qed.

Lemma emplace_wait_refresh fuel next q :
  next = _readIndexCache q -> next <> _readIndex q ->
  emplace_wait (S (S fuel)) next q =
  (true, with_readIndexCache (_readIndex q) q,
   [Load ReadIndex memory_order_acquire (_readIndex q)]).
Proof.
  intros Heq Hne. cbn [emplace_wait]. unfold bind, read, load, write, ret. simpl.
  rewrite (proj2 (Z.eqb_eq _ _) Heq), (proj2 (Z.eqb_neq _ _) Hne). reflexivity.
Qed.

(** With nobody to remove an element, the loop of [emplace] on a full queue
    does not exit, whatever the bound. *)
Lemma emplace_wait_full fuel :
  forall next q,
  next = _readIndexCache q -> next = _readIndex q ->
  value (emplace_wait fuel next q) = false.
Proof.
  induction fuel as [|fuel IH]; intros next q Hc Hr; [reflexivity|].
  cbn [emplace_wait]. unfold bind, read, load, write. simpl.
  rewrite (proj2 (Z.eqb_eq _ _) Hc).
  specialize (IH next (with_readIndexCache (_readIndex q) q) Hr Hr).
  unfold value in *.
  destruct (emplace_wait fuel next (with_readIndexCache (_readIndex q) q)) as [[b q'] l].
  exact IH.
Qed.

(** Where [try_emplace] succeeds, [emplace] does the same. *)
Lemma emplace_try_emplace fuel v q :
  value (try_emplace v q) = true ->
  emplace (S (S fuel)) v q = (Some tt, after (try_emplace v q), accesses (try_emplace v q)).
Proof.
  pose proof (try_emplace_false_iff v q) as Hfalse. cbv zeta in Hfalse.
  intros Htrue. rewrite Htrue in Hfalse.
  unfold emplace, try_emplace, construct_and_publish.
  unfold bind at 1 2 3. unfold load at 1, read at 1. cbn [atomic_value].
  set (next := if wrap (_writeIndex q + 1) =? _capacity q then 0
               else wrap (_writeIndex q + 1)) in *.
  destruct (Z.eqb_spec next (_readIndexCache q)) as [Hc|Hc].
  - destruct (Z.eqb_spec next (_readIndex q)) as [Hr|Hr].
    + destruct Hfalse as [_ Hfalse]. discriminate (Hfalse (conj Hc Hr)).
    + rewrite (emplace_wait_refresh fuel next q Hc Hr).
      cbv [bind load store read write ret placement_new atomic_value atomic_write
           value after accesses]. simpl.
      fold next. rewrite (proj2 (Z.eqb_eq _ _) Hc). simpl.
      rewrite (proj2 (Z.eqb_neq _ _) Hr). reflexivity.
  - rewrite (emplace_wait_room (S fuel) next q Hc).
    cbv [bind load store read write ret placement_new atomic_value atomic_write
         value after accesses]. simpl.
    fold next. rewrite (proj2 (Z.eqb_neq _ _) Hc). reflexivity.
Qed.

(** Where [try_emplace] fails, [emplace] run by the producer alone does not
    return. *)
Lemma emplace_spins fuel v q :
  value (try_emplace v q) = false ->
  value (emplace fuel v q) = None.
Proof.
  pose proof (try_emplace_false_iff v q) as Hfalse. cbv zeta in Hfalse.
  intros Hf. destruct (proj1 Hfalse Hf) as [Hc Hr].
  unfold emplace. unfold bind at 1 2 3. unfold load at 1, read at 1. cbn [atomic_value].
  pose proof (emplace_wait_full fuel _ q Hc Hr) as Hw. unfold value in *.
  destruct (emplace_wait fuel _ q) as [[b q'] l]. simpl in Hw. subst b. reflexivity.
Qed.

(** [emplace(v)] run to its return by the producer alone. *)
Lemma emplace_exec fuel v c :
  producer c = PIdle ->
  value (try_emplace v (object c)) = true ->
  exists schedule rs,
    exec schedule c =
      Some (mkConfig (after (emplace (S (S fuel)) v (object c))) PIdle (consumer c), rs)
    /\ inserted rs = [v] /\ pops rs = 0%nat.
Proof.
  intros Hpp Htrue. rewrite (emplace_try_emplace fuel v _ Htrue).
  pose proof (try_emplace_false_iff v (object c)) as Hfalse. cbv zeta in Hfalse.
  rewrite Htrue in Hfalse. revert Hfalse.
  destruct c as [q pp cp]. simpl in *. subst pp. intros Hfalse.
  destruct ((if wrap (_writeIndex q + 1) =? _capacity q then 0
             else wrap (_writeIndex q + 1)) =? _readIndexCache q) eqn:Hcache.
  - destruct ((if wrap (_writeIndex q + 1) =? _capacity q then 0
               else wrap (_writeIndex q + 1)) =? _readIndex q) eqn:Hfull.
    + apply Z.eqb_eq in Hcache, Hfull.
      destruct Hfalse as [_ Hfalse]. discriminate (Hfalse (conj Hcache Hfull)).
    + exists [call_emplace v; run_producer; run_producer; run_producer],
             [Running; Running; Running; RetEmplace v].
      run_goal. repeat split.
  - exists [call_emplace v; run_producer; run_producer],
           [Running; Running; RetEmplace v].
    run_goal. repeat split.
Qed.

(** ** The consumer's view of the queue *)

(** What the invariant says to a consumer that is between calls. *)
Lemma consumer_view A capacity0 schedule c rs :
  reaches A capacity0 schedule c rs ->
  between_calls (consumer c) = true ->
  let q := object c in
  well_formed q
  /\ Z.of_nat (length (pending rs)) = dist (_capacity q) (_readIndex q) (_writeIndex q)
  /\ (_readIndex q <> _writeIndexCache q -> pending rs <> [])
  /\ (pending rs <> [] -> _slots q !! (_readIndex q + _padding) = head (pending rs))
  /\ (producer c = PIdle -> pending rs = [] -> _slots q = ∅).
Proof.
  intros Hreach Hcp. apply reaches_inv in Hreach.
  destruct Hreach as (Hwf & Hlen & Hp & Hc & Hs & Hobs).
  pose proof Hwf as Hwf'. wf_facts Hwf'.
  assert (Hb : ring_base (object c) (consumer c) = _readIndex (object c)
               /\ destroying (consumer c) = 0%nat)
    by (destruct (consumer c); try discriminate; split; reflexivity).
  destruct Hb as [Hb Hd]. rewrite Hb, Hd, Nat.add_0_r in Hs.
  fold (pending rs) in Hs.
  assert (Hlen' : Z.of_nat (length (pending rs))
                  = dist (_capacity (object c)) (_readIndex (object c))
                         (_writeIndex (object c))).
  { unfold pending. rewrite length_drop. ring_arith. }
  simpl. refine (conj Hwf (conj Hlen' (conj _ (conj _ _)))).
  - intros Hne Hnil. rewrite Hnil in Hlen'. simpl in Hlen'. ring_arith.
  - intros Hne. rewrite Hs, ring_at_head by assumption.
    destruct (pending rs); [contradiction | reflexivity].
  - intros Hpp Hnil. apply map_eq. intros k.
    rewrite Hs, Hpp, Hnil. simpl. rewrite ring_at_nil. symmetry. apply lookup_empty.
Qed.

Lemma front_unfold q :
  front q =
  let p := Some (wrap (_readIndex q + _padding)) in
  let reload := [Load ReadIndex memory_order_relaxed (_readIndex q);
                 Load WriteIndex memory_order_acquire (_writeIndex q)] in
  if _readIndex q =? _writeIndexCache q then
    if _writeIndex q =? _readIndex q
    then (None, with_writeIndexCache (_writeIndex q) q, reload)
    else (p, with_writeIndexCache (_writeIndex q) q, reload)
  else (p, q, [Load ReadIndex memory_order_relaxed (_readIndex q)]).
Proof.
  unfold front. cbv [bind load read write ret atomic_value]. simpl.
  destruct (_readIndex q =? _writeIndexCache q); simpl; [|reflexivity].
  destruct (_writeIndex q =? _readIndex q); reflexivity.
Qed.

(** [front()] against the history of the run. *)
Lemma front_spec A capacity0 schedule c rs :
  reaches A capacity0 schedule c rs ->
  between_calls (consumer c) = true ->
  let q := object c in
  let r := front q in
  (value r = None <-> pending rs = [])
  /\ (value r = None ->
      accesses r = [Load ReadIndex memory_order_relaxed (_readIndex q);
                    Load WriteIndex memory_order_acquire (_writeIndex q)])
  /\ (forall p, value r = Some p ->
        p = _readIndex q + _padding
        /\ (exists x, head (pending rs) = Some x /\ _slots q !! p = Some x))
  /\ (empty q = true <-> pending rs = [])
  /\ empty (SPSCQueue_new A capacity0) = true
  /\ value (front (SPSCQueue_new A capacity0)) = None.
Proof.
  intros Hreach Hcp.
  destruct (consumer_view _ _ _ _ _ Hreach Hcp) as (Hwf & Hlen & Hhit & Hhead & _).
  wf_facts Hwf. simpl in *.
  assert (Hempty : _writeIndex (object c) = _readIndex (object c) <-> pending rs = []).
  { split.
    - intros Heq. rewrite Heq in Hlen. apply length_zero_iff_nil. ring_arith.
    - intros Hnil. rewrite Hnil in Hlen. simpl in Hlen. ring_arith. }
  assert (Hsome : pending rs <> [] ->
                  exists x, head (pending rs) = Some x
                            /\ _slots (object c) !! (_readIndex (object c) + _padding) = Some x).
  { intros Hne. rewrite (Hhead Hne). destruct (pending rs) as [|x l]; [contradiction|].
    exists x. split; reflexivity. }
  assert (Hnew : empty (SPSCQueue_new A capacity0) = true
                 /\ value (front (SPSCQueue_new A capacity0)) = None)
    by (split; reflexivity).
  unfold empty. rewrite front_unfold. cbv zeta.
  rewrite !(wrap_small (_readIndex (object c) + _padding)) by lia.
  destruct (Z.eqb_spec (_writeIndex (object c)) (_readIndex (object c))) as [He|He].
  - (* the indices are equal: the cache cannot differ from the read index *)
    assert (Hnil : pending rs = []) by (apply Hempty; exact He).
    destruct (Z.eqb_spec (_readIndex (object c)) (_writeIndexCache (object c))) as [Hc|Hc];
      [|exfalso; exact (Hhit Hc Hnil)].
    unfold value, accesses. simpl.
    split; [tauto|]. split; [reflexivity|]. split; [discriminate|].
    split; [tauto|]. exact Hnew.
  - assert (Hne : pending rs <> []) by (intros Hnil; apply He, Hempty, Hnil).
    assert (Hval : forall p, Some (_readIndex (object c) + _padding) = Some p ->
              p = _readIndex (object c) + _padding
              /\ (exists x, head (pending rs) = Some x /\ _slots (object c) !! p = Some x)).
    { intros p Hp. injection Hp as <-. split; [reflexivity|]. apply (Hsome Hne). }
    destruct (_readIndex (object c) =? _writeIndexCache (object c));
      unfold value, accesses; simpl;
      (split; [split; [discriminate | contradiction] |]);
      (split; [discriminate |]);
      (split; [exact Hval |]);
      (split; [split; [discriminate | contradiction] | exact Hnew]).
Qed.

(** C4. Peek and empty.  For a consumer between calls in a reachable
    configuration, [front()] returns null exactly when every inserted element
    has been removed, and it does so only after loading the write index and
    comparing again; otherwise it returns the slot of the read index, which
    holds the oldest element inserted and not yet removed.  Right after
    construction [empty()] is true and [front()] returns null. *)
Theorem front_null_iff_empty A capacity0 schedule c rs :
  reaches A capacity0 schedule c rs ->
  between_calls (consumer c) = true ->
  let q := object c in
  let r := front q in
  (value r = None <-> pending rs = [])
  /\ (value r = None ->
      accesses r = [Load ReadIndex memory_order_relaxed (_readIndex q);
                    Load WriteIndex memory_order_acquire (_writeIndex q)])
  /\ (forall p, value r = Some p ->
        p = _readIndex q + _padding
        /\ (exists x, head (pending rs) = Some x /\ _slots q !! p = Some x))
  /\ (empty q = true <-> pending rs = [])
  /\ empty (SPSCQueue_new A capacity0) = true
  /\ value (front (SPSCQueue_new A capacity0)) = None.
Proof. exact (front_spec A capacity0 schedule c rs). Qed.

(** ** Destruction *)

Lemma pop_unfold q :
  pop q =
  let p := wrap (_readIndex q + _padding) in
  let next := if wrap (_readIndex q + 1) =? _capacity q then 0
              else wrap (_readIndex q + 1) in
  (tt, with_readIndex next (with_slots (delete p (_slots q)) q),
   [Load ReadIndex memory_order_relaxed (_readIndex q);
    Destroy p (_slots q !! p);
    Store ReadIndex memory_order_release next]).
Proof. reflexivity. Qed.

Lemma pending_app rs rs' :
  inserted rs' = [] -> pending (rs ++ rs') = drop (pops rs') (pending rs).
Proof.
  intros Hins. unfold pending.
  rewrite inserted_app, pops_app, Hins, app_nil_r, drop_drop. reflexivity.
Qed.

Lemma front_frame q :
  let r := front q in
  _slots (after r) = _slots q
  /\ _readIndex (after r) = _readIndex q
  /\ _capacity (after r) = _capacity q
  /\ destroyed (accesses r) = []
  /\ (value r = None \/ value r = Some (wrap (_readIndex q + _padding))).
Proof.
  rewrite front_unfold. cbv zeta.
  destruct (_readIndex q =? _writeIndexCache q);
    [destruct (_writeIndex q =? _readIndex q)|]; simpl; auto 10.
Qed.

Lemma SPSCQueue_delete_step fuel q p q1 l1 :
  front q = (Some p, q1, l1) ->
  SPSCQueue_delete (S fuel) q =
  let r := SPSCQueue_delete fuel (after (pop q1)) in
  (value r, after r, l1 ++ accesses (pop q1) ++ accesses r).
Proof.
  intros Hf. cbn [SPSCQueue_delete]. unfold bind at 1. rewrite Hf. unfold bind.
  destruct (pop q1) as [[[] q2] l2]. cbn [after accesses value fst snd].
  destruct (SPSCQueue_delete fuel q2) as [[v3 q3] l3]. reflexivity.
Qed.

Lemma drain_step n q p q1 l1 :
  front q = (p, q1, l1) ->
  drain (S n) q =
  let r := drain n (after (pop q1)) in
  (value r, after r, l1 ++ accesses (pop q1) ++ accesses r).
Proof.
  intros Hf. cbn [drain]. unfold bind at 1. rewrite Hf. unfold bind.
  destruct (pop q1) as [[[] q2] l2]. cbn [after accesses value fst snd].
  destruct (drain n q2) as [[v3 q3] l3]. reflexivity.
Qed.

Lemma destroyed_app l1 l2 : destroyed (l1 ++ l2) = destroyed l1 ++ destroyed l2.
Proof. unfold destroyed. apply flat_map_app. Qed.

Lemma destructor_spec n :
  forall A capacity0 schedule c rs fuel,
  reaches A capacity0 schedule c rs ->
  quiescent c = true ->
  length (pending rs) = n ->
  (n < fuel)%nat ->
  let q := object c in
  let r := SPSCQueue_delete fuel q in
  value r = Some tt
  /\ map snd (destroyed (accesses r)) = Some <$> pending rs
  /\ NoDup (map fst (destroyed (accesses r)))
  /\ (forall i, i ∈ map fst (destroyed (accesses r)) -> is_Some (_slots q !! i))
  /\ _slots (after r) = ∅
  /\ value (front (after r)) = None
  /\ r = drain n q.
Proof.
  induction n as [|n IH]; intros A capacity0 schedule c rs fuel Hreach Hq Hn Hfuel.
  - destruct fuel as [|fuel]; [lia|].
    assert (Hcp : between_calls (consumer c) = true)
      by (unfold quiescent in Hq; destruct (producer c); try discriminate; exact Hq).
    assert (Hpp : producer c = PIdle)
      by (unfold quiescent in Hq; destruct (producer c); try discriminate; reflexivity).
    apply length_zero_iff_nil in Hn.
    destruct (front_spec _ _ _ _ _ Hreach Hcp) as (Hnull & Hacc & _).
    destruct (consumer_view _ _ _ _ _ Hreach Hcp) as (_ & _ & _ & _ & Hslots).
    specialize (Hslots Hpp Hn). apply Hnull in Hn as Hval.
    specialize (Hacc Hval).
    simpl. unfold bind.
    destruct (front (object c)) as [[p q1] l1] eqn:Hf.
    unfold value, accesses in *. simpl in *. subst p l1. simpl.
    assert (Hq1 : _slots q1 = _slots (object c) /\ value (front q1) = None).
    { rewrite front_unfold in Hf. cbv zeta in Hf.
      destruct (_readIndex (object c) =? _writeIndexCache (object c));
        [|discriminate].
      destruct (_writeIndex (object c) =? _readIndex (object c)) eqn:He; [|discriminate].
      injection Hf as <-. split; [reflexivity|].
      rewrite front_unfold. simpl. rewrite He.
      apply Z.eqb_eq in He. rewrite He, Z.eqb_refl. reflexivity. }
    destruct Hq1 as [Hs1 Hf1].
    repeat split; try reflexivity.
    + rewrite Hn. reflexivity.
    + constructor.
    + intros i Hi. inversion Hi.
    + unfold after. simpl. rewrite Hs1. exact Hslots.
    + exact Hf1.
  - destruct fuel as [|fuel]; [lia|].
    assert (Hcp : between_calls (consumer c) = true)
      by (unfold quiescent in Hq; destruct (producer c); try discriminate; exact Hq).
    assert (Hpp : producer c = PIdle)
      by (unfold quiescent in Hq; destruct (producer c); try discriminate; reflexivity).
    destruct (pending rs) as [|x l] eqn:Hpend; [discriminate|].
    injection Hn as Hn.
    destruct (front_spec _ _ _ _ _ Hreach Hcp) as (Hnull & _ & Hsome & _).
    destruct (consumer_view _ _ _ _ _ Hreach Hcp) as (Hwf & _).
    destruct (front_frame (object c)) as (Hs1 & HR1 & Hc1 & Hd1 & Hv1).
    destruct (front_exec c Hcp) as (sf & rsf & Hexf & Hinsf & Hpopsf).
    rewrite Hpend in *.
    destruct Hv1 as [Hv1|Hv1]; [apply Hnull in Hv1; discriminate|].
    destruct (Hsome _ Hv1) as (Hp & y & Hy & Hslot). simpl in Hy. injection Hy as <-.
    rewrite Hv1, Hpp in Hexf. simpl in Hexf.
    pose proof (reaches_app _ _ _ _ _ _ _ _ Hreach Hexf) as Hreach1.
    pose proof (reaches_app _ _ _ _ _ _ _ _ Hreach1 (pop_exec _ _ _)) as Hreach2.
    assert (Hpend2 : pending ((rs ++ rsf) ++ [Running; Running; RetPop]) = l).
    { rewrite pending_app by reflexivity. rewrite pending_app by exact Hinsf.
      rewrite Hpopsf, Hpend. reflexivity. }
    destruct (front (object c)) as [[p' q1] l1] eqn:Hf.
    unfold value, after, accesses in Hs1, HR1, Hc1, Hd1, Hv1, Hreach2.
    cbn [fst snd] in Hs1, HR1, Hc1, Hd1, Hv1, Hreach2.
    subst p'. rewrite Hp in Hslot.
    assert (Hpop : _slots (after (pop q1))
                   = delete (_readIndex (object c) + _padding) (_slots (object c))
                   /\ destroyed (accesses (pop q1))
                      = [(_readIndex (object c) + _padding, Some x)]).
    { rewrite pop_unfold. cbv zeta. simpl. rewrite HR1, Hs1, Hp, Hslot.
      split; reflexivity. }
    destruct Hpop as [Hpop1 Hpop2].
    change ((pop q1).1.2) with (after (pop q1)) in Hreach2.
    specialize (IH _ _ _ _ _ fuel Hreach2 eq_refl ltac:(rewrite Hpend2; exact Hn)
                   ltac:(lia)).
    cbv zeta in IH. rewrite Hpend2 in IH. simpl object in IH.
    destruct IH as (IHv & IHd & IHnd & IHalive & IHs & IHf & IHdrain).
    cbv zeta.
    rewrite (SPSCQueue_delete_step _ _ _ _ _ Hf), (drain_step _ _ _ _ _ Hf).
    cbv zeta. cbn [value after accesses fst snd].
    rewrite !destroyed_app, Hd1, Hpop2. cbn [app map fst snd].
    rewrite Hpop1 in IHalive.
    refine (conj IHv (conj _ (conj _ (conj _ (conj IHs (conj IHf _)))))).
    + rewrite IHd. reflexivity.
    + constructor; [|exact IHnd].
      intros Hin. apply IHalive in Hin.
      rewrite lookup_delete_eq in Hin. destruct Hin as [? Hin]. discriminate.
    + intros i Hi. apply elem_of_cons in Hi as [->|Hi].
      * rewrite Hslot. eexists. reflexivity.
      * apply IHalive in Hi.
        destruct (decide (i = _readIndex (object c) + _padding)) as [->|Hne].
        -- rewrite lookup_delete_eq in Hi. destruct Hi as [? Hi]. discriminate.
        -- rewrite lookup_delete_ne in Hi by congruence. exact Hi.
    + rewrite <- IHdrain. reflexivity.
Qed.

(** C9. Destructor drains.  When no member function is running, the
    destructor, given more loop tests than there are elements inserted and
    not yet removed, returns; it calls the element destructor on exactly
    those elements, oldest first, each in a slot that held it and no slot
    twice; no object is alive in the storage afterwards; and it does what
    [front(); pop();] repeated once per element and a last [front()], which
    returns null, do. *)
Theorem destructor_drains A capacity0 schedule c rs fuel :
  reaches A capacity0 schedule c rs ->
  quiescent c = true ->
  (length (pending rs) < fuel)%nat ->
  let q := object c in
  let r := SPSCQueue_delete fuel q in
  0 <= Z.of_nat (length (pending rs)) <= capacity q
  /\ value r = Some tt
  /\ map snd (destroyed (accesses r)) = Some <$> pending rs
  /\ NoDup (map fst (destroyed (accesses r)))
  /\ (forall i, i ∈ map fst (destroyed (accesses r)) -> is_Some (_slots q !! i))
  /\ _slots (after r) = ∅
  /\ value (front (after r)) = None
  /\ r = drain (length (pending rs)) q.
Proof.
  intros Hreach Hq Hfuel.
  assert (Hcp : between_calls (consumer c) = true)
    by (unfold quiescent in Hq; destruct (producer c); try discriminate; exact Hq).
  destruct (consumer_view _ _ _ _ _ Hreach Hcp) as (Hwf & Hlen & _).
  destruct (destructor_spec _ _ _ _ _ _ fuel Hreach Hq eq_refl Hfuel)
    as (Hv & Hd & Hnd & Halive & Hs & Hf & Hdrain).
  cbv zeta. split; [|tauto].
  wf_facts Hwf. unfold capacity. rewrite wrap_small by lia. ring_arith.
Qed.

(** ** Filling a fresh queue *)

Lemma try_emplace_untouched v q :
  untouched q ->
  let r := try_emplace v q in
  value r = negb (_writeIndex q + 1 =? _capacity q)
  /\ (value r = true ->
      untouched (after r)
      /\ _writeIndex (after r) = _writeIndex q + 1
      /\ _capacity (after r) = _capacity q).
Proof.
  intros (HR & Hrc & HW & Hcap).
  unfold try_emplace, construct_and_publish.
  cbv [bind load store read write ret placement_new atomic_value atomic_write
       value after accesses]. simpl.
  rewrite (wrap_small (_writeIndex q + 1)) by lia.
  rewrite Hrc.
  destruct (Z.eqb_spec (_writeIndex q + 1) (_capacity q)) as [Hfull|Hroom]; simpl.
  - rewrite HR. simpl. split; [reflexivity | discriminate].
  - destruct (Z.eqb_spec (_writeIndex q + 1) 0); [lia|]. simpl.
    split; [reflexivity|]. intros _. unfold untouched. simpl. lia.
Qed.

Lemma try_emplace_all_untouched vs :
  forall q v,
  untouched q ->
  _writeIndex q + Z.of_nat (length vs) + 1 = _capacity q ->
  value (try_emplace_all (vs ++ [v]) q) = repeat true (length vs) ++ [false].
Proof.
  induction vs as [|w vs IH]; intros q v Hq Hlen; simpl in Hlen |- *.
  - destruct (try_emplace_untouched v q Hq) as [Hv _].
    unfold bind, value in *. destruct (try_emplace v q) as [[ok q1] l1].
    simpl in *. subst ok.
    destruct (Z.eqb_spec (_writeIndex q + 1) (_capacity q)); [reflexivity | lia].
  - destruct (try_emplace_untouched w q Hq) as [Hv Hnext].
    unfold bind, value, after in *. destruct (try_emplace w q) as [[ok q1] l1].
    simpl in *.
    destruct (Z.eqb_spec (_writeIndex q + 1) (_capacity q)); [lia|].
    simpl in Hv. subst ok.
    destruct (Hnext eq_refl) as (Hq1 & HW1 & Hc1).
    specialize (IH q1 v Hq1 ltac:(lia)).
    destruct (try_emplace_all (vs ++ [v]) q1) as [[oks q2] l2].
    simpl in *. rewrite IH. reflexivity.
Qed.

Lemma try_emplace_all_room vs :
  forall q,
  untouched q ->
  _writeIndex q + Z.of_nat (length vs) < _capacity q ->
  let r := try_emplace_all vs q in
  value r = repeat true (length vs)
  /\ untouched (after r)
  /\ _writeIndex (after r) = _writeIndex q + Z.of_nat (length vs)
  /\ _capacity (after r) = _capacity q.
Proof.
  induction vs as [|w vs IH]; intros q Hq Hlen; simpl in Hlen |- *.
  - unfold value, after. simpl. repeat split; try apply Hq; lia.
  - destruct (try_emplace_untouched w q Hq) as [Hv Hnext].
    unfold bind, value, after in *. destruct (try_emplace w q) as [[ok q1] l1].
    simpl in *.
    destruct (Z.eqb_spec (_writeIndex q + 1) (_capacity q)); [lia|].
    simpl in Hv. subst ok.
    destruct (Hnext eq_refl) as (Hq1 & HW1 & Hc1).
    specialize (IH q1 Hq1 ltac:(lia)).
    destruct (try_emplace_all vs q1) as [[oks q2] l2].
    simpl in *. destruct IH as (-> & Hq2 & HW2 & Hc2).
    repeat split; try apply Hq2; lia.
Qed.

(** C2, as amended.  On a queue constructed for a request below
    [SIZE_MAX], with [C] the value of [capacity()] and no element removed,
    [C] consecutive calls of [try_emplace] return true and the next call of
    [try_emplace] or [try_push] returns false.  [C] is at least 1; it is at
    least the request coerced to at least 1 when the overflow guard does
    not cut the request, and equal to it when, besides, the allocator has
    no [allocate_at_least]; with [allocate_at_least] it can be more, and
    then more calls than were asked for succeed. *)
Theorem capacity_bound A capacity0 (vs : list T) v :
  allocator_ok A -> 0 <= capacity0 < SIZE_MAX ->
  let q := SPSCQueue_new A capacity0 in
  Z.of_nat (length vs) = capacity q ->
  value (try_emplace_all (vs ++ [v]) q) = repeat true (length vs) ++ [false]
  /\ value (try_push v (after (try_emplace_all vs q))) = false
  /\ 1 <= capacity q
  /\ (has_allocate_at_least A = false ->
      Z.max capacity0 1 <= SIZE_MAX - 2 * _padding - 1 ->
      capacity q = Z.max capacity0 1)
  /\ (Z.max capacity0 1 <= SIZE_MAX - 2 * _padding - 1 ->
      Z.max capacity0 1 <= capacity q).
Proof.
  intros HA Hc q Hlen.
  assert (H2 : 2 <= _capacity q /\ _capacity q + 2 * _padding <= SIZE_MAX)
    by exact (SPSCQueue_new_capacity A capacity0 HA Hc).
  assert (Hval : has_allocate_at_least A = false ->
                 _capacity q = Z.min (Z.max capacity0 1 + 1) (SIZE_MAX - 2 * _padding)).
  { intros Hal. subst q. rewrite (SPSCQueue_new_capacity_value A capacity0 HA Hc), Hal.
    reflexivity. }
  assert (Hge : Z.max capacity0 1 <= SIZE_MAX - 2 * _padding - 1 ->
                Z.max capacity0 1 + 1 <= _capacity q).
  { intros Hle. subst q. rewrite (SPSCQueue_new_capacity_value A capacity0 HA Hc).
    cbv zeta. rewrite Z.min_l by lia.
    destruct (has_allocate_at_least A) eqn:Hal; [|lia].
    pose proof padding_range as Hpad.
    specialize (HA Hal (Z.max capacity0 1 + 1 + 2 * _padding)).
    unfold SIZE_MAX in *. lia. }
  assert (Hq : untouched q /\ _writeIndex q = 0).
  { unfold untouched. subst q.
    change (_readIndex (SPSCQueue_new A capacity0)) with 0.
    change (_readIndexCache (SPSCQueue_new A capacity0)) with 0.
    change (_writeIndex (SPSCQueue_new A capacity0)) with 0.
    pose proof padding_range. lia. }
  clearbody q. destruct Hq as [Hq HW].
  pose proof padding_range as Hp.
  assert (Hcap : capacity q = _capacity q - 1).
  { unfold capacity. apply wrap_small. lia. }
  split; [|split; [|split; [|split]]].
  - apply try_emplace_all_untouched; [exact Hq | lia].
  - destruct (try_emplace_all_room vs q Hq ltac:(lia)) as (_ & Hq' & HW' & Hc').
    unfold try_push.
    destruct (try_emplace_untouched v _ Hq') as [-> _].
    rewrite HW', Hc'.
    destruct (Z.eqb_spec (_writeIndex q + Z.of_nat (length vs) + 1) (_capacity q));
      [reflexivity | lia].
  - lia.
  - intros Hal Hle. rewrite Hcap, (Hval Hal). lia.
  - intros Hle. specialize (Hge Hle). lia.
Qed.

(** * More of the code *)

(** ** Padding *)

(** X1. Padding covers a cache line.  The [_padding] slots kept free on
    each side of the ring take at least [_cacheLineSize] bytes, and one
    slot fewer would not. *)
Theorem padding_covers_cache_line :
  _cacheLineSize <= _padding * Z.pos sizeof_T
  /\ (_padding - 1) * Z.pos sizeof_T < _cacheLineSize.
Proof.
  unfold _padding, _cacheLineSize.
  pose proof (Z.div_mod (64 - 1) (Z.pos sizeof_T) ltac:(lia)) as Hdm.
  pose proof (Z.mod_pos_bound (64 - 1) (Z.pos sizeof_T) ltac:(lia)) as Hr.
  nia.
Qed.

(** ** Live objects *)

(** The number of objects alive when [xs] sit in the ring. *)
Lemma ring_size cap base (xs : list T) :
  forall m : gmap Z T,
  0 <= base < cap ->
  Z.of_nat (length xs) <= cap ->
  (forall k, m !! k = ring_at cap base xs k) ->
  stdpp.base.size m = length xs.
Proof.
  induction xs as [|v xs IH] using rev_ind; intros m Hb Hlen Hm.
  - assert (m = ∅) as ->.
    { apply map_empty. intros k. rewrite Hm. apply ring_at_nil. }
    apply map_size_empty.
  - rewrite length_app in Hlen |- *. simpl in Hlen |- *.
    pose proof padding_range as Hp.
    set (w := if base + Z.of_nat (length xs) <? cap
              then base + Z.of_nat (length xs)
              else base + Z.of_nat (length xs) - cap).
    assert (Hw : 0 <= w < cap /\ dist cap base w = Z.of_nat (length xs)).
    { subst w. destruct (Z.ltb_spec (base + Z.of_nat (length xs)) cap); ring_arith. }
    destruct Hw as [Hw Hd].
    assert (Hv : m !! (w + _padding) = Some v).
    { rewrite Hm. unfold ring_at.
      replace (w + _padding - _padding) with w by lia.
      destruct (Z.leb_spec _padding (w + _padding)); [|lia].
      destruct (Z.ltb_spec (w + _padding) (_padding + cap)); [|lia]. simpl.
      rewrite Hd, Nat2Z.id, lookup_app_r by lia.
      rewrite Nat.sub_diag. reflexivity. }
    rewrite <- (insert_delete_id m _ _ Hv).
    rewrite map_size_insert_None by apply lookup_delete_eq.
    rewrite (IH (delete (w + _padding) m)); [lia | exact Hb | lia |].
    intros k. rewrite lookup_delete. case_decide as Hk.
    + subst k. unfold ring_at.
      replace (w + _padding - _padding) with w by lia.
      destruct (Z.leb_spec _padding (w + _padding)); [|lia].
      destruct (Z.ltb_spec (w + _padding) (_padding + cap)); [|lia]. simpl.
      symmetry. apply lookup_ge_None_2. lia.
    + rewrite Hm. unfold ring_at.
      destruct (Z.leb_spec _padding k); [|reflexivity].
      destruct (Z.ltb_spec k (_padding + cap)); [|reflexivity]. simpl.
      assert (dist cap base (k - _padding) <> dist cap base w) by ring_arith.
      assert (0 <= dist cap base (k - _padding)) by ring_arith.
      destruct (Z.lt_ge_cases (dist cap base (k - _padding)) (Z.of_nat (length xs))).
      * rewrite lookup_app_l by lia. reflexivity.
      * rewrite !lookup_ge_None_2; [reflexivity | lia | rewrite length_app; simpl; lia].
Qed.

(** X2. Live objects.  In every reachable configuration, also in the
    middle of calls, the objects alive in the storage are at most
    [capacity()], and they are exactly the pending elements, less the one a
    [pop] has destroyed without having stored the read index yet, plus the
    one an insertion has constructed without having stored the write index
    yet.  So whenever no call stands between its construction or
    destruction and its store, the objects alive are as many as the
    pending elements. *)
Theorem live_objects_bound A capacity0 schedule c rs :
  reaches A capacity0 schedule c rs ->
  Z.of_nat (stdpp.base.size (_slots (object c))) <= capacity (object c)
  /\ (destroying (consumer c) <= length (pending rs))%nat
  /\ stdpp.base.size (_slots (object c))
     = (length (pending rs) - destroying (consumer c)
        + length (unpublished (producer c)))%nat
  /\ (quiescent c = true ->
      stdpp.base.size (_slots (object c)) = length (pending rs)).
Proof.
  intros Hreach. apply reaches_inv in Hreach.
  destruct Hreach as (Hwf & Hlen & Hp & Hc & Hs & _).
  pose proof Hwf as Hwf'. wf_facts Hwf'.
  unfold capacity. rewrite wrap_small by lia.
  assert (Hbase : 0 <= ring_base (object c) (consumer c) < _capacity (object c)
                  /\ Z.of_nat (length (drop (pops rs + destroying (consumer c)) (inserted rs)
                                       ++ unpublished (producer c)))
                     <= _capacity (object c) - 1
                  /\ (destroying (consumer c) <= length (pending rs))%nat).
  { unfold pending. rewrite length_app, !length_drop.
    destruct (consumer c), (producer c); simpl in *; ring_arith. }
  destruct Hbase as (Hbase & Hcount & Hdes).
  assert (Hfit' : Z.of_nat (length (drop (pops rs + destroying (consumer c)) (inserted rs)
                                     ++ unpublished (producer c)))
                  <= _capacity (object c)) by lia.
  rewrite (ring_size _ _ _ _ Hbase Hfit' Hs).
  split; [exact Hcount|]. split; [exact Hdes|].
  assert (Hexact : length (drop (pops rs + destroying (consumer c)) (inserted rs)
                           ++ unpublished (producer c))
                   = (length (pending rs) - destroying (consumer c)
                      + length (unpublished (producer c)))%nat).
  { unfold pending. rewrite length_app, !length_drop. lia. }
  split; [exact Hexact|].
  intros Hq. rewrite Hexact. unfold quiescent in Hq.
  destruct (producer c); try discriminate.
  destruct (consumer c); try discriminate; simpl; lia.
Qed.

(** ** Insertion, seen by the caller *)

Lemma pending_inserted rs rs' l :
  (pops rs <= length (inserted rs))%nat ->
  inserted rs' = l -> pops rs' = 0%nat ->
  pending (rs ++ rs') = pending rs ++ l.
Proof.
  intros Hle Hins Hpops. unfold pending.
  rewrite inserted_app, pops_app, Hins, Hpops, Nat.add_0_r.
  apply drop_app_le. exact Hle.
Qed.

Lemma reaches_pops_le A capacity0 schedule c rs :
  reaches A capacity0 schedule c rs -> (pops rs <= length (inserted rs))%nat.
Proof.
  intros Hreach. apply reaches_inv in Hreach.
  destruct Hreach as (Hwf & Hlen & _). wf_facts Hwf. ring_arith.
Qed.

(** X3. What [try_emplace] does to the queue.  Called by an idle producer in
    a reachable configuration, it returns true exactly when fewer than
    [capacity()] elements are pending, however stale the producer's cache;
    the configuration it leaves is reachable, with the value appended to the
    pending elements when it returned true and the pending elements as they
    were when it returned false. *)
Theorem try_emplace_effect A capacity0 schedule c rs v :
  reaches A capacity0 schedule c rs ->
  producer c = PIdle ->
  let r := try_emplace v (object c) in
  (value r = true <-> Z.of_nat (length (pending rs)) < capacity (object c))
  /\ exists schedule' rs',
       reaches A capacity0 (schedule ++ schedule')
               (mkConfig (after r) PIdle (consumer c)) (rs ++ rs')
       /\ pending (rs ++ rs') = pending rs ++ (if value r then [v] else [])
       /\ pops (rs ++ rs') = pops rs.
Proof.
  intros Hreach Hpp. cbv zeta.
  split; [exact (try_emplace_iff_room _ _ _ _ _ v Hreach Hpp)|].
  destruct (try_emplace_exec v c Hpp) as (s' & rs' & Hexec & Hins & Hpops).
  exists s', rs'. split; [exact (reaches_app _ _ _ _ _ _ _ _ Hreach Hexec)|].
  split.
  - apply pending_inserted; [exact (reaches_pops_le _ _ _ _ _ Hreach) | exact Hins | exact Hpops].
  - rewrite pops_app, Hpops. apply Nat.add_0_r.
Qed.

(** The waiting loop on a full queue, with nobody to remove an element:
    whatever the bound it leaves the object as it was and makes loads only. *)
Lemma emplace_wait_full_frame fuel :
  forall next q,
  next = _readIndexCache q -> next = _readIndex q ->
  after (emplace_wait fuel next q) = q
  /\ forallb is_load (accesses (emplace_wait fuel next q)) = true.
Proof.
  induction fuel as [|fuel IH]; intros next q Hc Hr; [split; reflexivity|].
  cbn [emplace_wait]. unfold bind, read, load, write. simpl.
  rewrite (proj2 (Z.eqb_eq _ _) Hc).
  assert (Hq : with_readIndexCache (_readIndex q) q = q).
  { destruct q. unfold with_readIndexCache. simpl in *. congruence. }
  rewrite Hq. specialize (IH next q Hc Hr).
  unfold after, accesses in *.
  destruct (emplace_wait fuel next q) as [[b q'] l]. simpl in *.
  exact IH.
Qed.

(** X4. [push] where there is room.  Called by an idle producer in a
    reachable configuration with fewer than [capacity()] elements pending,
    [push] returns once its loop is given two tests; it leaves the object and
    makes the accesses that [try_push] does, and the configuration it leaves
    is reachable with the value appended to the pending elements. *)
Theorem push_with_room A capacity0 schedule c rs v fuel :
  reaches A capacity0 schedule c rs ->
  producer c = PIdle ->
  Z.of_nat (length (pending rs)) < capacity (object c) ->
  let r := push (S (S fuel)) v (object c) in
  value r = Some tt
  /\ after r = after (try_push v (object c))
  /\ accesses r = accesses (try_push v (object c))
  /\ exists schedule' rs',
       reaches A capacity0 (schedule ++ schedule')
               (mkConfig (after r) PIdle (consumer c)) (rs ++ rs')
       /\ pending (rs ++ rs') = pending rs ++ [v].
Proof.
  intros Hreach Hpp Hroom. cbv zeta. unfold push, try_push.
  apply (try_emplace_iff_room _ _ _ _ _ v Hreach Hpp) in Hroom.
  destruct (emplace_exec fuel v c Hpp Hroom) as (s' & rs' & Hexec & Hins & Hpops).
  rewrite (emplace_try_emplace fuel v _ Hroom) in *.
  unfold value, after, accesses in *. simpl in *.
  repeat split.
  exists s', rs'. split; [exact (reaches_app _ _ _ _ _ _ _ _ Hreach Hexec)|].
  apply pending_inserted; [exact (reaches_pops_le _ _ _ _ _ Hreach) | exact Hins | exact Hpops].
Qed.

(** X5. [push] on a full queue with nobody removing.  Called by an idle
    producer in a reachable configuration with [capacity()] elements
    pending, and run without a step of the consumer, [push] does not return
    whatever the bound on its loop; it leaves the object exactly as it was
    and makes loads only. *)
Theorem push_on_full_queue_waits A capacity0 schedule c rs v fuel :
  reaches A capacity0 schedule c rs ->
  producer c = PIdle ->
  Z.of_nat (length (pending rs)) = capacity (object c) ->
  let r := push fuel v (object c) in
  value r = None
  /\ after r = object c
  /\ forallb is_load (accesses r) = true.
Proof.
  intros Hreach Hpp Hfull. cbv zeta. unfold push.
  assert (Hfalse : value (try_emplace v (object c)) = false).
  { destruct (value (try_emplace v (object c))) eqn:Hv; [|reflexivity].
    apply (try_emplace_iff_room _ _ _ _ _ v Hreach Hpp) in Hv. lia. }
  pose proof (try_emplace_false_iff v (object c)) as Hiff. cbv zeta in Hiff.
  destruct (proj1 Hiff Hfalse) as [Hc Hr].
  destruct (emplace_wait_full_frame fuel _ (object c) Hc Hr) as [Hq Hl].
  pose proof (emplace_wait_full fuel _ (object c) Hc Hr) as Hw.
  assert (Heq : emplace fuel v (object c)
                = (None, object c,
                   Load WriteIndex memory_order_relaxed (_writeIndex (object c))
                   :: accesses (emplace_wait fuel
                        (if wrap (_writeIndex (object c) + 1) =? _capacity (object c)
                         then 0 else wrap (_writeIndex (object c) + 1)) (object c)))).
  { unfold emplace. unfold bind at 1 2 3. unfold load at 1, read at 1. cbn [atomic_value].
    unfold value, after, accesses in *.
    destruct (emplace_wait fuel _ (object c)) as [[b q'] l]. simpl in *.
    subst b q'. simpl. rewrite app_nil_r. reflexivity. }
  rewrite Heq. unfold value, after, accesses in *. simpl.
  split; [reflexivity|]. split; [reflexivity | exact Hl].
Qed.

(** X6. The waiting loop of [emplace] under concurrency.  In a reachable
    configuration whose producer stands at the test of the loop: while
    [capacity()] elements are pending, a step of the producer reloads the
    read index and leaves the producer at the test, the slots and both
    indices as they were; as soon as fewer are pending, at most three steps
    of the producer construct the element, publish it and return. *)
Theorem emplace_waits_exactly_while_full A capacity0 schedule c rs w n v :
  reaches A capacity0 schedule c rs ->
  producer c = PEmplaceWait w n v ->
  (Z.of_nat (length (pending rs)) = capacity (object c) ->
   exists c', step run_producer c = Some (c', Running)
     /\ producer c' = PEmplaceWait w n v
     /\ consumer c' = consumer c
     /\ _slots (object c') = _slots (object c)
     /\ _writeIndex (object c') = _writeIndex (object c)
     /\ _readIndex (object c') = _readIndex (object c))
  /\ (Z.of_nat (length (pending rs)) < capacity (object c) ->
      exists k c' rs',
        (k <= 3)%nat
        /\ exec (repeat run_producer k) c = Some (c', rs')
        /\ producer c' = PIdle
        /\ consumer c' = consumer c
        /\ pending (rs ++ rs') = pending rs ++ [v]).
Proof.
  intros Hreach Hpp.
  pose proof (reaches_pops_le _ _ _ _ _ Hreach) as Hle.
  apply reaches_inv in Hreach.
  destruct Hreach as (Hwf & Hlen & Hp & _).
  rewrite Hpp in Hp. simpl in Hp. destruct Hp as [-> ->].
  wf_facts Hwf.
  assert (Hpend : Z.of_nat (length (pending rs))
                  = dist (_capacity (object c)) (_readIndex (object c))
                         (_writeIndex (object c))).
  { unfold pending. rewrite length_drop. ring_arith. }
  rewrite Hpend. unfold capacity. rewrite wrap_small by lia.
  destruct c as [q pp cp]. simpl in *. subst pp.
  split.
  - intros Hfull.
    assert (Hc : (succ (_capacity q) (_writeIndex q) =? _readIndexCache q) = true)
      by (apply Z.eqb_eq; ring_arith).
    eexists. run_goal. repeat split.
  - intros Hroom.
    assert (Hr : (succ (_capacity q) (_writeIndex q) =? _readIndex q) = false)
      by (apply Z.eqb_neq; ring_arith).
    destruct (succ (_capacity q) (_writeIndex q) =? _readIndexCache q) eqn:Hc.
    + exists 3%nat. do 2 eexists. split; [lia|]. split; [run_goal; reflexivity|].
      split; [reflexivity|]. split; [reflexivity|].
      apply pending_inserted; [exact Hle | reflexivity | reflexivity].
    + exists 2%nat. do 2 eexists. split; [lia|]. split; [run_goal; reflexivity|].
      split; [reflexivity|]. split; [reflexivity|].
      apply pending_inserted; [exact Hle | reflexivity | reflexivity].
Qed.

(** ** Observers, seen by the caller *)

(** X9. [size()] counts the pending elements.  In every reachable
    configuration whose [capacity()] is at most [PTRDIFF_MAX], [size()] is
    the number of elements inserted and not yet removed. *)
Theorem size_counts_pending A capacity0 schedule c rs :
  reaches A capacity0 schedule c rs ->
  capacity (object c) <= PTRDIFF_MAX ->
  size (object c) = Z.of_nat (length (pending rs)).
Proof.
  intros Hreach Hsmall. apply reaches_inv in Hreach.
  destruct Hreach as (Hwf & Hlen & _). wf_facts Hwf.
  unfold capacity in Hsmall. rewrite wrap_small in Hsmall by lia.
  rewrite size_dist by lia. rewrite <- dist_mod by assumption.
  unfold pending. rewrite length_drop. ring_arith.
Qed.

(** ** The contract of [pop] *)

(** X11. The assertion of [pop] holds for a caller that keeps the
    contract.  In every reachable configuration in which the pointer of a
    [front] is held, or [pop] has been entered and has not yet destroyed
    the element, the write index differs from the read index. *)
Theorem pop_assertion_holds A capacity0 schedule c rs :
  reaches A capacity0 schedule c rs ->
  popping (consumer c) = true ->
  pop_assertion (object c) = true.
Proof.
  intros Hreach Hcp. apply reaches_inv in Hreach.
  destruct Hreach as (Hwf & _ & _ & Hc & _). wf_facts Hwf.
  unfold pop_assertion. apply negb_true_iff, Z.eqb_neq.
  destruct (consumer c); try discriminate; simpl in Hc; ring_arith.
Qed.

(** X12. The assertion of [pop] does not enforce the contract.  With no
    member function running, one element pending and the consumer's cache
    of the write index equal to the read index, as after an insertion into
    an empty queue, a [pop] without a [front] before it passes the
    assertion and removes the element; but the cache is then behind the
    read index, and the next [front] returns, without a reload, a pointer
    to the slot after the destroyed one, which holds no object, although
    [empty()] is true. *)
Theorem pop_without_front A capacity0 schedule c rs x :
  reaches A capacity0 schedule c rs ->
  producer c = PIdle -> consumer c = CIdle ->
  _writeIndexCache (object c) = _readIndex (object c) ->
  pending rs = [x] ->
  let q := object c in
  let q' := after (pop q) in
  pop_assertion q = true
  /\ destroyed (accesses (pop q)) = [(_readIndex q + _padding, Some x)]
  /\ _slots q' = ∅
  /\ empty q' = true
  /\ _readIndex q' = (if _readIndex q + 1 =? _capacity q then 0 else _readIndex q + 1)
  /\ front q' = (Some (_readIndex q' + _padding), q',
                 [Load ReadIndex memory_order_relaxed (_readIndex q')])
  /\ _readIndex q' + _padding <> _readIndex q + _padding
  /\ _slots q' !! (_readIndex q' + _padding) = None.
Proof.
  intros Hreach Hpp Hcp Hcache Hpend.
  pose proof (consumer_view _ _ _ _ _ Hreach ltac:(rewrite Hcp; reflexivity))
    as (Hwf & Hlen & _ & Hhead & _).
  apply reaches_inv in Hreach.
  destruct Hreach as (_ & _ & _ & _ & Hs & _).
  rewrite Hpp, Hcp in Hs. simpl in Hs. rewrite Nat.add_0_r, app_nil_r in Hs.
  fold (pending rs) in Hs. rewrite Hpend in Hs, Hlen, Hhead. simpl in Hlen.
  specialize (Hhead ltac:(discriminate)). simpl in Hhead.
  pose proof Hwf as Hwf'. wf_facts Hwf'. cbv zeta.
  assert (HW : _writeIndex (object c)
               = succ (_capacity (object c)) (_readIndex (object c))) by ring_arith.
  assert (Hne : succ (_capacity (object c)) (_readIndex (object c))
                <> _readIndex (object c)) by ring_arith.
  assert (Hempty : _slots (after (pop (object c))) = ∅).
  { rewrite pop_unfold. cbv zeta. unfold after. simpl.
    rewrite wrap_small by lia. apply map_empty. intros k.
    assert (HR : 0 <= _readIndex (object c) < _capacity (object c)) by assumption.
    assert (H0 : Z.of_nat (length (@nil T)) <= _capacity (object c) - 2)
      by (simpl; lia).
    rewrite (ring_at_tail _ _ x [] _ HR H0 Hs).
    apply ring_at_nil. }
  split; [unfold pop_assertion; apply negb_true_iff, Z.eqb_neq; congruence|].
  split.
  { rewrite pop_unfold. cbv zeta. unfold accesses. simpl.
    rewrite wrap_small by lia. rewrite Hhead. reflexivity. }
  split; [exact Hempty|].
  assert (HR' : _readIndex (after (pop (object c)))
                = succ (_capacity (object c)) (_readIndex (object c))).
  { rewrite pop_unfold. cbv zeta. unfold after. simpl.
    rewrite wrap_small by lia. reflexivity. }
  assert (HW' : _writeIndex (after (pop (object c))) = _writeIndex (object c))
    by (rewrite pop_unfold; reflexivity).
  assert (Hwc' : _writeIndexCache (after (pop (object c)))
                 = _writeIndexCache (object c))
    by (rewrite pop_unfold; reflexivity).
  split; [unfold empty; rewrite HW', HR', HW; apply Z.eqb_refl|].
  split; [exact HR'|].
  split.
  { rewrite front_unfold. cbv zeta. rewrite Hwc', HR', Hcache.
    rewrite (proj2 (Z.eqb_neq _ _) Hne).
    rewrite wrap_small by ring_arith. reflexivity. }
  split; [rewrite HR'; lia|].
  rewrite Hempty. apply lookup_empty.
Qed.

(** ** One caller in both roles *)

Lemma use_try_push_unfold v q :
  value (use (use_try_push v) q) = answer_bool (value (try_emplace v q))
  /\ after (use (use_try_push v) q) = after (try_emplace v q).
Proof.
  unfold use, try_push, bind, ret, value, after.
  destruct (try_emplace v q) as [[ok q'] l]. split; reflexivity.
Qed.

Lemma use_front_unfold q :
  value (use use_front q)
  = answer_element (match value (front q) with
                    | Some p => _slots (after (front q)) !! p
                    | None => None
                    end)
  /\ after (use use_front q) = after (front q).
Proof.
  unfold use, peek, deref, read, bind, ret, value, after.
  destruct (front q) as [[[p|] q'] l]; split; reflexivity.
Qed.

Lemma use_front_pop_unfold q :
  value (use use_front_pop q)
  = answer_element (match value (front q) with
                    | Some p => _slots (after (front q)) !! p
                    | None => None
                    end)
  /\ after (use use_front_pop q)
     = match value (front q) with
       | Some _ => after (pop (after (front q)))
       | None => after (front q)
       end.
Proof.
  unfold use, peek, deref, read, bind, ret, value, after.
  destruct (front q) as [[[p|] q'] l]; simpl; [|split; reflexivity].
  destruct (pop q') as [[[] q''] l']. split; reflexivity.
Qed.

(** One use, from a reachable configuration with no member function
    running: the answer and the pending elements afterwards are those of
    the list, and the configuration left is again such a configuration. *)
Lemma use_refines A capacity0 schedule c rs u :
  reaches A capacity0 schedule c rs ->
  quiescent c = true ->
  capacity (object c) <= PTRDIFF_MAX ->
  exists schedule' rs' cp',
    reaches A capacity0 (schedule ++ schedule')
            (mkConfig (after (use u (object c))) PIdle cp') (rs ++ rs')
    /\ between_calls cp' = true
    /\ (value (use u (object c)), pending (rs ++ rs'))
       = fifo_use (capacity (object c)) u (pending rs).
Proof.
  intros Hreach Hq Hsmall.
  assert (Hcp : between_calls (consumer c) = true)
    by (unfold quiescent in Hq; destruct (producer c); try discriminate; exact Hq).
  assert (Hpp : producer c = PIdle)
    by (unfold quiescent in Hq; destruct (producer c); try discriminate; reflexivity).
  pose proof (reaches_pops_le _ _ _ _ _ Hreach) as Hle.
  assert (Hsame : reaches A capacity0 (schedule ++ [])
                          (mkConfig (object c) PIdle (consumer c)) (rs ++ [])).
  { rewrite !app_nil_r. destruct c as [q pp cp]. simpl in *. subst pp. exact Hreach. }
  destruct (front_spec _ _ _ _ _ Hreach Hcp) as (Hnull & _ & Hsome & Hempty & _).
  destruct (front_frame (object c)) as (Hs1 & _ & _ & _ & _).
  destruct (front_exec c Hcp) as (sf & rsf & Hexf & Hinsf & Hpopsf).
  rewrite Hpp in Hexf.
  assert (Hseen : match value (front (object c)) with
                  | Some p => _slots (after (front (object c))) !! p
                  | None => None
                  end = head (pending rs)).
  { destruct (value (front (object c))) as [p|] eqn:Hv.
    - destruct (Hsome p eq_refl) as (_ & y & -> & Hy). rewrite Hs1. exact Hy.
    - rewrite (proj1 Hnull eq_refl). reflexivity. }
  destruct u as [v| | | |].
  - (* try_push *)
    destruct (try_emplace_exec v c Hpp) as (s' & rs' & Hexec & Hins & Hpops).
    pose proof (try_emplace_iff_room _ _ _ _ _ v Hreach Hpp) as Hroom.
    destruct (use_try_push_unfold v (object c)) as [-> ->].
    exists s', rs', (consumer c).
    split; [exact (reaches_app _ _ _ _ _ _ _ _ Hreach Hexec)|].
    split; [exact Hcp|].
    rewrite (pending_inserted _ _ _ Hle Hins Hpops). simpl.
    destruct (value (try_emplace v (object c))).
    + destruct (Z.ltb_spec (Z.of_nat (length (pending rs))) (capacity (object c)));
        [reflexivity | exfalso; apply proj1 in Hroom; specialize (Hroom eq_refl); lia].
    + destruct (Z.ltb_spec (Z.of_nat (length (pending rs))) (capacity (object c)));
        [apply proj2 in Hroom; discriminate (Hroom ltac:(assumption))
        | rewrite app_nil_r; reflexivity].
  - (* front and a look *)
    destruct (use_front_unfold (object c)) as [-> ->].
    exists sf, rsf, (holding (value (front (object c)))).
    split; [exact (reaches_app _ _ _ _ _ _ _ _ Hreach Hexf)|].
    split; [destruct (value (front (object c))); reflexivity|].
    rewrite (pending_inserted _ _ _ Hle Hinsf Hpopsf), app_nil_r, Hseen. reflexivity.
  - (* front, a look and pop *)
    destruct (use_front_pop_unfold (object c)) as [-> ->].
    rewrite Hseen.
    destruct (value (front (object c))) as [p|] eqn:Hv.
    + pose proof (reaches_app _ _ _ _ _ _ _ _ Hreach Hexf) as Hreach1.
      pose proof (reaches_app _ _ _ _ _ _ _ _ Hreach1 (pop_exec _ _ _)) as Hreach2.
      exists (sf ++ [call_pop; run_consumer; run_consumer]),
             (rsf ++ [Running; Running; RetPop]), CIdle.
      rewrite !app_assoc.
      split; [exact Hreach2|]. split; [reflexivity|].
      rewrite pending_app by reflexivity. rewrite pending_app by exact Hinsf.
      rewrite Hpopsf. simpl. destruct (pending rs); reflexivity.
    + exists sf, rsf, CIdle.
      split; [exact (reaches_app _ _ _ _ _ _ _ _ Hreach Hexf)|].
      split; [reflexivity|].
      rewrite (pending_inserted _ _ _ Hle Hinsf Hpopsf), app_nil_r.
      rewrite (proj1 Hnull eq_refl). reflexivity.
  - (* size *)
    exists [], [], (consumer c).
    split; [exact Hsame|]. split; [exact Hcp|].
    rewrite app_nil_r. simpl. unfold value. simpl.
    apply reaches_inv in Hreach.
    destruct Hreach as (Hwf & Hlen & _). wf_facts Hwf.
    unfold capacity in Hsmall. rewrite wrap_small in Hsmall by lia.
    rewrite size_dist by lia. rewrite <- dist_mod by assumption.
    unfold pending. rewrite length_drop.
    repeat f_equal. ring_arith.
  - (* empty *)
    exists [], [], (consumer c).
    split; [exact Hsame|]. split; [exact Hcp|].
    rewrite app_nil_r. simpl. unfold value. simpl.
    destruct (pending rs) as [|y l] eqn:Hp.
    + rewrite (proj2 Hempty eq_refl). reflexivity.
    + destruct (empty (object c)); [|reflexivity].
      discriminate (proj1 Hempty eq_refl).
Qed.

Lemma reaches_capacity A capacity0 schedule c rs :
  reaches A capacity0 schedule c rs ->
  capacity (object c) = capacity (SPSCQueue_new A capacity0).
Proof.
  intros (_ & _ & Hexec). unfold capacity.
  rewrite (exec_capacity _ _ _ _ Hexec). reflexivity.
Qed.

Lemma uses_refine us :
  forall A capacity0 schedule c rs,
  reaches A capacity0 schedule c rs ->
  quiescent c = true ->
  capacity (object c) <= PTRDIFF_MAX ->
  value (uses us (object c)) = fifo_uses (capacity (object c)) us (pending rs).
Proof.
  induction us as [|u us IH]; intros A capacity0 schedule c rs Hreach Hq Hsmall;
    [reflexivity|].
  destruct (use_refines _ _ _ _ _ u Hreach Hq Hsmall)
    as (s' & rs' & cp' & Hreach' & Hcp' & Hstep).
  assert (Hcap : capacity (after (use u (object c))) = capacity (object c)).
  { rewrite (reaches_capacity _ _ _ _ _ Hreach).
    exact (reaches_capacity _ _ _ _ _ Hreach'). }
  specialize (IH _ _ _ _ _ Hreach' Hcp'). simpl object in IH.
  rewrite Hcap in IH. specialize (IH Hsmall).
  cbn [uses fifo_uses]. rewrite <- Hstep.
  unfold bind, ret, value, after in *.
  destruct (use u (object c)) as [[a q1] l1]. simpl in *.
  destruct (uses us q1) as [[answers q2] l2]. simpl in *.
  rewrite IH. reflexivity.
Qed.

(** X13. One caller in both roles sees a bounded queue.  On a queue
    constructed for a request below [SIZE_MAX], with [capacity()] at most
    [PTRDIFF_MAX], any sequence of [try_push], [front] with a look through
    the pointer, [front] with a look and [pop], [size()] and [empty()]
    gives the answers that the same sequence gives on a list of at most
    [capacity()] elements: an insertion is refused exactly when the list is
    full, the front is the oldest element, a removal takes the oldest
    element, and the size is the length. *)
Theorem sequential_use_is_a_bounded_fifo A capacity0 us :
  allocator_ok A -> 0 <= capacity0 < SIZE_MAX ->
  capacity (SPSCQueue_new A capacity0) <= PTRDIFF_MAX ->
  value (uses us (SPSCQueue_new A capacity0))
  = fifo_uses (capacity (SPSCQueue_new A capacity0)) us [].
Proof.
  intros HA Hc Hsmall.
  assert (Hreach : reaches A capacity0 [] (start A capacity0) []).
  { split; [exact HA|]. split; [exact Hc | reflexivity]. }
  exact (uses_refine us _ _ _ _ _ Hreach eq_refl Hsmall).
Qed.

(** ** Who touches what *)

Lemma emplace_wait_producer_side fuel :
  forall next q x,
  forallb producer_access (accesses (emplace_wait fuel next q)) = true
  /\ _writeIndex (after (emplace_wait fuel next q)) = _writeIndex q
  /\ _readIndex (after (emplace_wait fuel next q)) = _readIndex q
  /\ _slots (after (emplace_wait fuel next q)) = _slots q
  /\ _capacity (after (emplace_wait fuel next q)) = _capacity q
  /\ emplace_wait fuel next (with_writeIndexCache x q)
     = (value (emplace_wait fuel next q),
        with_writeIndexCache x (after (emplace_wait fuel next q)),
        accesses (emplace_wait fuel next q)).
Proof.
  induction fuel as [|fuel IH]; intros next q x.
  - repeat split.
  - destruct q as [c s w r wc rc].
    cbn [emplace_wait]. cbv [bind read load write ret atomic_value].
    simpl. destruct (next =? rc).
    + cbv [with_writeIndexCache with_readIndexCache]. simpl.
      specialize (IH next (mkSPSCQueue c s w r wc r) x).
      cbv [with_writeIndexCache] in IH. simpl in IH.
      destruct IH as (Hlog & HW & HR & Hs & Hc & Hx).
      rewrite Hx.
      destruct (emplace_wait fuel next (mkSPSCQueue c s w r wc r))
        as [[b q1] log1].
      cbv [value after accesses fst snd] in *. cbn [app forallb andb].
      repeat split; assumption.
    + repeat split.
Qed.

(** X14. The producer's side.  Whatever the state, [emplace] (for any bound
    on its loop), [try_emplace], [push] and [try_push] make only these shared
    accesses: relaxed loads and release stores of the write index, acquire
    loads of the read index, and constructions.  They leave the read index
    and [_capacity] as they were, destroy nothing, and neither read nor
    write [_writeIndexCache]: with another value in it they return the same,
    make the same accesses and leave the same state with that value still
    in it. *)
Theorem producer_side fuel v q x :
  let e := emplace fuel v q in
  let t := try_emplace v q in
  (forallb producer_access (accesses e) = true
   /\ _readIndex (after e) = _readIndex q
   /\ _capacity (after e) = _capacity q
   /\ (forall k, is_Some (_slots q !! k) -> is_Some (_slots (after e) !! k))
   /\ emplace fuel v (with_writeIndexCache x q)
      = (value e, with_writeIndexCache x (after e), accesses e))
  /\ (forallb producer_access (accesses t) = true
      /\ _readIndex (after t) = _readIndex q
      /\ _capacity (after t) = _capacity q
      /\ (forall k, is_Some (_slots q !! k) -> is_Some (_slots (after t) !! k))
      /\ try_emplace v (with_writeIndexCache x q)
         = (value t, with_writeIndexCache x (after t), accesses t))
  /\ push fuel v q = e /\ try_push v q = t.
Proof.
  assert (Hkeep : forall (m : gmap Z T) i k,
             is_Some (m !! k) -> is_Some (<[i := v]> m !! k)).
  { intros m i k Hk. destruct (decide (i = k)) as [->|Hne].
    - rewrite lookup_insert_eq. eexists. reflexivity.
    - rewrite lookup_insert_ne by exact Hne. exact Hk. }
  cbv zeta. split; [|split; [|split; reflexivity]].
  - unfold emplace. cbv [bind read load ret atomic_value].
    cbn [_writeIndex _capacity with_writeIndexCache].
    set (next := if wrap (_writeIndex q + 1) =? _capacity q then 0
                 else wrap (_writeIndex q + 1)).
    destruct (emplace_wait_producer_side fuel next q x)
      as (Hlog & HW & HR & Hs & Hc & Hx).
    rewrite Hx.
    destruct (emplace_wait fuel next q) as [[b q1] log1].
    cbv [value after accesses fst snd] in *.
    destruct b.
    + cbv [construct_and_publish bind placement_new store ret atomic_write
           with_slots with_writeIndex with_writeIndexCache].
      cbn [_slots _capacity _writeIndex _readIndex _writeIndexCache _readIndexCache
           app forallb andb].
      rewrite forallb_app, Hlog. cbn [forallb andb].
      split; [reflexivity|]. split; [exact HR|]. split; [exact Hc|].
      split; [|reflexivity].
      intros k Hk. apply Hkeep. rewrite Hs. exact Hk.
    + cbn [app forallb andb]. rewrite app_nil_r.
      split; [exact Hlog|]. split; [exact HR|]. split; [exact Hc|].
      split; [|reflexivity].
      intros k Hk. rewrite Hs. exact Hk.
  - destruct q as [c s w r wc rc]. unfold try_emplace.
    cbv [bind read load write ret atomic_value construct_and_publish
         placement_new store atomic_write with_writeIndexCache].
    simpl.
    set (next := if wrap (w + 1) =? c then 0 else wrap (w + 1)).
    destruct (next =? rc); simpl.
    + destruct (next =? r); simpl.
      * repeat split. intros k Hk. exact Hk.
      * repeat split. intros k Hk. apply Hkeep. exact Hk.
    + repeat split. intros k Hk. apply Hkeep. exact Hk.
Qed.

Lemma front_consumer_side q x :
  forallb consumer_access (accesses (front q)) = true
  /\ _writeIndex (after (front q)) = _writeIndex q
  /\ _readIndex (after (front q)) = _readIndex q
  /\ _capacity (after (front q)) = _capacity q
  /\ _slots (after (front q)) = _slots q
  /\ front (with_readIndexCache x q)
     = (value (front q), with_readIndexCache x (after (front q)), accesses (front q)).
Proof.
  destruct q as [c s w r wc rc]. unfold front.
  cbv [bind read load write ret atomic_value with_readIndexCache]. simpl.
  destruct (r =? wc); simpl.
  - destruct (w =? r); simpl; repeat split.
  - repeat split.
Qed.

Lemma pop_consumer_side q x :
  forallb consumer_access (accesses (pop q)) = true
  /\ _writeIndex (after (pop q)) = _writeIndex q
  /\ _capacity (after (pop q)) = _capacity q
  /\ (forall k, is_Some (_slots (after (pop q)) !! k) -> is_Some (_slots q !! k))
  /\ pop (with_readIndexCache x q)
     = (value (pop q), with_readIndexCache x (after (pop q)), accesses (pop q)).
Proof.
  destruct q as [c s w r wc rc]. unfold pop.
  cbv [bind read load write ret atomic_value destroy_at store atomic_write
       with_readIndexCache].
  simpl.
  split; [reflexivity|]. split; [reflexivity|]. split; [reflexivity|].
  split; [|reflexivity].
  intros k Hk.
  match type of Hk with
  | context [delete ?i _] => destruct (decide (i = k)) as [Heq|Hne]
  end.
  - rewrite <- Heq, lookup_delete_eq in Hk. destruct Hk; discriminate.
  - rewrite lookup_delete_ne in Hk by exact Hne. exact Hk.
Qed.

Lemma SPSCQueue_delete_none fuel q q1 l1 :
  front q = (None, q1, l1) ->
  SPSCQueue_delete (S fuel) q = (Some tt, q1, l1).
Proof.
  intros Hf. cbn [SPSCQueue_delete]. unfold bind. rewrite Hf.
  cbv [ret]. rewrite app_nil_r. reflexivity.
Qed.

Lemma delete_consumer_side fuel :
  forall q x,
  forallb consumer_access (accesses (SPSCQueue_delete fuel q)) = true
  /\ _writeIndex (after (SPSCQueue_delete fuel q)) = _writeIndex q
  /\ _capacity (after (SPSCQueue_delete fuel q)) = _capacity q
  /\ (forall k, is_Some (_slots (after (SPSCQueue_delete fuel q)) !! k)
                -> is_Some (_slots q !! k))
  /\ SPSCQueue_delete fuel (with_readIndexCache x q)
     = (value (SPSCQueue_delete fuel q),
        with_readIndexCache x (after (SPSCQueue_delete fuel q)),
        accesses (SPSCQueue_delete fuel q)).
Proof.
  induction fuel as [|fuel IH]; intros q x.
  - repeat split. intros k Hk. exact Hk.
  - destruct (front_consumer_side q x) as (Hfl & HfW & _ & Hfc & Hfs & Hfx).
    destruct (front q) as [[p q1] log1] eqn:Hf.
    cbv [value after accesses fst snd] in Hfl, HfW, Hfc, Hfs, Hfx.
    destruct p as [p|].
    + rewrite (SPSCQueue_delete_step fuel _ _ _ _ Hf).
      rewrite (SPSCQueue_delete_step fuel _ _ _ _ Hfx).
      destruct (pop_consumer_side q1 x) as (Hpl & HpW & Hpc & Hps & Hpx).
      rewrite Hpx. cbv zeta.
      change (after (value (pop q1), with_readIndexCache x (after (pop q1)),
                     accesses (pop q1)))
        with (with_readIndexCache x (after (pop q1))).
      change (accesses (value (pop q1), with_readIndexCache x (after (pop q1)),
                        accesses (pop q1)))
        with (accesses (pop q1)).
      destruct (IH (after (pop q1)) x) as (Hdl & HdW & Hdc & Hds & Hdx).
      rewrite Hdx.
      cbv [value after accesses fst snd] in *.
      rewrite !forallb_app, Hfl, Hpl, Hdl.
      split; [reflexivity|]. split; [congruence|]. split; [congruence|].
      split; [|reflexivity].
      intros k Hk. rewrite <- Hfs. apply Hps, Hds. exact Hk.
    + rewrite (SPSCQueue_delete_none fuel _ _ _ Hf).
      rewrite (SPSCQueue_delete_none fuel _ _ _ Hfx).
      cbv [value after accesses fst snd].
      split; [exact Hfl|]. split; [exact HfW|]. split; [exact Hfc|].
      split; [|reflexivity].
      intros k Hk. rewrite <- Hfs. exact Hk.
Qed.

(** X15. The consumer's side.  Whatever the state, [front], [pop] and the
    destructor (for any bound on its loop) make only these shared accesses:
    relaxed loads and release stores of the read index, acquire loads of
    the write index, and destructor calls.  They leave the write index and
    [_capacity] as they were, construct nothing, and neither read nor write
    [_readIndexCache]. *)
Theorem consumer_side fuel q x :
  let f := front q in
  let p := pop q in
  let d := SPSCQueue_delete fuel q in
  (forallb consumer_access (accesses f) = true
   /\ _writeIndex (after f) = _writeIndex q /\ _readIndex (after f) = _readIndex q
   /\ _capacity (after f) = _capacity q /\ _slots (after f) = _slots q
   /\ front (with_readIndexCache x q)
      = (value f, with_readIndexCache x (after f), accesses f))
  /\ (forallb consumer_access (accesses p) = true
      /\ _writeIndex (after p) = _writeIndex q
      /\ _capacity (after p) = _capacity q
      /\ (forall k, is_Some (_slots (after p) !! k) -> is_Some (_slots q !! k))
      /\ pop (with_readIndexCache x q)
         = (value p, with_readIndexCache x (after p), accesses p))
  /\ (forallb consumer_access (accesses d) = true
      /\ _writeIndex (after d) = _writeIndex q
      /\ _capacity (after d) = _capacity q
      /\ (forall k, is_Some (_slots (after d) !! k) -> is_Some (_slots q !! k))
      /\ SPSCQueue_delete fuel (with_readIndexCache x q)
         = (value d, with_readIndexCache x (after d), accesses d)).
Proof.
  cbv zeta. split; [exact (front_consumer_side q x)|].
  split; [exact (pop_consumer_side q x)|].
  exact (delete_consumer_side fuel q x).
Qed.

(** ** The storage *)

Lemma SPSCQueue_new_asked A capacity0 :
  _capacity (SPSCQueue_new A capacity0)
  = if has_allocate_at_least A
    then wrap (allocate_at_least_count A (slots_asked capacity0) - wrap (2 * _padding))
    else capacity_asked capacity0.
Proof. reflexivity. Qed.

Lemma capacity_asked_value capacity0 :
  0 <= capacity0 < SIZE_MAX ->
  capacity_asked capacity0 = Z.min (Z.max capacity0 1 + 1) (SIZE_MAX - 2 * _padding).
Proof.
  intros Hc.
  assert (HA : allocator_ok plain_allocator) by (intros H; discriminate).
  exact (SPSCQueue_new_capacity_value plain_allocator capacity0 HA Hc).
Qed.

Lemma slots_asked_value capacity0 :
  0 <= capacity0 < SIZE_MAX ->
  slots_asked capacity0
  = Z.min (Z.max capacity0 1 + 1) (SIZE_MAX - 2 * _padding) + 2 * _padding
  /\ 0 <= slots_asked capacity0 <= SIZE_MAX.
Proof.
  intros Hc. pose proof padding_range as Hpad.
  unfold slots_asked. rewrite (capacity_asked_value _ Hc).
  rewrite (wrap_small (2 * _padding)) by (unfold SIZE_MAX; lia).
  rewrite wrap_small by (unfold SIZE_MAX in *; lia).
  split; [reflexivity|]. unfold SIZE_MAX in *. lia.
Qed.

Lemma slots_allocated_value A capacity0 :
  allocator_ok A -> 0 <= capacity0 < SIZE_MAX ->
  slots_allocated (SPSCQueue_new A capacity0)
  = (if has_allocate_at_least A
     then allocate_at_least_count A (slots_asked capacity0)
     else slots_asked capacity0)
  /\ slots_asked capacity0 <= slots_allocated (SPSCQueue_new A capacity0).
Proof.
  intros HA Hc. pose proof padding_range as Hpad.
  destruct (slots_asked_value _ Hc) as [Hasked Hrange].
  unfold slots_allocated. rewrite SPSCQueue_new_asked.
  rewrite (wrap_small (2 * _padding)) by (unfold SIZE_MAX; lia).
  destruct (has_allocate_at_least A) eqn:Hhas.
  - specialize (HA Hhas (slots_asked capacity0) Hrange).
    rewrite (wrap_small (_ - _)) by (unfold SIZE_MAX in *; lia).
    rewrite wrap_small by (unfold SIZE_MAX in *; lia).
    split; lia.
  - unfold slots_asked.
    rewrite (wrap_small (2 * _padding)) by (unfold SIZE_MAX; lia).
    split; [reflexivity | lia].
Qed.

(** X8. Storage bounds.  In every reachable configuration every object
    alive sits in a slot of the ring, after the [_padding] slots in front
    and with at least [_padding] slots behind it inside the storage the
    constructor obtained.  That storage is what the constructor asked for
    when the allocator has no [allocate_at_least], and the count that
    [allocate_at_least] reported when it has, which is at least what was
    asked. *)
Theorem storage_bounds A capacity0 schedule c rs k :
  reaches A capacity0 schedule c rs ->
  is_Some (_slots (object c) !! k) ->
  _padding <= k < _padding + _capacity (object c)
  /\ k + _padding < slots_allocated (object c)
  /\ slots_allocated (object c)
     = (if has_allocate_at_least A
        then allocate_at_least_count A (slots_asked capacity0)
        else slots_asked capacity0)
  /\ slots_asked capacity0 <= slots_allocated (object c).
Proof.
  intros Hreach Hk.
  assert (Hsame : slots_allocated (object c)
                  = slots_allocated (SPSCQueue_new A capacity0)).
  { destruct Hreach as (_ & _ & He). unfold slots_allocated.
    rewrite (exec_capacity _ _ _ _ He). reflexivity. }
  destruct Hreach as (HA & Hc & He).
  destruct (slots_allocated_value A capacity0 HA Hc) as [Hval Hle].
  assert (Hreach : reaches A capacity0 schedule c rs)
    by (split; [exact HA|]; split; [exact Hc | exact He]).
  apply reaches_inv in Hreach.
  destruct Hreach as (Hwf & _ & _ & _ & Hs & _).
  wf_facts Hwf. rewrite Hs in Hk. unfold ring_at in Hk.
  rewrite Hsame, <- Hval. rewrite <- Hsame.
  split; [|split; [|split; [reflexivity | rewrite Hsame; exact Hle]]].
  - destruct (Z.leb_spec _padding k); simpl in Hk;
      [|destruct Hk; discriminate].
    destruct (Z.ltb_spec k (_padding + _capacity (object c))); simpl in Hk;
      [|destruct Hk; discriminate].
    lia.
  - unfold slots_allocated. rewrite (wrap_small (2 * _padding)) by lia.
    rewrite wrap_small by lia.
    destruct (Z.leb_spec _padding k); simpl in Hk;
      [|destruct Hk; discriminate].
    destruct (Z.ltb_spec k (_padding + _capacity (object c))); simpl in Hk;
      [|destruct Hk; discriminate].
    lia.
Qed.

(** ** Construction with [allocate_at_least] *)

(** X22. The constructor uses what it is granted.  With an allocator that
    has [allocate_at_least], for a request that the overflow guard does not
    cut, the ring and its two runs of padding take exactly the number of
    slots the allocator reported, and [capacity()] is at least the request
    (at least 1): the queue may hold more than was asked for. *)
Theorem constructor_uses_what_it_is_granted A capacity0 :
  allocator_ok A ->
  has_allocate_at_least A = true ->
  0 <= capacity0 ->
  Z.max capacity0 1 + 1 <= SIZE_MAX - 2 * _padding ->
  let q := SPSCQueue_new A capacity0 in
  _capacity q + 2 * _padding
  = allocate_at_least_count A (Z.max capacity0 1 + 1 + 2 * _padding)
  /\ slots_allocated q
     = allocate_at_least_count A (Z.max capacity0 1 + 1 + 2 * _padding)
  /\ Z.max capacity0 1 <= capacity q.
Proof.
  intros HA Hhas Hc Hfit. cbv zeta.
  pose proof padding_range as Hpad.
  assert (Hc' : 0 <= capacity0 < SIZE_MAX) by lia.
  pose proof (SPSCQueue_new_capacity_value A capacity0 HA Hc') as Hval.
  cbv zeta in Hval. rewrite Hhas in Hval.
  rewrite Z.min_l in Hval by lia.
  assert (Hgrant := HA Hhas (Z.max capacity0 1 + 1 + 2 * _padding)).
  unfold slots_allocated, capacity. rewrite Hval.
  rewrite (wrap_small (2 * _padding)) by (unfold SIZE_MAX; lia).
  rewrite !wrap_small by (unfold SIZE_MAX in *; lia).
  lia.
Qed.

(** ** The indices count the calls *)

Lemma step_indices a c c' r rs :
  Inv c rs -> step a c = Some (c', r) ->
  _writeIndex (object c')
  = match r with
    | RetEmplace _ | RetTryEmplace _ true =>
        succ (_capacity (object c)) (_writeIndex (object c))
    | _ => _writeIndex (object c)
    end
  /\ _readIndex (object c')
     = match r with
       | RetPop => succ (_capacity (object c)) (_readIndex (object c))
       | _ => _readIndex (object c)
       end.
Proof.
  intros HI Hstep. destruct c as [q pp cp].
  destruct HI as (_ & _ & Hp & Hc & _). simpl in Hp, Hc.
  unfold step in Hstep.
  destruct a, pp, cp; simpl in Hstep; try discriminate;
    run_op Hstep;
    repeat match type of Hstep with
           | context [?a =? ?b] => destruct (a =? b)
           end;
    try match type of Hstep with
        | context [if ?t then _ else _] => destruct t
        end;
    injection Hstep as <- <-; simpl;
    (split; first [reflexivity | exact (proj1 Hp) | exact (proj1 Hc)]).
Qed.

Lemma reaches_indices A capacity0 schedule c rs :
  reaches A capacity0 schedule c rs ->
  _writeIndex (object c) = Z.of_nat (length (inserted rs)) mod _capacity (object c)
  /\ _readIndex (object c) = Z.of_nat (pops rs) mod _capacity (object c).
Proof.
  intros (HA & Hc & Hexec). revert c rs Hexec.
  induction schedule as [|a schedule IH] using rev_ind; intros c rs Hexec.
  - injection Hexec as <- <-.
    pose proof (SPSCQueue_new_capacity A capacity0 HA Hc) as [Hcap _].
    change (inserted []) with (@nil T). change (pops []) with 0%nat.
    simpl length. unfold start. cbn [object].
    change (_writeIndex (SPSCQueue_new A capacity0)) with 0.
    change (_readIndex (SPSCQueue_new A capacity0)) with 0.
    rewrite Z.mod_0_l by lia. split; reflexivity.
  - rewrite exec_snoc in Hexec.
    destruct (exec schedule (start A capacity0)) as [[c1 rs1]|] eqn:He; [|discriminate].
    destruct (step a c1) as [[c2 r]|] eqn:Hstep; [|discriminate].
    injection Hexec as <- <-.
    assert (Hreach : reaches A capacity0 schedule c1 rs1).
    { split; [exact HA|]. split; [exact Hc | exact He]. }
    pose proof (reaches_inv _ _ _ _ _ Hreach) as HI.
    destruct (IH c1 rs1 eq_refl) as [HW HR].
    destruct (step_indices _ _ _ _ _ HI Hstep) as [HW' HR'].
    rewrite (step_capacity _ _ _ _ Hstep).
    destruct HI as (Hwf & _). wf_facts Hwf.
    rewrite inserted_snoc, pops_snoc, length_app, HW', HR'.
    assert (Hsucc : forall n : nat,
               succ (_capacity (object c1)) (Z.of_nat n mod _capacity (object c1))
               = Z.of_nat (n + 1) mod _capacity (object c1)).
    { intros n. rewrite succ_mod by (apply Z.mod_pos_bound; lia).
      rewrite Zplus_mod_idemp_l. f_equal. lia. }
    split.
    + destruct r as [|v|v [|]| |]; simpl length; rewrite ?Nat.add_0_r;
        rewrite HW; try reflexivity; apply Hsucc.
    + destruct r as [|v|v [|]| |]; rewrite ?Nat.add_0_r;
        rewrite HR; try reflexivity; apply Hsucc.
Qed.

(** C8. Cursor range.  In every reachable configuration both indices lie in
    [0, _capacity); a transition that returns from an insertion moves the
    write index to its successor and leaves the read index, a transition that
    returns from [pop] moves the read index to its successor and leaves the
    write index, and every other transition leaves both; the successor of
    [i] is [i + 1], or 0 exactly when [i + 1] is [_capacity].  And the
    operations do return and advance: an insertion that is called with room
    in the queue returns, as [try_emplace] with true and as [emplace], with
    the write index at its successor and the read index left, in the member
    function and in a run of the two-thread system that ends with the
    producer idle; and a [pop] called with the pointer of a [front] runs in
    three transitions to its return, with the read index at its successor
    and the write index left. *)
Theorem cursor_range A capacity0 schedule c rs :
  reaches A capacity0 schedule c rs ->
  let cap := _capacity (object c) in
  let W := _writeIndex (object c) in
  let R := _readIndex (object c) in
  0 <= W < cap /\ 0 <= R < cap /\
  (forall a c' r, step a c = Some (c', r) ->
    _capacity (object c') = cap /\
    match r with
    | RetEmplace _ | RetTryEmplace _ true =>
        _writeIndex (object c') = (if W + 1 =? cap then 0 else W + 1)
        /\ _readIndex (object c') = R
    | RetPop =>
        _readIndex (object c') = (if R + 1 =? cap then 0 else R + 1)
        /\ _writeIndex (object c') = W
    | _ => _writeIndex (object c') = W /\ _readIndex (object c') = R
    end) /\
  (forall v, producer c = PIdle ->
     Z.of_nat (length (pending rs)) < capacity (object c) ->
     let r := try_emplace v (object c) in
     value r = true
     /\ _writeIndex (after r) = (if W + 1 =? cap then 0 else W + 1)
     /\ _readIndex (after r) = R
     /\ (forall fuel, emplace (S (S fuel)) v (object c) = (Some tt, after r, accesses r))
     /\ exists schedule' rs',
          exec schedule' c = Some (mkConfig (after r) PIdle (consumer c), rs')
          /\ inserted rs' = [v] /\ pops rs' = 0%nat) /\
  (forall p, consumer c = CHold p ->
     let r := pop (object c) in
     _readIndex (after r) = (if R + 1 =? cap then 0 else R + 1)
     /\ _writeIndex (after r) = W
     /\ exec [call_pop; run_consumer; run_consumer] c
        = Some (mkConfig (after r) (producer c) CIdle, [Running; Running; RetPop])).
Proof.
  intros Hreach. pose proof (reaches_inv _ _ _ _ _ Hreach) as HI.
  destruct HI as (Hwf & _ & Hp & Hc & _).
  pose proof Hwf as Hwf'. wf_facts Hwf'.
  split; [assumption|]. split; [assumption|].
  split; [|split].
  - clear Hreach. intros a c' r Hstep. destruct c as [q pp cp]. simpl in *.
    unfold step in Hstep.
    destruct a, pp, cp; simpl in Hstep; try discriminate;
      run_op Hstep;
      repeat match type of Hstep with
             | context [?a =? ?b] => destruct (a =? b)
             end;
      try destruct try;
      injection Hstep as <- <-; simpl in *;
      repeat split; try reflexivity;
      try (rewrite (proj1 Hp); reflexivity);
      try (rewrite (proj1 Hc); reflexivity).
  - intros v Hidle Hroom. cbv zeta.
    pose proof (proj2 (try_emplace_iff_room _ _ _ _ _ v Hreach Hidle) Hroom) as Hok.
    destruct (try_emplace_exec v c Hidle) as (s' & rs' & Hexec & Hins & Hpops).
    rewrite Hok in Hins.
    pose proof (reaches_app _ _ _ _ _ _ _ _ Hreach Hexec) as Hreach'.
    destruct (reaches_indices _ _ _ _ _ Hreach) as [HW HR].
    destruct (reaches_indices _ _ _ _ _ Hreach') as [HW' HR'].
    pose proof (exec_capacity _ _ _ _ Hexec) as Hsame.
    cbn [object] in Hsame, HW', HR'.
    rewrite inserted_app, Hins, length_app, Hsame in HW'.
    rewrite pops_app, Hpops, Nat.add_0_r, Hsame in HR'.
    split; [exact Hok|]. split; [|split; [congruence|split]].
    + change (if _writeIndex (object c) + 1 =? _capacity (object c) then 0
              else _writeIndex (object c) + 1)
        with (succ (_capacity (object c)) (_writeIndex (object c))).
      rewrite succ_mod by assumption. rewrite HW', HW, Zplus_mod_idemp_l.
      f_equal. cbn [length]. lia.
    + intros fuel. exact (emplace_try_emplace fuel v (object c) Hok).
    + exists s', rs'. split; [exact Hexec|]. split; [exact Hins | exact Hpops].
  - clear Hreach. intros p Hcp. cbv zeta. destruct c as [q pp cp].
    cbn [object producer consumer] in *. subst cp.
    rewrite pop_exec. rewrite pop_unfold. cbv zeta. unfold after. simpl.
    rewrite wrap_small by lia.
    split; [reflexivity|]. split; reflexivity.
Qed.

(** X16. The indices count the calls.  In every reachable state the write
    index is the number of insertions that have returned and the read index
    the number of [pop] calls that have returned, both modulo [_capacity]:
    an index moves exactly when its call returns, by one slot. *)
Theorem indices_count_calls A capacity0 schedule c rs :
  reaches A capacity0 schedule c rs ->
  _writeIndex (object c) = Z.of_nat (length (inserted rs)) mod _capacity (object c)
  /\ _readIndex (object c) = Z.of_nat (pops rs) mod _capacity (object c).
Proof. exact (reaches_indices A capacity0 schedule c rs). Qed.

(** ** The slack slot *)

(** The live elements leave at least one slot of the ring free, and two
    while a [pop] has destroyed its element and not yet stored the index. *)
Lemma live_window c rs :
  Inv c rs ->
  0 <= ring_base (object c) (consumer c) < _capacity (object c)
  /\ Z.of_nat (length (drop (pops rs + destroying (consumer c)) (inserted rs)
                       ++ unpublished (producer c)))
     + Z.of_nat (destroying (consumer c)) <= _capacity (object c) - 1.
Proof.
  intros (Hwf & Hlen & Hp & Hc & _). wf_facts Hwf.
  rewrite length_app, length_drop.
  destruct (consumer c), (producer c); simpl in *; ring_arith.
Qed.

(** A slot at least as far from the oldest live element as there are live
    elements holds no object. *)
Lemma beyond_live_window c rs i :
  Inv c rs ->
  0 <= i < _capacity (object c) ->
  Z.of_nat (length (drop (pops rs + destroying (consumer c)) (inserted rs)
                    ++ unpublished (producer c)))
  <= dist (_capacity (object c)) (ring_base (object c) (consumer c)) i ->
  _slots (object c) !! (i + _padding) = None.
Proof.
  intros HI Hi Hfar.
  destruct HI as (_ & _ & _ & _ & Hs & _).
  rewrite Hs. unfold ring_at.
  replace (i + _padding - _padding) with i by lia.
  destruct (_ && _); [|reflexivity].
  apply lookup_ge_None_2. lia.
Qed.

(** X17. The vacated slot.  After [front] returned a pointer and until the
    second [pop] after that returns, the slot pointed to holds no object
    from the moment the first [pop] has returned: the producer, whatever it
    does, does not construct into it.  A read through the pointer after
    [pop] therefore never meets a newer element. *)
Theorem vacated_slot_stays_empty A capacity0 schedule c rs p schedule' c' rs' :
  reaches A capacity0 schedule c rs ->
  consumer c = CHold p ->
  exec schedule' c = Some (c', rs') ->
  pops rs' = 1%nat ->
  _slots (object c') !! p = None.
Proof.
  intros Hreach Hcp Hexec Hone.
  pose proof (reaches_app _ _ _ _ _ _ _ _ Hreach Hexec) as Hreach'.
  pose proof (reaches_inv _ _ _ _ _ Hreach) as HI.
  pose proof (reaches_inv _ _ _ _ _ Hreach') as HI'.
  destruct (reaches_indices _ _ _ _ _ Hreach) as [_ HR].
  destruct (reaches_indices _ _ _ _ _ Hreach') as [_ HR'].
  pose proof (exec_capacity _ _ _ _ Hexec) as Hcap.
  rewrite pops_app, Hone, Hcap in HR'.
  destruct HI as (Hwf & _ & _ & Hc & _).
  rewrite Hcp in Hc. simpl in Hc. destruct Hc as (-> & _ & _).
  destruct (live_window _ _ HI') as [Hbase Hcount].
  pose proof HI' as (Hwf' & _ & _ & Hc' & _).
  wf_facts Hwf. destruct Hwf' as [_ _ HRr' _ _ _].
  assert (Hnext : _readIndex (object c')
                  = succ (_capacity (object c)) (_readIndex (object c))).
  { rewrite succ_mod by lia. rewrite HR', HR, Zplus_mod_idemp_l.
    f_equal. lia. }
  apply (beyond_live_window _ _ _ HI'); [lia|].
  rewrite Hcap in *.
  destruct (consumer c'); simpl in *; ring_arith.
Qed.

(** ** Answers under interleaving *)

Lemma pending_length rs :
  length (pending rs) = (length (inserted rs) - pops rs)%nat.
Proof. unfold pending. apply length_drop. Qed.

(** X18. No refusal without cause.  Under any interleaving, when a
    [try_emplace] returns false, [capacity()] elements are pending at the
    moment of its acquire load of the read index, which is its last step:
    the refusal is never due to a stale cache alone.  The step changes
    neither the slots nor an index. *)
Theorem refused_only_when_full A capacity0 schedule c rs a c' v :
  reaches A capacity0 schedule c rs ->
  step a c = Some (c', RetTryEmplace v false) ->
  Z.of_nat (length (pending rs)) = capacity (object c)
  /\ _slots (object c') = _slots (object c)
  /\ _writeIndex (object c') = _writeIndex (object c)
  /\ _readIndex (object c') = _readIndex (object c).
Proof.
  intros Hreach Hstep.
  pose proof (reaches_pops_le _ _ _ _ _ Hreach) as Hle.
  apply reaches_inv in Hreach.
  destruct Hreach as (Hwf & Hlen & Hp & _).
  wf_facts Hwf. rewrite pending_length.
  unfold capacity. rewrite wrap_small by lia.
  destruct c as [q pp cp]. cbn [object producer consumer] in *.
  unfold step in Hstep.
  destruct a, pp, cp; simpl in Hstep; try discriminate;
    run_op Hstep;
    repeat match type of Hstep with
           | context [?x =? ?y] => destruct (Z.eqb_spec x y)
           end;
    try match type of Hstep with
        | context [if ?t then _ else _] => destruct t
        end;
    try discriminate;
    injection Hstep as <- <-; simpl in Hp; destruct Hp as [-> ->];
    (split; [ring_arith | repeat split]).
Qed.

(** X19. No null without cause.  Under any interleaving, when a [front]
    returns [nullptr], no element is pending at the moment of its acquire
    load of the write index, which is its last step: every insertion that
    has returned by then has been matched by a [pop]. *)
Theorem null_only_when_empty A capacity0 schedule c rs a c' seen :
  reaches A capacity0 schedule c rs ->
  step a c = Some (c', RetFront None seen) ->
  pending rs = [] /\ seen = None
  /\ _slots (object c') = _slots (object c)
  /\ _writeIndex (object c') = _writeIndex (object c)
  /\ _readIndex (object c') = _readIndex (object c).
Proof.
  intros Hreach Hstep.
  pose proof (reaches_pops_le _ _ _ _ _ Hreach) as Hle.
  apply reaches_inv in Hreach.
  destruct Hreach as (Hwf & Hlen & _ & Hc & _).
  wf_facts Hwf.
  assert (Hnil : length (pending rs) = 0%nat -> pending rs = [])
    by (destruct (pending rs); [reflexivity | discriminate]).
  rewrite pending_length in Hnil.
  destruct c as [q pp cp]. cbn [object producer consumer] in *.
  unfold step in Hstep.
  destruct a, pp, cp; simpl in Hstep; try discriminate;
    run_op Hstep;
    repeat match type of Hstep with
           | context [?x =? ?y] => destruct (Z.eqb_spec x y)
           end;
    try match type of Hstep with
        | context [if ?t then _ else _] => destruct t
        end;
    try discriminate;
    injection Hstep as <- <-; simpl in Hc; subst;
    (split; [apply Hnil; ring_arith | repeat split]).
Qed.

(** * The program of [src/main/spscqueue.cpp] *)

(** ** Single transitions of the queue *)

Lemma step_call_emplace c v :
  producer c = PIdle ->
  exists c',
    step (call_emplace v) c = Some (c', Running)
    /\ producer c'
       = PEmplaceWait (_writeIndex (object c))
           (if wrap (_writeIndex (object c) + 1) =? _capacity (object c)
            then 0 else wrap (_writeIndex (object c) + 1)) v
    /\ consumer c' = consumer c
    /\ _readIndexCache (object c') = _readIndexCache (object c).
Proof.
  intros Hp. destruct c as [q pp cp]. simpl in Hp. subst pp.
  eexists. split; [reflexivity|]. repeat split.
Qed.

Lemma step_emplace_construct c w n v :
  producer c = PEmplaceWait w n v ->
  n <> _readIndexCache (object c) ->
  exists c',
    step run_producer c = Some (c', Running)
    /\ producer c' = PPublish n v false
    /\ consumer c' = consumer c
    /\ _readIndexCache (object c') = _readIndexCache (object c).
Proof.
  intros Hp Hne. destruct c as [q pp cp]. simpl in Hp, Hne. subst pp.
  apply Z.eqb_neq in Hne.
  unfold step. cbn [producer producer_step object consumer].
  cbv [bind read]. rewrite Hne.
  eexists. split; [reflexivity|]. repeat split.
Qed.

Lemma step_emplace_publish c n v :
  producer c = PPublish n v false ->
  exists c',
    step run_producer c = Some (c', RetEmplace v)
    /\ producer c' = PIdle
    /\ consumer c' = consumer c
    /\ _readIndexCache (object c') = _readIndexCache (object c).
Proof.
  intros Hp. destruct c as [q pp cp]. simpl in Hp. subst pp.
  eexists. split; [reflexivity|]. repeat split.
Qed.

Lemma step_call_front c :
  consumer c = CIdle ->
  exists c' r,
    step call_front c = Some (c', r)
    /\ producer c' = producer c
    /\ _readIndexCache (object c') = _readIndexCache (object c)
    /\ ((r = Running /\ exists x, consumer c' = CReload x)
        \/ (exists p seen, r = RetFront (Some p) seen /\ consumer c' = CHold p)).
Proof.
  intros Hc. destruct c as [q pp cp]. simpl in Hc. subst cp.
  unfold step. cbn [consumer consumer_step object producer].
  cbv [front_begin bind load read ret deref atomic_value].
  destruct (_readIndex q =? _writeIndexCache q).
  - eexists _, _. split; [reflexivity|]. split; [reflexivity|]. split; [reflexivity|].
    left. split; [reflexivity|]. eexists. reflexivity.
  - eexists _, _. split; [reflexivity|]. split; [reflexivity|]. split; [reflexivity|].
    right. eexists _, _. split; reflexivity.
Qed.

Lemma step_front_reload c x :
  consumer c = CReload x ->
  exists c' r,
    step run_consumer c = Some (c', r)
    /\ producer c' = producer c
    /\ _readIndexCache (object c') = _readIndexCache (object c)
    /\ ((r = RetFront None None /\ consumer c' = CIdle)
        \/ (exists p seen, r = RetFront (Some p) seen /\ consumer c' = CHold p)).
Proof.
  intros Hc. destruct c as [q pp cp]. simpl in Hc. subst cp.
  unfold step. cbn [consumer consumer_step object producer].
  cbv [bind load read write ret deref atomic_value].
  cbn [_writeIndexCache with_writeIndexCache].
  destruct (_writeIndex q =? x).
  - eexists _, _. split; [reflexivity|]. split; [reflexivity|]. split; [reflexivity|].
    left. split; reflexivity.
  - eexists _, _. split; [reflexivity|]. split; [reflexivity|]. split; [reflexivity|].
    right. eexists _, _. split; reflexivity.
Qed.

Lemma step_call_pop c p :
  consumer c = CHold p ->
  exists c',
    step call_pop c = Some (c', Running)
    /\ producer c' = producer c
    /\ _readIndexCache (object c') = _readIndexCache (object c)
    /\ consumer c' = CDestroy (_readIndex (object c)).
Proof.
  intros Hc. destruct c as [q pp cp]. simpl in Hc. subst cp.
  eexists. split; [reflexivity|]. repeat split.
Qed.

Lemma step_pop_destroy c x :
  consumer c = CDestroy x ->
  exists c' n,
    step run_consumer c = Some (c', Running)
    /\ producer c' = producer c
    /\ _readIndexCache (object c') = _readIndexCache (object c)
    /\ consumer c' = CStore n.
Proof.
  intros Hc. destruct c as [q pp cp]. simpl in Hc. subst cp.
  eexists _, _. split; [reflexivity|]. repeat split.
Qed.

Lemma step_pop_store c n :
  consumer c = CStore n ->
  exists c',
    step run_consumer c = Some (c', RetPop)
    /\ producer c' = producer c
    /\ _readIndexCache (object c') = _readIndexCache (object c)
    /\ consumer c' = CIdle.
Proof.
  intros Hc. destruct c as [q pp cp]. simpl in Hc. subst cp.
  eexists. split; [reflexivity|]. repeat split.
Qed.

Lemma reaches_step A capacity0 schedule c rs a c' r :
  reaches A capacity0 schedule c rs ->
  step a c = Some (c', r) ->
  reaches A capacity0 (schedule ++ [a]) c' (rs ++ [r]).
Proof.
  intros Hreach Hstep. apply (reaches_app _ _ _ _ _ _ _ _ Hreach).
  cbn [exec]. rewrite Hstep. reflexivity.
Qed.

(** What the slot of a held pointer holds. *)
Lemma held_slot A capacity0 schedule c rs p :
  reaches A capacity0 schedule c rs ->
  consumer c = CHold p ->
  p = _readIndex (object c) + _padding
  /\ (pops rs < length (inserted rs))%nat
  /\ _slots (object c) !! p = inserted rs !! pops rs.
Proof.
  intros Hreach Hcp. apply reaches_inv in Hreach.
  destruct Hreach as (Hwf & Hlen & _ & Hc & Hs & _).
  rewrite Hcp in Hc, Hs. simpl in Hc, Hs. destruct Hc as (-> & Hne & Hshown).
  pose proof Hwf as Hwf'. wf_facts Hwf'.
  assert (Hlt : (pops rs < length (inserted rs))%nat) by ring_arith.
  split; [reflexivity|]. split; [exact Hlt|].
  rewrite Hs, ring_at_head, Nat.add_0_r by assumption.
  apply head_drop_app. exact Hlt.
Qed.

Lemma seqZ_snoc i : 0 <= i -> seqZ 0 (i + 1) = seqZ 0 i ++ [i].
Proof.
  intros Hi. rewrite seqZ_app by lia. reflexivity.
Qed.

Lemma program_capacity A :
  allocator_ok A -> 11 <= _capacity (SPSCQueue_new A 10).
Proof.
  intros HA.
  assert (Hc : 0 <= 10 < SIZE_MAX) by (unfold SIZE_MAX; lia).
  rewrite (SPSCQueue_new_capacity_value A 10 HA Hc). cbv zeta.
  pose proof padding_range as Hpad.
  assert (Hmin : Z.min (Z.max 10 1 + 1) (SIZE_MAX - 2 * _padding) = 11)
    by (unfold SIZE_MAX; lia).
  rewrite Hmin.
  destruct (has_allocate_at_least A) eqn:Hhas; [|lia].
  specialize (HA Hhas (11 + 2 * _padding)).
  unfold SIZE_MAX in HA. lia.
Qed.

(** ** The invariant of the program *)

Section MainProgramProofs.

Variable T_of_int : Z -> T.

Lemma run_program_snoc turns t s :
  run_program T_of_int (turns ++ [t]) s =
  match run_program T_of_int turns s with
  | Some s1 => turn T_of_int t s1
  | None => None
  end.
Proof.
  revert s. induction turns as [|t' turns IH]; intros s; cbn [app run_program].
  - destruct (turn T_of_int t s); reflexivity.
  - destruct (turn T_of_int t' s); [apply IH | reflexivity].
Qed.

Lemma producer_turns_snoc turns t :
  producer_turns (turns ++ [t])
  = producer_turns turns + (if is_pthread t then 1 else 0).
Proof.
  unfold producer_turns. rewrite List.filter_app, length_app.
  cbn [List.filter]. destruct (is_pthread t); cbn [length]; lia.
Qed.

Lemma producer_frame s s' :
  producer_at s' = producer_at s ->
  producer_i s' = producer_i s ->
  producer (queue s') = producer (queue s) ->
  (producer_link T_of_int s -> producer_link T_of_int s')
  /\ producer_progress s' = producer_progress s
  /\ pushes_done s' = pushes_done s.
Proof.
  intros Hat Hi Hp.
  unfold producer_link, producer_progress, pushes_done.
  rewrite Hat, Hi, Hp. repeat split. intros H. exact H.
Qed.

Lemma consumer_frame s s' np :
  consumer_at s' = consumer_at s ->
  consumer (queue s') = consumer (queue s) ->
  (consumer_link s np -> consumer_link s' np)
  /\ pop_lines_due s' np = pop_lines_due s np.
Proof.
  intros Hat Hc. unfold consumer_link, pop_lines_due.
  rewrite Hat, Hc. split; [intros H; exact H | reflexivity].
Qed.

Lemma pop_lines_frame s s' np :
  pop_lines s' = pop_lines s ->
  consumer_at s' = consumer_at s ->
  pop_lines s = replicate (pop_lines_due s np) None ->
  pop_lines s' = replicate (pop_lines_due s' np) None.
Proof.
  intros Hl Hat H. unfold pop_lines_due in *. rewrite Hl, Hat. exact H.
Qed.

(** What the invariant says about the indices: no index has wrapped. *)
Lemma program_facts A turns s schedule rs :
  allocator_ok A ->
  program_inv T_of_int A turns s schedule rs ->
  11 <= _capacity (object (queue s))
  /\ 0 <= pushes_done s <= 10
  /\ _writeIndex (object (queue s)) = pushes_done s
  /\ _readIndex (object (queue s)) = Z.of_nat (pops rs)
  /\ Z.of_nat (pops rs) <= pushes_done s
  /\ length (inserted rs) = Z.to_nat (pushes_done s).
Proof.
  intros HA (Hreach & Hins & Hi & Hpl & _).
  assert (Hcap : 11 <= _capacity (object (queue s))).
  { destruct Hreach as (_ & _ & He). rewrite (exec_capacity _ _ _ _ He).
    apply program_capacity, HA. }
  assert (Hdone : 0 <= pushes_done s <= 10).
  { unfold pushes_done. unfold producer_link in Hpl.
    destruct (producer_at s); lia. }
  assert (Hlen : length (inserted rs) = Z.to_nat (pushes_done s)).
  { rewrite Hins, length_fmap, length_seqZ. reflexivity. }
  pose proof (reaches_pops_le _ _ _ _ _ Hreach) as Hle.
  destruct (reaches_indices _ _ _ _ _ Hreach) as [HW HR].
  rewrite Hlen in HW, Hle.
  rewrite Z.mod_small in HW by lia. rewrite Z.mod_small in HR by lia.
  split; [exact Hcap|]. split; [exact Hdone|]. split; [lia|].
  split; [exact HR|]. split; [lia | exact Hlen].
Qed.

(** At line 25 the slot [i] points to holds no object. *)
Lemma pop_line_slot A turns s schedule rs p :
  allocator_ok A ->
  program_inv T_of_int A turns s schedule rs ->
  consumer_at s = at_pop_line p ->
  _slots (object (queue s)) !! p = None.
Proof.
  intros HA HI Hat.
  pose proof (program_facts _ _ _ _ _ HA HI) as (Hcap & Hdone & HW & HR & Hle & Hlen).
  destruct HI as (Hreach & _ & _ & _ & Hcl & _).
  unfold consumer_link in Hcl. rewrite Hat in Hcl.
  destruct Hcl as (Hidle & Hone & ->).
  pose proof (reaches_inv _ _ _ _ _ Hreach) as HI.
  destruct (live_window _ _ HI) as [_ Hcount].
  apply (beyond_live_window _ _ _ HI); [lia|].
  rewrite Hidle in *. cbn [ring_base destroying] in *.
  rewrite HR. unfold dist.
  destruct (Z.leb_spec (Z.of_nat (pops rs)) (Z.of_nat (pops rs) - 1)); lia.
Qed.

Lemma producer_turn_inv A turns s s' schedule rs :
  allocator_ok A ->
  program_inv T_of_int A turns s schedule rs ->
  producer_turn T_of_int s = Some s' ->
  exists schedule' rs',
    program_inv T_of_int A (turns ++ [pthread]) s' schedule' rs'.
Proof.
  intros HA HI Hturn.
  pose proof (program_facts _ _ _ _ _ HA HI) as (Hcap & Hdone & HW & HR & Hle & Hlen).
  destruct HI as (Hreach & Hins & Hi & Hpl & Hcl & Hrc & Hpush & Hturns & Hpop).
  unfold producer_turn in Hturn.
  unfold program_inv. rewrite producer_turns_snoc. cbn [is_pthread].
  destruct (producer_at s) eqn:Hat.
  - (* the call of push *)
    unfold producer_link in Hpl. rewrite Hat in Hpl. destruct Hpl as [Hidle Hlt].
    unfold pushes_done in HW, Hins. rewrite Hat in HW, Hins.
    destruct (step_call_emplace (queue s) (T_of_int (producer_i s)) Hidle)
      as (c' & Hstep & Hpc & Hcc & Hrc').
    rewrite Hstep in Hturn. injection Hturn as <-.
    exists (schedule ++ [call_emplace (T_of_int (producer_i s))]), (rs ++ [Running]).
    rewrite inserted_snoc, pops_snoc, app_nil_r, Nat.add_0_r.
    rewrite HW in Hpc. rewrite wrap_small in Hpc by (unfold SIZE_MAX; lia).
    destruct (Z.eqb_spec (producer_i s + 1) (_capacity (object (queue s))));
      [lia|].
    split; [eapply reaches_step; eassumption|].
    split; [exact Hins|]. split; [exact Hi|].
    split; [split; [exact Hlt | left; exact Hpc]|].
    split; [apply (consumer_frame s); [reflexivity | exact Hcc | exact Hcl]|].
    split; [cbn [queue]; congruence|].
    split; [exact Hpush|].
    split.
    { unfold producer_progress in *. rewrite Hat in Hturns.
      cbn [producer_at queue producer_i]. rewrite Hpc. lia. }
    apply (pop_lines_frame s); [reflexivity | reflexivity | exact Hpop].
  - (* inside push *)
    unfold producer_link in Hpl. rewrite Hat in Hpl. destruct Hpl as [Hlt Hpc].
    unfold pushes_done in HW, Hins. rewrite Hat in HW, Hins.
    unfold producer_progress in Hturns. rewrite Hat in Hturns.
    destruct Hpc as [Hpc|Hpc]; rewrite Hpc in Hturns.
    + assert (Hne : producer_i s + 1 <> _readIndexCache (object (queue s))) by lia.
      destruct (step_emplace_construct (queue s) _ _ _ Hpc Hne)
        as (c' & Hstep & Hpc' & Hcc & Hrc').
      rewrite Hstep in Hturn. injection Hturn as <-.
      exists (schedule ++ [run_producer]), (rs ++ [Running]).
      rewrite inserted_snoc, pops_snoc, app_nil_r, Nat.add_0_r.
      split; [eapply reaches_step; eassumption|].
      split; [exact Hins|]. split; [exact Hi|].
      split; [split; [exact Hlt | right; exact Hpc']|].
      split; [apply (consumer_frame s); [reflexivity | exact Hcc | exact Hcl]|].
      split; [cbn [queue]; congruence|].
      split; [exact Hpush|].
      split.
      { unfold producer_progress. cbn [producer_at queue producer_i].
        rewrite Hpc'. lia. }
      apply (pop_lines_frame s); [reflexivity | reflexivity | exact Hpop].
    + destruct (step_emplace_publish (queue s) _ _ Hpc)
        as (c' & Hstep & Hpc' & Hcc & Hrc').
      rewrite Hstep in Hturn. injection Hturn as <-.
      exists (schedule ++ [run_producer]),
             (rs ++ [RetEmplace (T_of_int (producer_i s))]).
      rewrite inserted_snoc, pops_snoc, Nat.add_0_r.
      split; [eapply reaches_step; eassumption|].
      split.
      { unfold pushes_done. cbn [producer_at producer_i].
        rewrite seqZ_snoc by lia. rewrite fmap_app, Hins. reflexivity. }
      split; [exact Hi|].
      split; [split; [exact Hpc' | exact Hlt]|].
      split; [apply (consumer_frame s); [reflexivity | exact Hcc | exact Hcl]|].
      split; [cbn [queue]; congruence|].
      split; [exact Hpush|].
      split; [unfold producer_progress; cbn [producer_at producer_i]; lia|].
      apply (pop_lines_frame s); [reflexivity | reflexivity | exact Hpop].
  - (* the line after push *)
    unfold producer_link in Hpl. rewrite Hat in Hpl. destruct Hpl as [Hidle Hlt].
    unfold pushes_done in Hins. rewrite Hat in Hins.
    unfold producer_progress in Hturns. rewrite Hat in Hturns.
    injection Hturn as <-.
    exists schedule, rs.
    split; [exact Hreach|].
    split.
    { unfold pushes_done, loop_test. cbn [producer_at producer_i].
      destruct (producer_i s + 1 <? 10); exact Hins. }
    split; [cbn [producer_i]; lia|].
    split.
    { unfold producer_link, loop_test. cbn [producer_at producer_i queue].
      destruct (Z.ltb_spec (producer_i s + 1) 10); split; try assumption; lia. }
    split; [exact Hcl|]. split; [exact Hrc|].
    split; [cbn [push_lines producer_i]; rewrite seqZ_snoc by lia; congruence|].
    split.
    { unfold producer_progress, loop_test. cbn [producer_at producer_i].
      destruct (producer_i s + 1 <? 10); lia. }
    exact Hpop.
  - discriminate.
Qed.

Lemma consumer_turn_inv A turns s s' schedule rs :
  allocator_ok A ->
  program_inv T_of_int A turns s schedule rs ->
  consumer_turn s = Some s' ->
  exists schedule' rs',
    program_inv T_of_int A (turns ++ [cthread]) s' schedule' rs'.
Proof.
  intros HA HI Hturn.
  pose proof (program_facts _ _ _ _ _ HA HI) as (Hcap & Hdone & HW & HR & Hle & Hlen).
  destruct HI as (Hreach & Hins & Hi & Hpl & Hcl & Hrc & Hpush & Hturns & Hpop).
  unfold consumer_turn in Hturn.
  unfold program_inv. rewrite producer_turns_snoc. cbn [is_pthread].
  rewrite Z.add_0_r.
  unfold consumer_link in Hcl. unfold pop_lines_due in Hpop.
  destruct (consumer_at s) as [| |p|p|p] eqn:Hat.
  - (* the call of front *)
    destruct (step_call_front (queue s) Hcl)
      as (c' & r & Hstep & Hpc & Hrc' & Hr).
    rewrite Hstep in Hturn. injection Hturn as <-.
    exists (schedule ++ [call_front]), (rs ++ [r]).
    destruct (producer_frame s
                (mkProgramState c' (producer_i s) (producer_at s) (after_front r)
                                (push_lines s) (pop_lines s))
                eq_refl eq_refl Hpc) as (Hlink & Hprog & Hpd).
    rewrite Hprog, Hpd. rewrite inserted_snoc, pops_snoc.
    split; [eapply reaches_step; eassumption|].
    destruct Hr as [[-> [x Hx]]|(p & seen & -> & Hx)];
      rewrite app_nil_r, Nat.add_0_r;
      (split; [exact Hins|]); (split; [exact Hi|]);
      (split; [exact (Hlink Hpl)|]);
      (split; [unfold consumer_link; cbn [after_front consumer_at queue];
               first [exact Hx | exists x; exact Hx]|]);
      (split; [cbn [queue]; congruence|]);
      (split; [exact Hpush|]); (split; [exact Hturns|]); exact Hpop.
  - (* inside front *)
    destruct Hcl as [x Hcl].
    destruct (step_front_reload (queue s) x Hcl)
      as (c' & r & Hstep & Hpc & Hrc' & Hr).
    rewrite Hstep in Hturn. injection Hturn as <-.
    exists (schedule ++ [run_consumer]), (rs ++ [r]).
    destruct (producer_frame s
                (mkProgramState c' (producer_i s) (producer_at s) (after_front r)
                                (push_lines s) (pop_lines s))
                eq_refl eq_refl Hpc) as (Hlink & Hprog & Hpd).
    rewrite Hprog, Hpd. rewrite inserted_snoc, pops_snoc.
    split; [eapply reaches_step; eassumption|].
    destruct Hr as [[-> Hx]|(p & seen & -> & Hx)];
      rewrite app_nil_r, Nat.add_0_r;
      (split; [exact Hins|]); (split; [exact Hi|]);
      (split; [exact (Hlink Hpl)|]);
      (split; [unfold consumer_link; cbn [after_front consumer_at queue];
               exact Hx|]);
      (split; [cbn [queue]; congruence|]);
      (split; [exact Hpush|]); (split; [exact Hturns|]); exact Hpop.
  - (* the call of pop *)
    destruct (held_slot _ _ _ _ _ _ Hreach Hcl) as (Hp & _ & _).
    destruct (step_call_pop (queue s) p Hcl) as (c' & Hstep & Hpc & Hrc' & Hc').
    rewrite Hstep in Hturn. injection Hturn as <-.
    exists (schedule ++ [call_pop]), (rs ++ [Running]).
    destruct (producer_frame s
                (mkProgramState c' (producer_i s) (producer_at s) (in_pop p)
                                (push_lines s) (pop_lines s))
                eq_refl eq_refl Hpc) as (Hlink & Hprog & Hpd).
    rewrite Hprog, Hpd. rewrite inserted_snoc, pops_snoc, app_nil_r, Nat.add_0_r.
    split; [eapply reaches_step; eassumption|].
    split; [exact Hins|]. split; [exact Hi|]. split; [exact (Hlink Hpl)|].
    split.
    { unfold consumer_link. cbn [consumer_at queue].
      split; [lia|]. eexists. left. exact Hc'. }
    split; [cbn [queue]; congruence|].
    split; [exact Hpush|]. split; [exact Hturns|]. exact Hpop.
  - (* inside pop *)
    destruct Hcl as (Hp & x & [Hcl|Hcl]).
    + destruct (step_pop_destroy (queue s) x Hcl)
        as (c' & n & Hstep & Hpc & Hrc' & Hc').
      rewrite Hstep in Hturn. injection Hturn as <-.
      exists (schedule ++ [run_consumer]), (rs ++ [Running]).
      destruct (producer_frame s
                  (mkProgramState c' (producer_i s) (producer_at s) (in_pop p)
                                  (push_lines s) (pop_lines s))
                  eq_refl eq_refl Hpc) as (Hlink & Hprog & Hpd).
      rewrite Hprog, Hpd. rewrite inserted_snoc, pops_snoc, app_nil_r, Nat.add_0_r.
      split; [eapply reaches_step; eassumption|].
      split; [exact Hins|]. split; [exact Hi|]. split; [exact (Hlink Hpl)|].
      split.
      { unfold consumer_link. cbn [consumer_at queue].
        split; [exact Hp|]. eexists. right. exact Hc'. }
      split; [cbn [queue]; congruence|].
      split; [exact Hpush|]. split; [exact Hturns|]. exact Hpop.
    + destruct (step_pop_store (queue s) x Hcl) as (c' & Hstep & Hpc & Hrc' & Hc').
      rewrite Hstep in Hturn. injection Hturn as <-.
      exists (schedule ++ [run_consumer]), (rs ++ [RetPop]).
      destruct (producer_frame s
                  (mkProgramState c' (producer_i s) (producer_at s) (at_pop_line p)
                                  (push_lines s) (pop_lines s))
                  eq_refl eq_refl Hpc) as (Hlink & Hprog & Hpd).
      rewrite Hprog, Hpd. rewrite inserted_snoc, pops_snoc, app_nil_r.
      split; [eapply reaches_step; eassumption|].
      split; [exact Hins|]. split; [exact Hi|]. split; [exact (Hlink Hpl)|].
      split.
      { unfold consumer_link. cbn [consumer_at queue].
        split; [exact Hc'|]. split; lia. }
      split; [cbn [queue]; congruence|].
      split; [exact Hpush|]. split; [exact Hturns|].
      unfold pop_lines_due. cbn [consumer_at pop_lines].
      rewrite Hpop. f_equal. lia.
  - (* the line after pop *)
    assert (Hgone : _slots (object (queue s)) !! p = None).
    { apply (pop_line_slot A turns s schedule rs p HA); [|exact Hat].
      unfold program_inv, consumer_link, pop_lines_due. rewrite Hat.
      repeat (split; [assumption|]). assumption. }
    destruct Hcl as (Hidle & Hone & Hp).
    injection Hturn as <-.
    exists schedule, rs.
    destruct (producer_frame s
                (mkProgramState (queue s) (producer_i s) (producer_at s) at_front
                   (push_lines s)
                   (pop_lines s ++ [value (deref p (object (queue s)))]))
                eq_refl eq_refl eq_refl) as (Hlink & Hprog & Hpd).
    rewrite Hprog, Hpd.
    split; [exact Hreach|].
    split; [exact Hins|]. split; [exact Hi|]. split; [exact (Hlink Hpl)|].
    split; [exact Hidle|]. split; [exact Hrc|].
    split; [exact Hpush|]. split; [exact Hturns|].
    unfold pop_lines_due. cbn [consumer_at pop_lines].
    change (value (deref p (object (queue s)))) with (_slots (object (queue s)) !! p).
    rewrite Hgone, Hpop.
    replace (pops rs) with (S (pops rs - 1)) at 2 by lia.
    rewrite replicate_S_end. reflexivity.
Qed.

Lemma program_invariant A turns s :
  allocator_ok A ->
  run_program T_of_int turns (program_start A) = Some s ->
  exists schedule rs, program_inv T_of_int A turns s schedule rs.
Proof.
  intros HA. revert s.
  induction turns as [|t turns IH] using rev_ind; intros s Hrun.
  - injection Hrun as <-. exists [], [].
    split.
    { split; [exact HA|]. split; [unfold SIZE_MAX; lia | reflexivity]. }
    repeat split; try reflexivity; cbn; lia.
  - rewrite run_program_snoc in Hrun.
    destruct (run_program T_of_int turns (program_start A)) as [s1|];
      [|discriminate].
    destruct (IH s1 eq_refl) as (schedule & rs & HI).
    destruct t.
    + exact (producer_turn_inv _ _ _ _ _ _ HA HI Hrun).
    + exact (consumer_turn_inv _ _ _ _ _ _ HA HI Hrun).
Qed.

(** ** What the program does *)

(** X20. [producer()] never waits.  However the two threads take turns,
    every [q.push(i)] of the program finds room at the first test of its
    loop: each round of the [for] loop takes exactly four turns of the
    producer thread (the call, the construction, the store, the output), so
    after [n] of its turns [i] is [n / 4] and the lines "Push 0" to
    "Push n/4 - 1" are out, in this order; the thread can always take its
    next turn until it has returned, which is after exactly 40 turns. *)
Theorem producer_never_waits A turns s :
  allocator_ok A ->
  run_program T_of_int turns (program_start A) = Some s ->
  producer_i s = producer_turns turns / 4
  /\ push_lines s = seqZ 0 (producer_turns turns / 4)
  /\ producer_turns turns <= 40
  /\ (producer_at s = producer_returned <-> producer_turns turns = 40)
  /\ (producer_at s <> producer_returned -> is_Some (producer_turn T_of_int s)).
Proof.
  intros HA Hrun.
  destruct (program_invariant A turns s HA Hrun) as (schedule & rs & HI).
  pose proof (program_facts _ _ _ _ _ HA HI) as (Hcap & Hdone & HW & HR & Hle & Hlen).
  destruct HI as (Hreach & Hins & Hi & Hpl & Hcl & Hrc & Hpush & Hturns & Hpop).
  assert (Hprog : 0 <= producer_progress s <= 3).
  { unfold producer_progress.
    destruct (producer_at s); [lia| |lia|lia].
    destruct (producer (queue s)); lia. }
  assert (Hdiv : producer_turns turns / 4 = producer_i s).
  { symmetry. apply (Z.div_unique _ _ _ (producer_progress s)); lia. }
  rewrite Hdiv.
  split; [reflexivity|]. split; [exact Hpush|].
  unfold producer_link in Hpl. unfold producer_turn.
  unfold producer_progress in Hturns, Hprog.
  unfold pushes_done in HW.
  destruct (producer_at s) eqn:Hat.
  - destruct Hpl as [Hidle Hlt].
    split; [lia|]. split; [split; [discriminate | lia]|].
    intros _.
    destruct (step_call_emplace (queue s) (T_of_int (producer_i s)) Hidle)
      as (c' & Hstep & _).
    rewrite Hstep. eexists. reflexivity.
  - destruct Hpl as [Hlt Hpc].
    split; [lia|]. split; [split; [discriminate | lia]|].
    intros _. destruct Hpc as [Hpc|Hpc].
    + assert (Hne : producer_i s + 1 <> _readIndexCache (object (queue s))) by lia.
      destruct (step_emplace_construct (queue s) _ _ _ Hpc Hne) as (c' & Hstep & _).
      rewrite Hstep. eexists. reflexivity.
    + destruct (step_emplace_publish (queue s) _ _ Hpc) as (c' & Hstep & _).
      rewrite Hstep. eexists. reflexivity.
  - destruct Hpl as [Hidle Hlt].
    split; [lia|]. split; [split; [discriminate | lia]|].
    intros _. eexists. reflexivity.
  - destruct Hpl as [Hidle Hten].
    split; [lia|]. split; [split; intros; [lia | reflexivity]|].
    intros Hne. contradiction Hne. reflexivity.
Qed.

(** X21. [consumer()] reads after [pop].  However the two threads take
    turns: the consumer thread can always take its next turn, so [main()]
    never gets past [cthread.join()]; while it holds the pointer of
    [front], before [pop], the slot pointed to holds the element made from
    the number of "Pop " lines written so far, so the elements arrive as
    0, 1, 2, ...; but at line 25, where [*i] is read, [pop] has destroyed
    that element and nothing has been constructed in its slot: each of the
    at most ten "Pop " lines is written from a slot that holds no object. *)
Theorem consumer_reads_after_pop A turns s :
  allocator_ok A ->
  run_program T_of_int turns (program_start A) = Some s ->
  is_Some (consumer_turn s)
  /\ (length (pop_lines s) <= 10)%nat
  /\ pop_lines s = replicate (length (pop_lines s)) None
  /\ (forall i, consumer_at s = at_pop i ->
        _slots (object (queue s)) !! i
        = Some (T_of_int (Z.of_nat (length (pop_lines s)))))
  /\ (forall i, consumer_at s = at_pop_line i ->
        _slots (object (queue s)) !! i = None).
Proof.
  intros HA Hrun.
  destruct (program_invariant A turns s HA Hrun) as (schedule & rs & HI).
  pose proof (program_facts _ _ _ _ _ HA HI) as (Hcap & Hdone & HW & HR & Hle & Hlen).
  pose proof (pop_line_slot A turns s schedule rs) as Hgone.
  specialize (fun p => Hgone p HA HI).
  destruct HI as (Hreach & Hins & Hi & Hpl & Hcl & Hrc & Hpush & Hturns & Hpop).
  assert (Hlines : length (pop_lines s) = pop_lines_due s (pops rs)).
  { rewrite Hpop at 1. apply length_replicate. }
  split.
  { unfold consumer_turn. unfold consumer_link in Hcl.
    destruct (consumer_at s) as [| |p|p|p].
    - destruct (step_call_front (queue s) Hcl) as (c' & r & Hstep & _).
      rewrite Hstep. eexists. reflexivity.
    - destruct Hcl as [x Hcl].
      destruct (step_front_reload (queue s) x Hcl) as (c' & r & Hstep & _).
      rewrite Hstep. eexists. reflexivity.
    - destruct (step_call_pop (queue s) p Hcl) as (c' & Hstep & _).
      rewrite Hstep. eexists. reflexivity.
    - destruct Hcl as (_ & x & [Hcl|Hcl]).
      + destruct (step_pop_destroy (queue s) x Hcl) as (c' & n & Hstep & _).
        rewrite Hstep. eexists. reflexivity.
      + destruct (step_pop_store (queue s) x Hcl) as (c' & Hstep & _).
        rewrite Hstep. eexists. reflexivity.
    - eexists. reflexivity. }
  split.
  { rewrite Hlines. unfold pop_lines_due. destruct (consumer_at s); lia. }
  split; [rewrite Hlines; exact Hpop|].
  split; [|exact Hgone].
  intros i Hat. unfold consumer_link in Hcl. rewrite Hat in Hcl.
  destruct (held_slot _ _ _ _ _ _ Hreach Hcl) as (_ & Hlt & Hslot).
  rewrite Hslot, Hins, list_lookup_fmap.
  rewrite Hlines. unfold pop_lines_due. rewrite Hat.
  rewrite lookup_seqZ_lt by lia. reflexivity.
Qed.

End MainProgramProofs.

End Queue.

(** * Sample runs on a queue of [int]

    [SPSCQueue<int>] with [std::allocator]: [T] is [Z], [_padding] is 16. *)

Local Abbreviation run_done :=
  (outcome sizeof_int plain_allocator 2 (demo_schedule 10 20 30)).
Local Abbreviation run_wrapping :=
  (outcome sizeof_int plain_allocator 2 (demo_schedule_wrapping 10 20)).
Local Abbreviation run_held :=
  (outcome sizeof_int plain_allocator 2 (demo_schedule_held 10 20)).
Local Abbreviation full_queue := (demo_full sizeof_int 1 2 3).

(** The scenario on [SPSCQueue<int> q{3}]: 1, 2, 3 go in, 4 is refused, the
    front is 1; after one removal 4 goes in, and 2, 3, 4 come out. *)
Example scenario_int :
  value (scenario sizeof_int 1 2 3 4 (SPSCQueue_new sizeof_int plain_allocator 3))
  = ([true; true; true], false, Some 1, true, [Some 2; Some 3; Some 4], true).
Proof. vm_compute. reflexivity. Qed.

Ltac demo_reaches :=
  split; [intros H; discriminate |];
  split; [unfold SIZE_MAX; lia | vm_compute; reflexivity].

(** The run of [demo_schedule]: 10, 20 and 30 go in and come out in order. *)
Lemma fifo_order_witness :
  reaches sizeof_int plain_allocator 2 (demo_schedule 10 20 30)
          (fst run_done) (snd run_done)
  /\ observed (snd run_done) = [Some 10; Some 20; Some 30]
  /\ inserted (snd run_done) = [10; 20; 30].
Proof.
  assert (H : reaches sizeof_int plain_allocator 2 (demo_schedule 10 20 30)
                      (fst run_done) (snd run_done)) by demo_reaches.
  split; [exact H|].
  destruct (fifo_order sizeof_int plain_allocator 2 (demo_schedule 10 20 30) _ _ H)
    as (_ & _ & Hall).
  split; [rewrite Hall; vm_compute; reflexivity | vm_compute; reflexivity].
Defined.

(** A queue of [int] asked for 2 elements from [generous_allocator] has
    [capacity()] 5: it takes five elements and refuses the sixth. *)
Lemma capacity_bound_witness :
  allocator_ok generous_allocator /\ 0 <= 2 < SIZE_MAX
  /\ Z.of_nat (length [1; 2; 3; 4; 5])
     = capacity (SPSCQueue_new (T:=Z) sizeof_int generous_allocator 2)
  /\ value (try_emplace_all sizeof_int ([1; 2; 3; 4; 5] ++ [6])
                            (SPSCQueue_new (T:=Z) sizeof_int generous_allocator 2))
     = [true; true; true; true; true; false].
Proof.
  assert (HA : allocator_ok generous_allocator)
    by (intros _ n Hn; cbn [generous_allocator allocate_at_least_count]; lia).
  assert (Hc : 0 <= 2 < SIZE_MAX) by (unfold SIZE_MAX; lia).
  assert (Hlen : Z.of_nat (length [1; 2; 3; 4; 5])
                 = capacity (SPSCQueue_new (T:=Z) sizeof_int generous_allocator 2))
    by reflexivity.
  split; [exact HA|]. split; [exact Hc|]. split; [exact Hlen|].
  exact (proj1 (capacity_bound sizeof_int generous_allocator 2 [1; 2; 3; 4; 5] 6
                  HA Hc Hlen)).
Defined.

(** With two elements pending, [front] does not return null. *)
Lemma front_null_iff_empty_witness :
  reaches sizeof_int plain_allocator 2 (demo_schedule_held 10 20)
          (fst run_held) (snd run_held)
  /\ between_calls (consumer (fst run_held)) = true
  /\ (value (front sizeof_int (object (fst run_held))) = None
      <-> pending (snd run_held) = []).
Proof.
  assert (H : reaches sizeof_int plain_allocator 2 (demo_schedule_held 10 20)
                      (fst run_held) (snd run_held)) by demo_reaches.
  split; [exact H|]. split; [reflexivity|].
  exact (proj1 (front_null_iff_empty sizeof_int plain_allocator 2
                  (demo_schedule_held 10 20) _ _ H eq_refl)).
Defined.

(** After the run of [demo_schedule], [capacity()] is what it was. *)
Lemma capacity_reported_witness :
  reaches sizeof_int plain_allocator 2 (demo_schedule 10 20 30)
          (fst run_done) (snd run_done)
  /\ capacity (object (fst run_done))
     = capacity (SPSCQueue_new (T:=Z) sizeof_int plain_allocator 2).
Proof.
  assert (H : reaches sizeof_int plain_allocator 2 (demo_schedule 10 20 30)
                      (fst run_done) (snd run_done)) by demo_reaches.
  split; [exact H|].
  exact (proj1 (capacity_reported sizeof_int plain_allocator 2
                  (demo_schedule 10 20 30) _ _ H)).
Defined.

(** The request 2 on a queue of [int] with [generous_allocator], which is
    asked for 35 slots and grants 38: [capacity()] is 5, not the request. *)
Lemma capacity_not_the_request :
  allocator_ok generous_allocator
  /\ capacity (SPSCQueue_new (T:=Z) sizeof_int generous_allocator 2) = 5
  /\ capacity (SPSCQueue_new (T:=Z) sizeof_int generous_allocator 2) <> Z.max 2 1.
Proof.
  split.
  - intros _ n Hn. cbn [generous_allocator allocate_at_least_count]. lia.
  - split; [reflexivity | vm_compute; discriminate].
Qed.

(** The same queue constructed with logical capacity 2: the third
    [try_emplace], with nothing removed, returns true. *)
Lemma capacity_bound_exceeded :
  allocator_ok generous_allocator
  /\ value (try_emplace_all sizeof_int ([1; 2] ++ [3])
                            (SPSCQueue_new (T:=Z) sizeof_int generous_allocator 2))
     = [true; true; true]
  /\ value (try_emplace_all sizeof_int ([1; 2] ++ [3])
                            (SPSCQueue_new (T:=Z) sizeof_int generous_allocator 2))
     <> repeat true 2 ++ [false].
Proof.
  split.
  - intros _ n Hn. cbn [generous_allocator allocate_at_least_count]. lia.
  - split; [reflexivity | vm_compute; discriminate].
Qed.

(** With two elements pending in a queue of capacity 2, [size()] is in range. *)
Lemma size_bound_witness :
  reaches sizeof_int plain_allocator 2 (demo_schedule_held 10 20)
          (fst run_held) (snd run_held)
  /\ 0 <= size (object (fst run_held))
     <= capacity (object (fst run_held)).
Proof.
  assert (H : reaches sizeof_int plain_allocator 2 (demo_schedule_held 10 20)
                      (fst run_held) (snd run_held)) by demo_reaches.
  split; [exact H|].
  exact (size_bound sizeof_int plain_allocator 2 (demo_schedule_held 10 20) _ _ H).
Defined.

(** In the ring of three slots of a queue of capacity 2, with the write
    index at 2 and the read index at 1: an insertion wraps the write index
    to 0, and a [pop] moves the read index to 2. *)
Lemma cursor_range_witness :
  reaches sizeof_int plain_allocator 2 (demo_schedule_wrapping 10 20)
          (fst run_wrapping) (snd run_wrapping)
  /\ producer (fst run_wrapping) = PIdle
  /\ Z.of_nat (length (pending (snd run_wrapping))) < capacity (object (fst run_wrapping))
  /\ consumer (fst run_wrapping) = CHold 17
  /\ _capacity (object (fst run_wrapping)) = 3
  /\ _writeIndex (object (fst run_wrapping)) = 2
  /\ _readIndex (object (fst run_wrapping)) = 1
  /\ value (try_emplace sizeof_int 30 (object (fst run_wrapping))) = true
  /\ _writeIndex (after (try_emplace sizeof_int 30 (object (fst run_wrapping)))) = 0
  /\ _readIndex (after (pop sizeof_int (object (fst run_wrapping)))) = 2.
Proof.
  assert (H : reaches sizeof_int plain_allocator 2 (demo_schedule_wrapping 10 20)
                      (fst run_wrapping) (snd run_wrapping)) by demo_reaches.
  assert (Hp : producer (fst run_wrapping) = PIdle) by reflexivity.
  assert (Hroom : Z.of_nat (length (pending (snd run_wrapping)))
                  < capacity (object (fst run_wrapping)))
    by (vm_compute; reflexivity).
  assert (Hc : consumer (fst run_wrapping) = CHold 17) by reflexivity.
  split; [exact H|]. split; [exact Hp|]. split; [exact Hroom|]. split; [exact Hc|].
  split; [reflexivity|]. split; [reflexivity|]. split; [reflexivity|].
  destruct (cursor_range sizeof_int plain_allocator 2
              (demo_schedule_wrapping 10 20) _ _ H) as (_ & _ & _ & Hins & Hpop).
  destruct (Hins 30 Hp Hroom) as (Hok & HW & _).
  destruct (Hpop 17 Hc) as (HR & _).
  split; [exact Hok|]. split; [rewrite HW; reflexivity | rewrite HR; reflexivity].
Defined.

(** Destroying the queue with 10 and 20 pending destroys 10, then 20. *)
Lemma destructor_drains_witness :
  reaches sizeof_int plain_allocator 2 (demo_schedule_held 10 20)
          (fst run_held) (snd run_held)
  /\ quiescent (fst run_held) = true
  /\ (length (pending (snd run_held)) < 3)%nat
  /\ map snd (destroyed (accesses
       (SPSCQueue_delete sizeof_int 3 (object (fst run_held)))))
     = [Some 10; Some 20].
Proof.
  assert (H : reaches sizeof_int plain_allocator 2 (demo_schedule_held 10 20)
                      (fst run_held) (snd run_held)) by demo_reaches.
  assert (Hq : quiescent (fst run_held) = true) by reflexivity.
  assert (Hf : (length (pending (snd run_held)) < 3)%nat)
    by (vm_compute; lia).
  split; [exact H|]. split; [exact Hq|]. split; [exact Hf|].
  destruct (destructor_drains sizeof_int plain_allocator 2
              (demo_schedule_held 10 20) _ _ 3%nat H Hq Hf) as (_ & _ & Hd & _).
  rewrite Hd. vm_compute. reflexivity.
Defined.

(** A refused insertion into the full queue leaves its slots alone. *)
Lemma try_emplace_failure_atomic_witness :
  value (try_emplace sizeof_int 4 full_queue) = false
  /\ _slots (after (try_emplace sizeof_int 4 full_queue)) = _slots full_queue.
Proof.
  assert (H : value (try_emplace sizeof_int 4 full_queue) = false) by reflexivity.
  split; [exact H|].
  exact (proj1 (proj2 (try_emplace_failure_atomic sizeof_int 4 full_queue H))).
Defined.

(** * More sample runs *)

Local Abbreviation run_waiting :=
  (outcome sizeof_int plain_allocator 2 (demo_schedule_waiting 10 20 30)).
Local Abbreviation run_unseen :=
  (outcome sizeof_int plain_allocator 2 (demo_schedule_unseen 7)).
Local Abbreviation run_destroyed :=
  (outcome sizeof_int plain_allocator 2 (demo_schedule_destroyed 10 20)).
Local Abbreviation run_generous :=
  (outcome sizeof_int generous_allocator 2 (demo_schedule_held 10 20)).
Local Abbreviation run_popped :=
  (resume sizeof_int [call_pop; run_consumer; run_consumer] (fst run_held)).

(** With 10 and 20 pending in a queue of capacity 2 and a [pop] that has
    destroyed 10 and not stored the read index, one object is alive. *)
Lemma live_objects_bound_witness :
  reaches sizeof_int plain_allocator 2 (demo_schedule_destroyed 10 20)
          (fst run_destroyed) (snd run_destroyed)
  /\ length (pending (snd run_destroyed)) = 2%nat
  /\ destroying (consumer (fst run_destroyed)) = 1%nat
  /\ stdpp.base.size (_slots (object (fst run_destroyed))) = 1%nat.
Proof.
  assert (H : reaches sizeof_int plain_allocator 2 (demo_schedule_destroyed 10 20)
                      (fst run_destroyed) (snd run_destroyed)) by demo_reaches.
  split; [exact H|]. split; [reflexivity|]. split; [reflexivity|].
  destruct (live_objects_bound sizeof_int plain_allocator 2
              (demo_schedule_destroyed 10 20) _ _ H) as (_ & _ & Hexact & _).
  rewrite Hexact. reflexivity.
Defined.

(** After the run of [demo_schedule] the queue is empty and [try_emplace]
    succeeds. *)
Lemma try_emplace_effect_witness :
  reaches sizeof_int plain_allocator 2 (demo_schedule 10 20 30)
          (fst run_done) (snd run_done)
  /\ producer (fst run_done) = PIdle
  /\ (value (try_emplace sizeof_int 7 (object (fst run_done))) = true
      <-> Z.of_nat (length (pending (snd run_done)))
          < capacity (object (fst run_done))).
Proof.
  assert (H : reaches sizeof_int plain_allocator 2 (demo_schedule 10 20 30)
                      (fst run_done) (snd run_done)) by demo_reaches.
  assert (Hp : producer (fst run_done) = PIdle) by reflexivity.
  split; [exact H|]. split; [exact Hp|].
  exact (proj1 (try_emplace_effect sizeof_int plain_allocator 2
                  (demo_schedule 10 20 30) _ _ 7 H Hp)).
Defined.

(** After the run of [demo_schedule] there is room and [push] returns. *)
Lemma push_with_room_witness :
  reaches sizeof_int plain_allocator 2 (demo_schedule 10 20 30)
          (fst run_done) (snd run_done)
  /\ producer (fst run_done) = PIdle
  /\ Z.of_nat (length (pending (snd run_done))) < capacity (object (fst run_done))
  /\ value (push sizeof_int 2 7 (object (fst run_done))) = Some tt.
Proof.
  assert (H : reaches sizeof_int plain_allocator 2 (demo_schedule 10 20 30)
                      (fst run_done) (snd run_done)) by demo_reaches.
  assert (Hp : producer (fst run_done) = PIdle) by reflexivity.
  assert (Hroom : Z.of_nat (length (pending (snd run_done)))
                  < capacity (object (fst run_done)))
    by (vm_compute; reflexivity).
  split; [exact H|]. split; [exact Hp|]. split; [exact Hroom|].
  exact (proj1 (push_with_room sizeof_int plain_allocator 2
                  (demo_schedule 10 20 30) _ _ 7 0%nat H Hp Hroom)).
Defined.

(** With 10 and 20 pending in a queue of capacity 2, [push] does not return. *)
Lemma push_on_full_queue_waits_witness :
  reaches sizeof_int plain_allocator 2 (demo_schedule_held 10 20)
          (fst run_held) (snd run_held)
  /\ producer (fst run_held) = PIdle
  /\ Z.of_nat (length (pending (snd run_held))) = capacity (object (fst run_held))
  /\ value (push sizeof_int 5 30 (object (fst run_held))) = None.
Proof.
  assert (H : reaches sizeof_int plain_allocator 2 (demo_schedule_held 10 20)
                      (fst run_held) (snd run_held)) by demo_reaches.
  assert (Hp : producer (fst run_held) = PIdle) by reflexivity.
  assert (Hfull : Z.of_nat (length (pending (snd run_held)))
                  = capacity (object (fst run_held))) by reflexivity.
  split; [exact H|]. split; [exact Hp|]. split; [exact Hfull|].
  exact (proj1 (push_on_full_queue_waits sizeof_int plain_allocator 2
                  (demo_schedule_held 10 20) _ _ 30 5%nat H Hp Hfull)).
Defined.

(** The third [emplace] on the full queue of capacity 2 stays at its loop. *)
Lemma emplace_waits_exactly_while_full_witness :
  reaches sizeof_int plain_allocator 2 (demo_schedule_waiting 10 20 30)
          (fst run_waiting) (snd run_waiting)
  /\ producer (fst run_waiting) = PEmplaceWait 2 0 30
  /\ Z.of_nat (length (pending (snd run_waiting)))
     = capacity (object (fst run_waiting))
  /\ exists c', step sizeof_int run_producer (fst run_waiting) = Some (c', Running)
       /\ producer c' = PEmplaceWait 2 0 30.
Proof.
  assert (H : reaches sizeof_int plain_allocator 2 (demo_schedule_waiting 10 20 30)
                      (fst run_waiting) (snd run_waiting)) by demo_reaches.
  assert (Hp : producer (fst run_waiting) = PEmplaceWait 2 0 30) by reflexivity.
  assert (Hfull : Z.of_nat (length (pending (snd run_waiting)))
                  = capacity (object (fst run_waiting))) by reflexivity.
  split; [exact H|]. split; [exact Hp|]. split; [exact Hfull|].
  destruct (proj1 (emplace_waits_exactly_while_full sizeof_int plain_allocator 2
                     (demo_schedule_waiting 10 20 30) _ _ 2 0 30 H Hp) Hfull)
    as (c' & Hstep & Hpc & _).
  exists c'. split; [exact Hstep | exact Hpc].
Defined.

(** The pointer held after [demo_schedule_held] shows 10. *)
Lemma held_pointer_stable_witness :
  reaches sizeof_int plain_allocator 2 (demo_schedule_held 10 20)
          (fst run_held) (snd run_held)
  /\ consumer (fst run_held) = CHold 16
  /\ _slots (object (fst run_held)) !! 16 = last_front (snd run_held).
Proof.
  assert (H : reaches sizeof_int plain_allocator 2 (demo_schedule_held 10 20)
                      (fst run_held) (snd run_held)) by demo_reaches.
  assert (Hc : consumer (fst run_held) = CHold 16) by reflexivity.
  split; [exact H|]. split; [exact Hc|].
  exact (proj1 (held_pointer_stable sizeof_int plain_allocator 2
                  (demo_schedule_held 10 20) _ _ 16 H Hc)).
Defined.

(** A queue of [int] asked for 2 elements from [generous_allocator]: 35
    slots are asked for, 38 are obtained, and the first element sits in
    slot 16. *)
Lemma storage_bounds_witness :
  reaches sizeof_int generous_allocator 2 (demo_schedule_held 10 20)
          (fst run_generous) (snd run_generous)
  /\ is_Some (_slots (object (fst run_generous)) !! 16)
  /\ 16 + _padding sizeof_int < slots_allocated sizeof_int (object (fst run_generous))
  /\ slots_allocated sizeof_int (object (fst run_generous)) = 38
  /\ slots_asked sizeof_int 2 = 35.
Proof.
  assert (HA : allocator_ok generous_allocator)
    by (intros _ n Hn; cbn [generous_allocator allocate_at_least_count]; lia).
  assert (H : reaches sizeof_int generous_allocator 2 (demo_schedule_held 10 20)
                      (fst run_generous) (snd run_generous)).
  { split; [exact HA|].
    split; [unfold SIZE_MAX; lia | vm_compute; reflexivity]. }
  assert (Hk : is_Some (_slots (object (fst run_generous)) !! 16))
    by (exists 10; vm_compute; reflexivity).
  split; [exact H|]. split; [exact Hk|].
  destruct (storage_bounds sizeof_int generous_allocator 2
              (demo_schedule_held 10 20) _ _ 16 H Hk) as (_ & Hlt & Hval & _).
  split; [exact Hlt|]. split; [rewrite Hval; reflexivity | reflexivity].
Defined.

(** With 10 and 20 pending, [size()] is 2. *)
Lemma size_counts_pending_witness :
  reaches sizeof_int plain_allocator 2 (demo_schedule_held 10 20)
          (fst run_held) (snd run_held)
  /\ capacity (object (fst run_held)) <= PTRDIFF_MAX
  /\ size (object (fst run_held)) = Z.of_nat (length (pending (snd run_held))).
Proof.
  assert (H : reaches sizeof_int plain_allocator 2 (demo_schedule_held 10 20)
                      (fst run_held) (snd run_held)) by demo_reaches.
  assert (Hs : capacity (object (fst run_held)) <= PTRDIFF_MAX)
    by (vm_compute; intros Hgt; discriminate Hgt).
  split; [exact H|]. split; [exact Hs|].
  exact (size_counts_pending sizeof_int plain_allocator 2
           (demo_schedule_held 10 20) _ _ H Hs).
Defined.

(** The write index read before a [pop], the read index after it. *)
Lemma size_bound_stale_witness :
  reaches sizeof_int plain_allocator 2 (demo_schedule_held 10 20)
          (fst run_held) (snd run_held)
  /\ exec sizeof_int [call_pop; run_consumer; run_consumer] (fst run_held)
     = Some (fst run_popped, snd run_popped)
  /\ 0 <= size (with_readIndex (_readIndex (object (fst run_popped)))
                               (object (fst run_held)))
     <= capacity (object (fst run_held)).
Proof.
  assert (H : reaches sizeof_int plain_allocator 2 (demo_schedule_held 10 20)
                      (fst run_held) (snd run_held)) by demo_reaches.
  assert (He : exec sizeof_int [call_pop; run_consumer; run_consumer] (fst run_held)
               = Some (fst run_popped, snd run_popped))
    by (vm_compute; reflexivity).
  split; [exact H|]. split; [exact He|].
  exact (size_bound_stale sizeof_int plain_allocator 2
           (demo_schedule_held 10 20) _ _ _ _ _ H He).
Defined.

(** While the pointer of [demo_schedule_held] is held, the assertion of
    [pop] holds. *)
Lemma pop_assertion_holds_witness :
  reaches sizeof_int plain_allocator 2 (demo_schedule_held 10 20)
          (fst run_held) (snd run_held)
  /\ popping (consumer (fst run_held)) = true
  /\ pop_assertion (object (fst run_held)) = true.
Proof.
  assert (H : reaches sizeof_int plain_allocator 2 (demo_schedule_held 10 20)
                      (fst run_held) (snd run_held)) by demo_reaches.
  assert (Hp : popping (consumer (fst run_held)) = true) by reflexivity.
  split; [exact H|]. split; [exact Hp|].
  exact (pop_assertion_holds sizeof_int plain_allocator 2
           (demo_schedule_held 10 20) _ _ H Hp).
Defined.

(** 7 is pending in slot 16 and the consumer has not looked: [pop] passes
    its assertion and destroys 7, and the next [front] returns slot 17. *)
Lemma pop_without_front_witness :
  reaches sizeof_int plain_allocator 2 (demo_schedule_unseen 7)
          (fst run_unseen) (snd run_unseen)
  /\ producer (fst run_unseen) = PIdle /\ consumer (fst run_unseen) = CIdle
  /\ _writeIndexCache (object (fst run_unseen)) = _readIndex (object (fst run_unseen))
  /\ pending (snd run_unseen) = [7]
  /\ pop_assertion (object (fst run_unseen)) = true
  /\ destroyed (accesses (pop sizeof_int (object (fst run_unseen)))) = [(16, Some 7)]
  /\ value (front sizeof_int (after (pop sizeof_int (object (fst run_unseen)))))
     = Some 17.
Proof.
  assert (H : reaches sizeof_int plain_allocator 2 (demo_schedule_unseen 7)
                      (fst run_unseen) (snd run_unseen)) by demo_reaches.
  assert (Hp : producer (fst run_unseen) = PIdle) by reflexivity.
  assert (Hc : consumer (fst run_unseen) = CIdle) by reflexivity.
  assert (Hw : _writeIndexCache (object (fst run_unseen))
               = _readIndex (object (fst run_unseen))) by reflexivity.
  assert (Hx : pending (snd run_unseen) = [7]) by reflexivity.
  split; [exact H|]. split; [exact Hp|]. split; [exact Hc|].
  split; [exact Hw|]. split; [exact Hx|].
  destruct (pop_without_front sizeof_int plain_allocator 2
              (demo_schedule_unseen 7) _ _ 7 H Hp Hc Hw Hx)
    as (Ha & Hd & _ & _ & _ & Hf & _).
  split; [exact Ha|].
  split; [rewrite Hd; reflexivity | rewrite Hf; reflexivity].
Defined.

(** A caller of [SPSCQueue<int> q{2}] that inserts 1, 2 and 3, looks,
    removes twice and asks for the size and for emptiness. *)
Lemma sequential_use_is_a_bounded_fifo_witness :
  allocator_ok plain_allocator /\ 0 <= 2 < SIZE_MAX
  /\ capacity (SPSCQueue_new (T:=Z) sizeof_int plain_allocator 2) <= PTRDIFF_MAX
  /\ value (uses sizeof_int
              [use_try_push 1; use_try_push 2; use_try_push 3; use_front;
               use_front_pop; use_size; use_front_pop; use_front_pop; use_empty]
              (SPSCQueue_new sizeof_int plain_allocator 2))
     = [answer_bool true; answer_bool true; answer_bool false;
        answer_element (Some 1); answer_element (Some 1); answer_size 1;
        answer_element (Some 2); answer_element None; answer_bool true].
Proof.
  assert (HA : allocator_ok plain_allocator) by (intros H; discriminate).
  assert (Hc : 0 <= 2 < SIZE_MAX) by (unfold SIZE_MAX; lia).
  assert (Hs : capacity (SPSCQueue_new (T:=Z) sizeof_int plain_allocator 2)
               <= PTRDIFF_MAX)
    by (vm_compute; intros Hgt; discriminate Hgt).
  split; [exact HA|]. split; [exact Hc|]. split; [exact Hs|].
  rewrite (sequential_use_is_a_bounded_fifo sizeof_int plain_allocator 2 _ HA Hc Hs).
  vm_compute. reflexivity.
Defined.

(** After two insertions the write index is 2 and the read index 0. *)
Lemma indices_count_calls_witness :
  reaches sizeof_int plain_allocator 2 (demo_schedule_held 10 20)
          (fst run_held) (snd run_held)
  /\ _writeIndex (object (fst run_held))
     = Z.of_nat (length (inserted (snd run_held))) mod _capacity (object (fst run_held)).
Proof.
  assert (H : reaches sizeof_int plain_allocator 2 (demo_schedule_held 10 20)
                      (fst run_held) (snd run_held)) by demo_reaches.
  split; [exact H|].
  exact (proj1 (indices_count_calls sizeof_int plain_allocator 2
                  (demo_schedule_held 10 20) _ _ H)).
Defined.

(** Slot 16, which held 10, is empty after the [pop]. *)
Lemma vacated_slot_stays_empty_witness :
  reaches sizeof_int plain_allocator 2 (demo_schedule_held 10 20)
          (fst run_held) (snd run_held)
  /\ consumer (fst run_held) = CHold 16
  /\ exec sizeof_int [call_pop; run_consumer; run_consumer] (fst run_held)
     = Some (fst run_popped, snd run_popped)
  /\ pops (snd run_popped) = 1%nat
  /\ _slots (object (fst run_popped)) !! 16 = None.
Proof.
  assert (H : reaches sizeof_int plain_allocator 2 (demo_schedule_held 10 20)
                      (fst run_held) (snd run_held)) by demo_reaches.
  assert (Hc : consumer (fst run_held) = CHold 16) by reflexivity.
  assert (He : exec sizeof_int [call_pop; run_consumer; run_consumer] (fst run_held)
               = Some (fst run_popped, snd run_popped))
    by (vm_compute; reflexivity).
  assert (Hone : pops (snd run_popped) = 1%nat) by reflexivity.
  split; [exact H|]. split; [exact Hc|]. split; [exact He|]. split; [exact Hone|].
  exact (vacated_slot_stays_empty sizeof_int plain_allocator 2
           (demo_schedule_held 10 20) _ _ 16 _ _ _ H Hc He Hone).
Defined.

Local Abbreviation run_trying :=
  (outcome sizeof_int plain_allocator 2 (demo_schedule_trying 10 20 30)).
Local Abbreviation run_refused :=
  (resume sizeof_int [run_producer] (fst run_trying)).
Local Abbreviation run_looking :=
  (outcome (T:=Z) sizeof_int plain_allocator 2 demo_schedule_looking).
Local Abbreviation run_null :=
  (resume sizeof_int [run_consumer] (fst run_looking)).

(** The queue of capacity 2 holds 10 and 20 when 30 is refused. *)
Lemma refused_only_when_full_witness :
  reaches sizeof_int plain_allocator 2 (demo_schedule_trying 10 20 30)
          (fst run_trying) (snd run_trying)
  /\ step sizeof_int run_producer (fst run_trying)
     = Some (fst run_refused, RetTryEmplace 30 false)
  /\ Z.of_nat (length (pending (snd run_trying))) = capacity (object (fst run_trying)).
Proof.
  assert (H : reaches sizeof_int plain_allocator 2 (demo_schedule_trying 10 20 30)
                      (fst run_trying) (snd run_trying)) by demo_reaches.
  assert (Hs : step sizeof_int run_producer (fst run_trying)
               = Some (fst run_refused, RetTryEmplace 30 false))
    by (vm_compute; reflexivity).
  split; [exact H|]. split; [exact Hs|].
  exact (proj1 (refused_only_when_full sizeof_int plain_allocator 2
                  (demo_schedule_trying 10 20 30) _ _ _ _ _ H Hs)).
Defined.

(** [front] on the fresh queue returns null, and nothing is pending. *)
Lemma null_only_when_empty_witness :
  reaches sizeof_int plain_allocator 2 demo_schedule_looking
          (fst run_looking) (snd run_looking)
  /\ step sizeof_int run_consumer (fst run_looking)
     = Some (fst run_null, RetFront None None)
  /\ pending (snd run_looking) = [].
Proof.
  assert (H : reaches sizeof_int plain_allocator 2 demo_schedule_looking
                      (fst run_looking) (snd run_looking)) by demo_reaches.
  assert (Hs : step sizeof_int run_consumer (fst run_looking)
               = Some (fst run_null, RetFront None None))
    by (vm_compute; reflexivity).
  split; [exact H|]. split; [exact Hs|].
  exact (proj1 (null_only_when_empty sizeof_int plain_allocator 2
                  demo_schedule_looking _ _ _ _ _ H Hs)).
Defined.

(** * Sample runs of the program

    [SPSCQueue<int> q{10}] with [std::allocator]; the element made from an
    [int] is that [int]. *)

(** The producer runs two rounds of its loop and calls [push] a third
    time, while the consumer takes out 0 and stands at line 25. *)
Local Abbreviation main_turns :=
  ([pthread; pthread; pthread; cthread; cthread; pthread; pthread; cthread;
    pthread; cthread; pthread; pthread; cthread; pthread] : list Thread).
Local Abbreviation main_state :=
  (program_after sizeof_int (fun i : Z => i) plain_allocator main_turns).

(** The same before the consumer's last turn: it holds the pointer. *)
Local Abbreviation main_turns_held :=
  ([pthread; pthread; pthread; cthread; cthread] : list Thread).
Local Abbreviation main_state_held :=
  (program_after sizeof_int (fun i : Z => i) plain_allocator main_turns_held).

(** After nine turns of the producer, [i] is 2 and "Push 0", "Push 1" are
    out. *)
Lemma producer_never_waits_witness :
  allocator_ok plain_allocator
  /\ run_program sizeof_int (fun i : Z => i) main_turns
                 (program_start sizeof_int plain_allocator) = Some main_state
  /\ producer_i main_state = 2
  /\ push_lines main_state = [0; 1].
Proof.
  assert (HA : allocator_ok plain_allocator) by (intros H; discriminate).
  assert (Hrun : run_program sizeof_int (fun i : Z => i) main_turns
                             (program_start sizeof_int plain_allocator)
                 = Some main_state) by (vm_compute; reflexivity).
  split; [exact HA|]. split; [exact Hrun|].
  destruct (producer_never_waits sizeof_int (fun i : Z => i) plain_allocator
              main_turns main_state HA Hrun) as (Hi & Hlines & _).
  split; [rewrite Hi; reflexivity | rewrite Hlines; reflexivity].
Defined.

(** The consumer holds a pointer to slot 16, which holds 0. *)
Lemma consumer_reads_after_pop_witness :
  allocator_ok plain_allocator
  /\ run_program sizeof_int (fun i : Z => i) main_turns_held
                 (program_start sizeof_int plain_allocator) = Some main_state_held
  /\ consumer_at main_state_held = at_pop 16
  /\ _slots (object (queue main_state_held)) !! 16 = Some 0.
Proof.
  assert (HA : allocator_ok plain_allocator) by (intros H; discriminate).
  assert (Hrun : run_program sizeof_int (fun i : Z => i) main_turns_held
                             (program_start sizeof_int plain_allocator)
                 = Some main_state_held) by (vm_compute; reflexivity).
  assert (Hat : consumer_at main_state_held = at_pop 16) by reflexivity.
  split; [exact HA|]. split; [exact Hrun|]. split; [exact Hat|].
  destruct (consumer_reads_after_pop sizeof_int (fun i : Z => i) plain_allocator
              main_turns_held main_state_held HA Hrun) as (_ & _ & _ & Hheld & _).
  rewrite (Hheld 16 Hat). reflexivity.
Defined.

(** * A sample allocator *)

(** Asked for 2 on a queue of [int], [generous_allocator] is asked for 35
    slots and grants 38: the queue holds five elements. *)
Lemma constructor_uses_what_it_is_granted_witness :
  allocator_ok generous_allocator
  /\ has_allocate_at_least generous_allocator = true
  /\ 0 <= 2
  /\ Z.max 2 1 + 1 <= SIZE_MAX - 2 * _padding sizeof_int
  /\ slots_allocated sizeof_int (SPSCQueue_new (T:=Z) sizeof_int generous_allocator 2) = 38
  /\ capacity (SPSCQueue_new (T:=Z) sizeof_int generous_allocator 2) = 5.
Proof.
  assert (HA : allocator_ok generous_allocator)
    by (intros _ n Hn; cbn [generous_allocator allocate_at_least_count]; lia).
  assert (Hhas : has_allocate_at_least generous_allocator = true) by reflexivity.
  assert (Hc : 0 <= 2) by lia.
  assert (Hfit : Z.max 2 1 + 1 <= SIZE_MAX - 2 * _padding sizeof_int)
    by (vm_compute; intros Hgt; discriminate Hgt).
  split; [exact HA|]. split; [exact Hhas|]. split; [exact Hc|]. split; [exact Hfit|].
  destruct (constructor_uses_what_it_is_granted (T:=Z) sizeof_int
              generous_allocator 2 HA Hhas Hc Hfit) as (_ & Hslots & _).
  split; [rewrite Hslots; reflexivity | reflexivity].
Defined.
